(** * The chaining hash map of [include/HashMaps/chainHashingMap.h]

  A shallow embedding of the two bucket classes ([LinkedListBucketT],
  [PlainHashBucketT]) and of the map [_chainHashingMapT] that is generic
  in its bucket class, followed by the properties of the design document.

  Conventions of the embedding.
  - [size_t] is [N] with the wrap-around of a 64-bit unsigned written out.
  - [float] is IEEE binary32, through the parametric [spec_float]
    operations of the standard library at [prec = 24], [emax = 128].
  - An operation whose C++ behaviour is undefined (reading through a null
    pointer, indexing a vector out of range, a float that does not fit
    the integer it is cast to, signed overflow) returns [None].
  - A returned [ItemT&] is the item read through the reference, next to
    the state the call leaves behind.
  - [std::vector] and the bucket objects are values: the copies made when
    a vector is passed or assigned ([cloneList]) are the value itself. *)

From Stdlib Require Import NArith ZArith Bool Lia.
From Stdlib Require Import Floats.SpecFloat.
From stdpp Require Import base option list.

Local Open Scope N_scope.

(** ** [size_t] *)

Module size_t.

Definition modulus : N := 2 ^ 64.
Definition SIZE_MAX : N := modulus - 1.

Definition wrap (n : N) : N := n mod modulus.

Definition add (a b : N) : N := wrap (a + b).
Definition mul (a b : N) : N := wrap (a * b).
(** [a - b] on unsigned operands: [a + (2^64 - b)] modulo [2^64]. *)
Definition sub (a b : N) : N := wrap (a + (modulus - wrap b)).

(** [++n] and [--n]. *)
Definition incr (n : N) : N := add n 1.
Definition decr (n : N) : N := sub n 1.

(** The idiom [cond ? 1 : 0]. *)
Definition of_bool (b : bool) : N := if b then 1 else 0.

End size_t.

(** ** [float] (binary32) and [int] *)

Module float.

Definition prec : Z := 24.
Definition emax : Z := 128.

Definition t : Type := spec_float.

(** [static_cast<float>(n)] for a [size_t]: round to nearest, ties to even. *)
Definition of_size_t (n : N) : t := binary_normalize prec emax (Z.of_N n) 0 false.

Definition mul : t -> t -> t := SFmul prec emax.
Definition div : t -> t -> t := SFdiv prec emax.
Definition ltb : t -> t -> bool := SFltb.
Definition gtb (x y : t) : bool := SFltb y x.
Definition leb : t -> t -> bool := SFleb.

(** The literal [1.0]. *)
Definition one : t := SFone prec emax.

(** [static_cast<size_t>(f)]: truncation toward zero; undefined when the
    truncated value is not a [size_t] (also for infinities and NaN). *)
Definition to_size_t (f : t) : option N :=
  match f with
  | S754_zero _ => Some 0
  | S754_finite s m e =>
      let mag : Z :=
        match e with
        | Zneg p => Z.shiftr (Zpos m) (Zpos p)
        | _ => Z.shiftl (Zpos m) e
        end in
      if s then (if Z.eqb mag 0 then Some 0 else None)
      else if Z.ltb mag (Z.of_N size_t.modulus) then Some (Z.to_N mag) else None
  | _ => None
  end.

End float.

Definition INT_MAX : Z := 2147483647.

(** ** The bucket contract

  The comment block "IMPORTANT NOTES - BUCKETS" of the header lists what
  every bucket class offers; the map below is written against it. *)

Module Bucket.
Section contract.
Context {KeyT ItemT : Type}.

Class T (BucketT : Type) := {
  (** default constructor *)
  new : BucketT;
  insert : KeyT -> ItemT -> BucketT -> option (bool * BucketT);
  size : BucketT -> N;
  search : KeyT -> BucketT -> option bool;
  remove : KeyT -> BucketT -> option BucketT;
  safeRemove : KeyT -> BucketT -> option (bool * BucketT);
  get : KeyT -> BucketT -> option (ItemT * BucketT);
  safeGet : KeyT -> BucketT -> option (ItemT * BucketT);
  reorganizeBuckets :
    list BucketT -> N -> (KeyT -> N) -> option (list BucketT * N)
}.

(** What the map relies on, as a representation invariant [wf] and an
    abstraction [entries] of a bucket to the key-item pairs it stores.
    [fits n] says that a bucket can hold [n] entries (its counters and
    capacities do not wrap). *)
Class Laws (BucketT : Type) `{!T BucketT} := {
  wf : BucketT -> Prop;
  entries : BucketT -> list (KeyT * ItemT);
  fits : nat -> Prop;
  fits_le n n' : fits n -> (n' <= n)%nat -> fits n';
  wf_new : wf new;
  entries_new : entries new = [];
  wf_NoDup b : wf b -> NoDup (entries b).*1;
  search_spec b k :
    wf b ->
    exists r, search k b = Some r /\ (r = true <-> k ∈ (entries b).*1);
  insert_new b k v :
    wf b -> fits (S (length (entries b))) -> k ∉ (entries b).*1 ->
    exists b', insert k v b = Some (true, b') /\ wf b' /\
               entries b' ≡ₚ (k, v) :: entries b;
  insert_old b k v :
    wf b -> k ∈ (entries b).*1 -> insert k v b = Some (false, b);
  get_spec b k v :
    wf b -> (k, v) ∈ entries b -> get k b = Some (v, b);
  reorganize_spec bs n f :
    Forall wf bs ->
    NoDup (bs ≫= entries).*1 ->
    (forall e, e ∈ bs ≫= entries -> f e.1 < n) ->
    (forall i : nat,
       fits (length (filter (fun e => N.to_nat (f e.1) = i)
                            (bs ≫= entries)))) ->
    exists nbs used,
      reorganizeBuckets bs n f = Some (nbs, used) /\
      length nbs = N.to_nat n /\ Forall wf nbs /\
      forall i b, nbs !! i = Some b ->
        entries b ≡ₚ filter (fun e => N.to_nat (f e.1) = i)
                            (bs ≫= entries)
}.
End contract.
Global Arguments T : clear implicits.
Global Arguments Laws {KeyT ItemT} BucketT {_}.
End Bucket.

(** ** [LinkedListBucketT]: a chain behind a sentinel node

  The chain that hangs off the sentinel [_root] is a list of nodes, the
  [next] pointer of a node being the tail of the list. Three places
  of the class are ill-formed as written and are read as follows:
  the member [key] read from a node is the node's only key field [_key], and
  the initialiser [node** root = _root] of [safeRemove] is [&_root].
  As written, [search], [safeRemove] and [remove] have no instantiation:
  the readings serve to state what a call cannot give and as premises,
  and a property that needs a result of one of them is settled against
  the header. [insert], [safeGet], [get] and [reorganizeBuckets] are
  well formed as written. *)

Module LinkedListBucketT.
Section defs.
Context {KeyT ItemT : Type}.
(** [inline static ComparerT _comp] *)
Variable _comp : KeyT -> KeyT -> bool.
(** [ItemT()] *)
Variable ItemT_default : ItemT.

Record node := Node { _item : ItemT; _key : KeyT }.

Record t := Build { _elemCount : N; _root : list node }.

Definition new : t := {| _elemCount := 0; _root := [] |}.

(** The scan [while ((root = root->next)) if (_comp(root->_key, key)) ...]
    shared by [insert], [search] and [safeGet]: the first node with a
    matching key. *)
Fixpoint scan (key : KeyT) (chain : list node) : option node :=
  match chain with
  | [] => None
  | n :: rest => if _comp (_key n) key then Some n else scan key rest
  end.

Definition insert (key : KeyT) (item : ItemT) (b : t) : bool * t :=
  match scan key (_root b) with
  | Some _ => (false, b)
  | None =>
      (true, {| _elemCount := size_t.incr (_elemCount b);
                _root := Node item key :: _root b |})
  end.

Definition size (b : t) : N := _elemCount b.

Definition search (key : KeyT) (b : t) : bool :=
  match scan key (_root b) with
  | Some _ => true
  | None => false
  end.

(** The loop of [safeRemove]. Its condition assigns to [root] the address
    of the [next] field of the node [root] points at; an address of a
    field is never null, so the loop is left only through the
    [return true] of a match, and at the end of the chain the node
    pointer under [root] is null and its key is read through it. *)
Fixpoint unlink (key : KeyT) (chain : list node) : option (list node) :=
  match chain with
  | [] => None
  | n :: rest =>
      if _comp (_key n) key then Some rest
      else cons n <$> unlink key rest
  end.

Definition safeRemove (key : KeyT) (b : t) : option (bool * t) :=
  chain ← unlink key (_root b);
  Some (true, {| _elemCount := size_t.decr (_elemCount b); _root := chain |}).

Definition safeGet (key : KeyT) (b : t) : ItemT * t :=
  match scan key (_root b) with
  | Some n => (_item n, b)
  | None =>
      (ItemT_default,
       {| _elemCount := size_t.incr (_elemCount b);
          _root := Node ItemT_default key :: _root b |})
  end.

Definition get (key : KeyT) (b : t) : ItemT * t := safeGet key b.

Definition remove (key : KeyT) (b : t) : option t :=
  snd <$> safeRemove key b.

(** [_detachFirst]: [n->next] is read through [n = _root->next], which is
    null on an empty chain. The count is left alone. *)
Definition _detachFirst (b : t) : option (node * t) :=
  match _root b with
  | [] => None
  | n :: rest => Some (n, {| _elemCount := _elemCount b; _root := rest |})
  end.

Definition _attachFirst (n : node) (b : t) : t :=
  {| _elemCount := size_t.incr (_elemCount b); _root := n :: _root b |}.

(** The inner loop [for (i = 0; i < oBucket.size(); ++i)] of
    [reorganizeBuckets]; [todo] is the number of iterations left
    ([_detachFirst] does not change [oBucket.size()]). *)
Fixpoint transfer (nFunc : KeyT -> N) (todo : nat) (oBucket : t)
    (acc : list t * N) : option (list t * N) :=
  match todo with
  | O => Some acc
  | S todo' =>
      '(n, oBucket') ← _detachFirst oBucket;
      let hash := N.to_nat (nFunc (_key n)) in
      target ← acc.1 !! hash;
      let target' := _attachFirst n target in
      transfer nFunc todo' oBucket'
        (<[hash := target']> acc.1,
         size_t.add acc.2 (size_t.of_bool (size target' =? 1)))
  end.

(** The outer loop [for (auto& oBucket : oldBuckets)]. *)
Fixpoint transferAll (nFunc : KeyT -> N) (oldBuckets : list t)
    (acc : list t * N) : option (list t * N) :=
  match oldBuckets with
  | [] => Some acc
  | oBucket :: rest =>
      acc' ← transfer nFunc (N.to_nat (size oBucket)) oBucket acc;
      transferAll nFunc rest acc'
  end.

Definition reorganizeBuckets (oldBuckets : list t) (nSize : N)
    (nFunc : KeyT -> N) : option (list t * N) :=
  transferAll nFunc oldBuckets (replicate (N.to_nat nSize) new, 0).

#[export] Instance bucket : Bucket.T KeyT ItemT t := {|
  Bucket.new := new;
  Bucket.insert key item b := Some (insert key item b);
  Bucket.size := size;
  Bucket.search key b := Some (search key b);
  Bucket.remove := remove;
  Bucket.safeRemove := safeRemove;
  Bucket.get key b := Some (get key b);
  Bucket.safeGet key b := Some (safeGet key b);
  Bucket.reorganizeBuckets := reorganizeBuckets
|}.

End defs.
Global Arguments node : clear implicits.
Global Arguments t : clear implicits.
End LinkedListBucketT.

(** ** The inner table of [PlainHashBucketT]

  [_baseExpandiblePlainMapT] lives in [plainHashMap.h]; the bucket class
  uses it only through the member functions below, which are taken as
  an interface. [searchAndSave] reports a slot and saves it for
  [getLastSearchedKey] and [getLastSearched]; the three are one function
  here, giving the key and the item of the saved slot when the search
  reports one. *)

Module PlainMap.
Section contract.
Context {KeyT ItemT : Type}.

Class T (MapT : Type) := {
  (** the constructor [_map(size)] *)
  make : N -> MapT;
  searchAndSave : KeyT -> MapT -> option (KeyT * ItemT);
  insert : KeyT -> ItemT -> MapT -> bool * MapT;
  remove : KeyT -> MapT -> option MapT;
  (** [operator[]] *)
  index : KeyT -> MapT -> option (ItemT * MapT);
  resize : N -> Z -> MapT -> MapT;
  getSize : MapT -> N;
  (** the arrays [oKeys], [oItems], [occup] *)
  getUnderlyingArrays : MapT -> list KeyT * list ItemT * list bool
}.

(** A slot of the three arrays: key, item and occupancy flag. *)
Definition live (slot : KeyT * ItemT * bool) : option (KeyT * ItemT) :=
  if slot.2 then Some slot.1 else None.

(** What the bucket class needs from the table: it stores a finite map
    [entries] in [getSize] slots, a raw insert finds a slot whenever one
    is free and changes nothing when it fails, and a resize keeps the
    entries. *)
Class Laws (MapT : Type) `{!T MapT} := {
  wf : MapT -> Prop;
  entries : MapT -> list (KeyT * ItemT);
  wf_make n : wf (make n);
  entries_make n : entries (make n) = [];
  getSize_make n : getSize (make n) = n;
  wf_NoDup m : wf m -> NoDup (entries m).*1;
  search_present m k v :
    wf m -> (k, v) ∈ entries m -> searchAndSave k m = Some (k, v);
  search_sound m k k' v' :
    wf m -> searchAndSave k m = Some (k', v') -> (k', v') ∈ entries m;
  insert_true m k v m' :
    wf m -> k ∉ (entries m).*1 -> insert k v m = (true, m') ->
    wf m' /\ entries m' ≡ₚ (k, v) :: entries m /\ getSize m' = getSize m;
  insert_room m k v :
    wf m -> k ∉ (entries m).*1 ->
    N.of_nat (length (entries m)) < getSize m ->
    (insert k v m).1 = true;
  resize_spec m n tries :
    wf m -> N.of_nat (length (entries m)) <= n ->
    wf (resize n tries m) /\ entries (resize n tries m) ≡ₚ entries m /\
    getSize (resize n tries m) = n;
  index_present m k v :
    wf m -> (k, v) ∈ entries m -> index k m = Some (v, m);
  arrays_spec m :
    wf m ->
    exists slots : list (KeyT * ItemT * bool),
      getUnderlyingArrays m = (slots.*1.*1, slots.*1.*2, slots.*2) /\
      omap live slots ≡ₚ entries m;
  capacity m : wf m -> N.of_nat (length (entries m)) <= getSize m;
  insert_false m k v m' :
    wf m -> insert k v m = (false, m') ->
    wf m' /\ entries m' ≡ₚ entries m /\ getSize m' = getSize m
}.
End contract.
Global Arguments T : clear implicits.
Global Arguments Laws {KeyT ItemT} MapT {_}.
End PlainMap.

(** What [PlainHashBucketT::remove] needs beside that: the table's
    [remove] of a stored key takes out the entry of that key and no
    other. *)

Module PlainMapRemoval.
Section contract.
Context {KeyT ItemT : Type}.

Class Laws (MapT : Type) `{!PlainMap.T KeyT ItemT MapT}
    `{!PlainMap.Laws MapT} := {
  remove_present m k v :
    PlainMap.wf m -> (k, v) ∈ PlainMap.entries m ->
    exists m',
      PlainMap.remove k m = Some m' /\ PlainMap.wf m' /\
      PlainMap.entries m ≡ₚ (k, v) :: PlainMap.entries m' /\
      PlainMap.getSize m' = PlainMap.getSize m
}.
End contract.
Global Arguments Laws {KeyT ItemT} MapT {_ _}.
End PlainMapRemoval.

(** ** [PlainHashBucketT]: an open-addressed table as a bucket

  The retry loop of [_insert] has no bound in the header; [fuel] bounds
  the number of raw insert attempts of the embedding, and [None] from
  [retry] means that all of them failed. *)

Module PlainHashBucketT.
Section defs.
Context {KeyT ItemT : Type}.
Variable _comp : KeyT -> KeyT -> bool.
Variable ItemT_default : ItemT.
Context {MapT : Type} `{!PlainMap.T KeyT ItemT MapT}.

Definition DefaultBucketSize : N := 4.
Definition DefaultResizeCoef : N := 2.
Definition StartResizeTrehsold : N := 2.

Record t := Build { _elemCount : N; _nextResize : N; _map : MapT }.

Definition new : t :=
  {| _elemCount := 0;
     _nextResize := StartResizeTrehsold;
     _map := PlainMap.make DefaultBucketSize |}.

Definition size (b : t) : N := _elemCount b.

(** [_map.searchAndSave(key) && _comp(_map.getLastSearchedKey(), key)] *)
Definition search (key : KeyT) (b : t) : bool :=
  match PlainMap.searchAndSave key (_map b) with
  | Some (k, _) => _comp k key
  | None => false
  end.

(** [while (!_map.insert(key, item)) _map.resize(_map.getSize(), 1);] *)
Fixpoint retry (fuel : nat) (key : KeyT) (item : ItemT) (m : MapT)
    : option MapT :=
  match fuel with
  | O => None
  | S fuel' =>
      let '(added, m') := PlainMap.insert key item m in
      if added then Some m'
      else retry fuel' key item (PlainMap.resize (PlainMap.getSize m') 1 m')
  end.

(** The table after one failed attempt and the regrowth that follows it,
    and the outcome of the attempt made after [n] regrowths. *)
Definition regrow (key : KeyT) (item : ItemT) (m : MapT) : MapT :=
  let m' := (PlainMap.insert key item m).2 in
  PlainMap.resize (PlainMap.getSize m') 1 m'.

Definition attempt (key : KeyT) (item : ItemT) (m : MapT) (n : nat)
    : bool * MapT :=
  PlainMap.insert key item (Nat.iter n (regrow key item) m).

Definition _insert (fuel : nat) (key : KeyT) (item : ItemT) (b : t)
    : option t :=
  let elemCount := size_t.incr (_elemCount b) in
  let '(nextResize, m) :=
    if elemCount =? _nextResize b
    then (size_t.incr (_nextResize b),
          PlainMap.resize
            (size_t.mul (PlainMap.getSize (_map b)) DefaultResizeCoef)
            INT_MAX (_map b))
    else (_nextResize b, _map b) in
  m' ← retry fuel key item m;
  Some {| _elemCount := elemCount; _nextResize := nextResize; _map := m' |}.

Definition insert (fuel : nat) (key : KeyT) (item : ItemT) (b : t)
    : option (bool * t) :=
  if search key b then Some (false, b)
  else b' ← _insert fuel key item b; Some (true, b').

Definition remove (key : KeyT) (b : t) : option t :=
  m ← PlainMap.remove key (_map b);
  Some {| _elemCount := size_t.decr (_elemCount b);
          _nextResize := _nextResize b; _map := m |}.

Definition safeRemove (key : KeyT) (b : t) : option (bool * t) :=
  if negb (search key b) then Some (false, b)
  else b' ← remove key b; Some (true, b').

Definition get (key : KeyT) (b : t) : option (ItemT * t) :=
  '(item, m) ← PlainMap.index key (_map b);
  Some (item, {| _elemCount := _elemCount b;
                 _nextResize := _nextResize b; _map := m |}).

Definition safeGet (key : KeyT) (b : t) : option (ItemT * t) :=
  match PlainMap.searchAndSave key (_map b) with
  | Some (_, item) => Some (item, b)
  | None =>
      let '(_, m) := PlainMap.insert key ItemT_default (_map b) in
      get key {| _elemCount := _elemCount b;
                 _nextResize := _nextResize b; _map := m |}
  end.

(** One step [if (occup[i] == true) { ... }] of the inner loop of
    [reorganizeBuckets], at an index [i] below [occup.size()]. *)
Definition place (fuel : nat) (nFunc : KeyT -> N)
    (oKeys : list KeyT) (oItems : list ItemT) (occup : list bool)
    (i : nat) (acc : list t * N) : option (list t * N) :=
  o ← occup !! i;
  if o : bool then
    key ← oKeys !! i;
    item ← oItems !! i;
    let hash := N.to_nat (nFunc key) in
    target ← acc.1 !! hash;
    '(_, target') ← insert fuel key item target;
    Some (<[hash := target']> acc.1,
          size_t.add acc.2 (size_t.of_bool (size target' =? 1)))
  else Some acc.

(** [for (size_t i = 0; i < occup.size(); ++i)] *)
Definition placeAll (fuel : nat) (nFunc : KeyT -> N) (oBucket : t)
    (acc : list t * N) : option (list t * N) :=
  let '(oKeys, oItems, occup) := PlainMap.getUnderlyingArrays (_map oBucket) in
  foldl (fun r i => acc' ← r; place fuel nFunc oKeys oItems occup i acc')
        (Some acc) (seq 0 (length occup)).

Definition reorganizeBuckets (fuel : nat) (oldBuckets : list t) (nSize : N)
    (nFunc : KeyT -> N) : option (list t * N) :=
  foldl (fun r oBucket => acc ← r; placeAll fuel nFunc oBucket acc)
        (Some (replicate (N.to_nat nSize) new, 0)) oldBuckets.

Definition bucket (fuel : nat) : Bucket.T KeyT ItemT t := {|
  Bucket.new := new;
  Bucket.insert := insert fuel;
  Bucket.size := size;
  Bucket.search key b := Some (search key b);
  Bucket.remove := remove;
  Bucket.safeRemove := safeRemove;
  Bucket.get := get;
  Bucket.safeGet := safeGet;
  Bucket.reorganizeBuckets := reorganizeBuckets fuel
|}.

End defs.
Global Arguments t : clear implicits.
End PlainHashBucketT.

(** ** A table for [PlainHashBucketT] *)

(** Modelled from the spec: [_baseExpandiblePlainMapT] of [plainHashMap.h]
  is not part of the sources at hand. The design document describes it as
  an open-addressed table, an array of entries with occupancy flags
  whose hash function is a pure function of the key and the table size,
  where a raw insert fails when no free slot is found along the probe
  sequence, a removal clears the slot without a tombstone, a resize
  re-inserts every element under the hash of the new capacity, and
  reading an absent key is undefined. The probe sequence is taken to be
  linear probing from the hashed slot with wrap-around, and, as there are
  no tombstones, a search follows it over the whole table. *)

Module PlainTable.
Section model.
Context {KeyT ItemT : Type} `{!EqDecision KeyT}.
Variable HashFuncT : N -> KeyT -> N.
(** What an unoccupied slot of the key and item arrays holds. *)
Variable KeyT_default : KeyT.
Variable ItemT_default : ItemT.

Record t := Build { _slots : list (KeyT * ItemT * bool) }.

Definition make (size : N) : t :=
  {| _slots := replicate (N.to_nat size) (KeyT_default, ItemT_default, false) |}.

Definition getSize (m : t) : N := N.of_nat (length (_slots m)).

(** The slots in the order they are probed for [key]. *)
Definition probe (m : t) (key : KeyT) : list nat :=
  let cap := length (_slots m) in
  let h := (N.to_nat (HashFuncT (N.of_nat cap) key) `mod` cap)%nat in
  seq h (cap - h) ++ seq 0 h.

Definition holds (key : KeyT) (slot : KeyT * ItemT * bool) : bool :=
  slot.2 && bool_decide (slot.1.1 = key).

Definition vacant (slot : KeyT * ItemT * bool) : bool := negb slot.2.

(** The first probed slot that satisfies [P]. *)
Fixpoint first_along (P : KeyT * ItemT * bool -> bool)
    (slots : list (KeyT * ItemT * bool)) (idxs : list nat) : option nat :=
  match idxs with
  | [] => None
  | i :: rest =>
      match slots !! i with
      | Some slot => if P slot then Some i else first_along P slots rest
      | None => first_along P slots rest
      end
  end.

Definition searchAndSave (key : KeyT) (m : t) : option (KeyT * ItemT) :=
  i ← first_along (holds key) (_slots m) (probe m key);
  slot ← _slots m !! i;
  Some slot.1.

Definition insert (key : KeyT) (item : ItemT) (m : t) : bool * t :=
  match first_along vacant (_slots m) (probe m key) with
  | Some i => (true, {| _slots := <[i := (key, item, true)]> (_slots m) |})
  | None => (false, m)
  end.

Definition remove (key : KeyT) (m : t) : option t :=
  i ← first_along (holds key) (_slots m) (probe m key);
  slot ← _slots m !! i;
  Some {| _slots := <[i := (slot.1, false)]> (_slots m) |}.

Definition index (key : KeyT) (m : t) : option (ItemT * t) :=
  i ← first_along (holds key) (_slots m) (probe m key);
  slot ← _slots m !! i;
  Some (slot.1.2, m).

Definition entries (m : t) : list (KeyT * ItemT) :=
  omap PlainMap.live (_slots m).

Definition resize (size : N) (tries : Z) (m : t) : t :=
  foldl (fun acc e => (insert e.1 e.2 acc).2) (make size) (entries m).

Definition getUnderlyingArrays (m : t)
    : list KeyT * list ItemT * list bool :=
  ((_slots m).*1.*1, (_slots m).*1.*2, (_slots m).*2).

#[export] Instance table : PlainMap.T KeyT ItemT t := {|
  PlainMap.make := make;
  PlainMap.searchAndSave := searchAndSave;
  PlainMap.insert := insert;
  PlainMap.remove := remove;
  PlainMap.index := index;
  PlainMap.resize := resize;
  PlainMap.getSize := getSize;
  PlainMap.getUnderlyingArrays := getUnderlyingArrays
|}.

End model.
Global Arguments t : clear implicits.
End PlainTable.

(** ** [_chainHashingMapT]

  [HashFuncT size] is the hash function object constructed for a table of
  [size] buckets ([BaseHashFunction] of [plainHashMap.h], taken as a
  parameter). The body of [get] is written [_buckets.get(key)] in the
  header; a vector has no such member, and the call is read as the
  hash-then-delegate [_buckets[_hFunc(key)].get(key)] of its siblings
  [search] and [operator[]]. As written [get] has no instantiation: the
  reading serves to state what a call cannot give and as a premise, and
  a stored item is read through [operator[]]. *)

Module _chainHashingMapT.
Section defs.
Context {KeyT ItemT : Type}.
Variable HashFuncT : N -> KeyT -> N.
Context {BucketT : Type} `{!Bucket.T KeyT ItemT BucketT}.

Definition DefaultRehashPolicy : float.t := float.one.
Definition InitMapSize : N := 8.

Record t := Build {
  _hFunc : KeyT -> N;
  _rehashPolicy : float.t;
  _nextRehash : N;
  _elemCount : N;
  _bucketCount : N;
  _buckets : list BucketT
}.

Definition set_buckets (bs : list BucketT) (m : t) : t :=
  Build (_hFunc m) (_rehashPolicy m) (_nextRehash m) (_elemCount m)
        (_bucketCount m) bs.
Definition set_bucketCount (c : N) (m : t) : t :=
  Build (_hFunc m) (_rehashPolicy m) (_nextRehash m) (_elemCount m)
        c (_buckets m).
Definition set_elemCount (c : N) (m : t) : t :=
  Build (_hFunc m) (_rehashPolicy m) (_nextRehash m) c
        (_bucketCount m) (_buckets m).
Definition set_nextRehash (c : N) (m : t) : t :=
  Build (_hFunc m) (_rehashPolicy m) c (_elemCount m)
        (_bucketCount m) (_buckets m).
Definition set_hFunc (h : KeyT -> N) (m : t) : t :=
  Build h (_rehashPolicy m) (_nextRehash m) (_elemCount m)
        (_bucketCount m) (_buckets m).
(** Assignment through the reference of [accessRehashPolicy]. *)
Definition set_rehashPolicy (p : float.t) (m : t) : t :=
  Build (_hFunc m) p (_nextRehash m) (_elemCount m)
        (_bucketCount m) (_buckets m).

(** [static_cast<size_t>(size * _rehashPolicy)] *)
Definition barrier (size : N) (policy : float.t) : option N :=
  float.to_size_t (float.mul (float.of_size_t size) policy).

(** [explicit _chainHashingMapT(const size_t size)] *)
Definition make (size : N) : option t :=
  nextRehash ← barrier size DefaultRehashPolicy;
  Some {| _hFunc := HashFuncT size;
          _rehashPolicy := DefaultRehashPolicy;
          _nextRehash := nextRehash;
          _elemCount := 0;
          _bucketCount := 0;
          _buckets := replicate (N.to_nat size) Bucket.new |}.

(** [_buckets.size()] *)
Definition getMaxBucketSize (m : t) : N := N.of_nat (length (_buckets m)).
Definition getBucketCount (m : t) : N := _bucketCount m.
Definition size (m : t) : N := _elemCount m.

Definition load_factor (m : t) : float.t :=
  float.div (float.of_size_t (_elemCount m)) (float.of_size_t (_bucketCount m)).

Definition _rehash (size : N) (m : t) : option t :=
  let m1 := set_hFunc (HashFuncT size) m in
  '(buckets, activeBuckets) ←
    Bucket.reorganizeBuckets (_buckets m1) size (_hFunc m1);
  Some (set_bucketCount activeBuckets (set_buckets buckets m1)).

Definition _resize (m : t) : option t :=
  let nSize := size_t.mul (getMaxBucketSize m) 2 in
  nextRehash ← barrier nSize (_rehashPolicy m);
  _rehash nSize (set_nextRehash nextRehash m).

Definition insert (key : KeyT) (item : ItemT) (m : t) : option (bool * t) :=
  let hash := N.to_nat (_hFunc m key) in
  b ← _buckets m !! hash;
  '(added, b') ← Bucket.insert key item b;
  let m1 := set_buckets (<[hash := b']> (_buckets m)) m in
  if negb added then Some (false, m1)
  else
    let m2 :=
      set_bucketCount
        (size_t.add (_bucketCount m1)
           (size_t.of_bool (Bucket.size b' =? 1))) m1 in
    let m3 := set_elemCount (size_t.incr (_elemCount m2)) m2 in
    if _nextRehash m3 <? _elemCount m3
    then m4 ← _resize m3; Some (true, m4)
    else Some (true, m3).

Definition search (key : KeyT) (m : t) : option bool :=
  b ← _buckets m !! N.to_nat (_hFunc m key);
  Bucket.search key b.

Definition remove (key : KeyT) (m : t) : option t :=
  let hash := N.to_nat (_hFunc m key) in
  b ← _buckets m !! hash;
  b' ← Bucket.remove key b;
  let m1 := set_buckets (<[hash := b']> (_buckets m)) m in
  Some (set_bucketCount
          (size_t.sub (_bucketCount m1)
             (size_t.of_bool (Bucket.size b' =? 0))) m1).

Definition safeRemove (key : KeyT) (m : t) : option (bool * t) :=
  let hash := N.to_nat (_hFunc m key) in
  b ← _buckets m !! hash;
  '(result, b') ← Bucket.safeRemove key b;
  let m1 := set_buckets (<[hash := b']> (_buckets m)) m in
  Some (result,
        set_bucketCount
          (size_t.sub (_bucketCount m1)
             (size_t.of_bool (Bucket.size b' =? 0))) m1).

(** The loop of [rehash]; [left] counts the tries that remain below
    [maxTries]. When none remains, [tries++ < maxTries] is false and the
    loop ends; the increment it still performs overflows [int] when
    [maxTries] is [INT_MAX]. *)
Fixpoint rehash_loop (desiredBucketRatio : float.t) (maxTries : Z)
    (left : nat) (m : t) : option t :=
  if float.gtb (load_factor m) desiredBucketRatio then
    match left with
    | O => if Z.eqb maxTries INT_MAX then None else Some m
    | S left' =>
        m' ← _rehash (getMaxBucketSize m) m;
        rehash_loop desiredBucketRatio maxTries left' m'
    end
  else Some m.

Definition rehash (desiredBucketRatio : float.t) (maxTries : Z) (m : t)
    : option (bool * t) :=
  m' ← rehash_loop desiredBucketRatio maxTries (Z.to_nat maxTries) m;
  Some (float.ltb (load_factor m') desiredBucketRatio, m').

Definition get (key : KeyT) (m : t) : option (ItemT * t) :=
  let hash := N.to_nat (_hFunc m key) in
  b ← _buckets m !! hash;
  '(item, b') ← Bucket.get key b;
  Some (item, set_buckets (<[hash := b']> (_buckets m)) m).

(** [operator[]] *)
Definition index (key : KeyT) (m : t) : option (ItemT * t) :=
  let hash := N.to_nat (_hFunc m key) in
  b ← _buckets m !! hash;
  '(item, b') ← Bucket.safeGet key b;
  Some (item, set_buckets (<[hash := b']> (_buckets m)) m).

(** [_chainHashingMapT()]: the default constructor delegates to the sized
    one with [InitMapSize]. *)
Definition make_default : option t := make InitMapSize.

(** [insert(std::pair<KeyT, ItemT>)] *)
Definition insert_pair (pair : KeyT * ItemT) (m : t) : option (bool * t) :=
  let '(key, item) := pair in insert key item m.

(** [accessRehashPolicy()], read through the returned reference; a write
    through it is [set_rehashPolicy]. *)
Definition accessRehashPolicy (m : t) : float.t := _rehashPolicy m.

End defs.
Global Arguments t : clear implicits.
End _chainHashingMapT.

(** * Properties *)

(** ** Arithmetic of [size_t] below the wrap-around *)

Module size_t_facts.
Import size_t.

Lemma modulus_eq : modulus = 18446744073709551616.
Proof. reflexivity. Qed.

Lemma SIZE_MAX_eq : SIZE_MAX = 18446744073709551615.
Proof. reflexivity. Qed.

Lemma wrap_small n : n <= SIZE_MAX -> wrap n = n.
Proof.
  intros Hn. unfold wrap. apply N.mod_small.
  rewrite SIZE_MAX_eq in Hn. rewrite modulus_eq. lia.
Qed.

Lemma incr_small n : n < SIZE_MAX -> incr n = n + 1.
Proof.
  intros Hn. unfold incr, add. apply wrap_small. lia.
Qed.

Lemma add_small a b : a + b <= SIZE_MAX -> add a b = a + b.
Proof. intros H. unfold add. now apply wrap_small. Qed.

Lemma mul_small a b : a * b <= SIZE_MAX -> mul a b = a * b.
Proof. intros H. unfold mul. now apply wrap_small. Qed.

Lemma decr_zero : decr 0 = SIZE_MAX.
Proof. reflexivity. Qed.

Lemma sub_zero_r a : a <= SIZE_MAX -> sub a 0 = a.
Proof.
  intros Ha. unfold sub.
  replace (wrap 0) with 0 by reflexivity. rewrite N.sub_0_r.
  unfold wrap.
  rewrite <- (N.mul_1_l modulus) at 1.
  rewrite N.Div0.mod_add. apply N.mod_small.
  rewrite SIZE_MAX_eq in Ha. rewrite modulus_eq. lia.
Qed.

Lemma decr_small n : 0 < n -> n <= SIZE_MAX -> decr n = n - 1.
Proof.
  intros Hpos Hn. unfold decr, sub.
  replace (wrap 1) with 1 by reflexivity.
  replace (n + (modulus - 1)) with (n - 1 + 1 * modulus)
    by (rewrite modulus_eq; lia).
  unfold wrap. rewrite N.Div0.mod_add. apply N.mod_small.
  rewrite SIZE_MAX_eq in Hn. rewrite modulus_eq. lia.
Qed.

(** [c += x ? 1 : 0] followed by [c -= x ? 1 : 0] gives [c] back. *)
Lemma sub_add_of_bool c (x : bool) :
  c <= SIZE_MAX -> sub (add c (of_bool x)) (of_bool x) = c.
Proof.
  intros Hc. rewrite SIZE_MAX_eq in Hc. unfold sub, add, wrap.
  rewrite modulus_eq. destruct x; simpl of_bool.
  - change (1 mod 18446744073709551616) with 1.
    destruct (N.eq_dec c 18446744073709551615) as [->|Hne]; [done|].
    rewrite (N.mod_small (c + 1)) by lia.
    replace (c + 1 + (18446744073709551616 - 1))
      with (c + 1 * 18446744073709551616) by lia.
    rewrite N.Div0.mod_add. apply N.mod_small. lia.
  - change (0 mod 18446744073709551616) with 0.
    rewrite N.add_0_r, N.sub_0_r, (N.mod_small c) by lia.
    replace (c + 18446744073709551616)
      with (c + 1 * 18446744073709551616) by lia.
    rewrite N.Div0.mod_add. apply N.mod_small. lia.
Qed.

End size_t_facts.

(** ** Comparison of [float] values *)

Module float_facts.

Lemma SFcompare_Lt_Gt x y : SFcompare x y = Some Lt -> SFcompare y x = Some Gt.
Proof.
  destruct x as [sx|sx| |sx mx ex], y as [sy|sy| |sy my ey]; simpl;
    try discriminate;
    try (destruct sx; discriminate || reflexivity);
    try (destruct sy; discriminate || reflexivity);
    try (destruct sx, sy; discriminate || reflexivity).
  assert (Hm : Pos.compare_cont Eq my mx = CompOpp (Pos.compare_cont Eq mx my))
    by (rewrite Pos.compare_cont_antisym; reflexivity).
  destruct sx, sy; try discriminate; try reflexivity;
    rewrite (Z.compare_antisym ex ey);
    (destruct (ex ?= ey)%Z eqn:E; simpl; try discriminate; try reflexivity);
    rewrite Hm;
    (destruct (Pos.compare_cont Eq mx my); simpl;
     try discriminate; reflexivity).
Qed.

(** A value below another does not exceed it. *)
Lemma ltb_not_gtb x y : float.ltb x y = true -> float.gtb x y = false.
Proof.
  unfold float.ltb, float.gtb, SFltb.
  destruct (SFcompare x y) as [[| |]|] eqn:E; try discriminate.
  intros _. by rewrite (SFcompare_Lt_Gt x y E).
Qed.




End float_facts.

(** ** Counting the active buckets

  Both [reorganizeBuckets] and the map's [insert] keep a count of the
  buckets in use by the idiom [used += bucket.size() == 1 ? 1 : 0] after
  an element has been added to [bucket]. *)

Section active_count.
Context {B : Type}.
Variable size : B -> N.

(** The number of buckets whose size is at least 1. *)
Definition actives (bs : list B) : N :=
  N.of_nat (length (filter (fun b => 1 <= size b) bs)).

Lemma actives_le (bs : list B) : actives bs <= N.of_nat (length bs).
Proof. unfold actives. pose proof (length_filter (fun b => 1 <= size b) bs). lia. Qed.

Lemma actives_replicate n b : size b = 0 -> actives (replicate n b) = 0.
Proof.
  intros Hb. unfold actives. induction n as [|n IH]; [done|].
  simpl replicate. rewrite filter_cons_False by lia. exact IH.
Qed.

(** One step of the idiom, on a bucket that has just gained an element. *)
Lemma used_step (bs : list B) h t t' :
  N.of_nat (length bs) <= size_t.SIZE_MAX ->
  bs !! h = Some t -> size t' = size t + 1 ->
  size_t.add (actives bs) (size_t.of_bool (size t' =? 1))
  = actives (<[h:=t']> bs).
Proof.
  intros Hlen Ht Hsz.
  assert (Hh : (h < length bs)%nat) by (by eapply lookup_lt_Some).
  pose proof (actives_le (<[h:=t']> bs)) as Hle.
  rewrite length_insert in Hle.
  assert (Heq : actives bs + size_t.of_bool (size t' =? 1)
                = actives (<[h:=t']> bs)).
  { unfold actives. rewrite insert_take_drop by done.
    rewrite <- (take_drop_middle bs h t Ht) at 1.
    rewrite !filter_app, !filter_cons, !length_app.
    destruct (decide (1 <= size t')) as [_|Hn]; [|lia].
    destruct (decide (1 <= size t)), (N.eqb_spec (size t') 1);
      simpl; lia. }
  rewrite <- Heq in *. apply size_t_facts.add_small. lia.
Qed.

End active_count.

(** What the counters of the map rely on, beside the bucket contract:
    [size()] is the number of entries, and the second component of
    [reorganizeBuckets] is the number of new buckets in use. *)

Module BucketCounts.
Section contract.
Context {KeyT ItemT : Type}.

Class Laws (BucketT : Type) `{!Bucket.T KeyT ItemT BucketT}
    `{!Bucket.Laws BucketT} := {
  size_entries b :
    Bucket.wf b -> Bucket.size b = N.of_nat (length (Bucket.entries b));
  fits_size_t n : Bucket.fits n -> N.of_nat n <= size_t.SIZE_MAX;
  reorganize_used bs n f nbs used :
    Forall Bucket.wf bs ->
    NoDup (bs ≫= Bucket.entries).*1 ->
    (forall e, e ∈ bs ≫= Bucket.entries -> f e.1 < n) ->
    (forall i : nat,
       Bucket.fits (length (filter (fun e => N.to_nat (f e.1) = i)
                                   (bs ≫= Bucket.entries)))) ->
    n <= size_t.SIZE_MAX ->
    Bucket.reorganizeBuckets bs n f = Some (nbs, used) ->
    used = actives Bucket.size nbs
}.
End contract.
Global Arguments Laws {KeyT ItemT} BucketT {_ _}.
End BucketCounts.

(** ** [LinkedListBucketT] keeps the bucket contract

  Under the comparer [std::equal_to] that the map passes by default. *)

Module LinkedListBucketT_laws.
Import LinkedListBucketT.
Section laws.
Context {KeyT ItemT : Type}.
Variable _comp : KeyT -> KeyT -> bool.
Variable ItemT_default : ItemT.
Hypothesis _comp_equal_to : forall a b, _comp a b = true <-> a = b.

Local Abbreviation bucketT := (LinkedListBucketT.t KeyT ItemT).
Local Abbreviation nodeT := (LinkedListBucketT.node KeyT ItemT).

Definition pair_of (n : nodeT) : KeyT * ItemT := (_key n, _item n).

(** The key-item pairs of the chain, front to back. *)
Definition entries (b : bucketT) : list (KeyT * ItemT) := pair_of <$> _root b.

(** [_elemCount] is the number of nodes behind the sentinel. *)
Definition counted (b : bucketT) : Prop :=
  _elemCount b = N.of_nat (length (_root b)) /\
  N.of_nat (length (_root b)) <= size_t.SIZE_MAX.

Definition wf (b : bucketT) : Prop := counted b /\ NoDup (entries b).*1.

Definition fits (n : nat) : Prop := N.of_nat n <= size_t.SIZE_MAX.

Lemma scan_None key (chain : list nodeT) :
  scan _comp key chain = None <-> key ∉ (pair_of <$> chain).*1.
Proof.
  induction chain as [|n rest IH]; simpl.
  - split; [intros _; apply not_elem_of_nil | done].
  - rewrite not_elem_of_cons. destruct (_comp (_key n) key) eqn:E.
    + apply _comp_equal_to in E. split; [done | intros [? _]; congruence].
    + rewrite IH. split; [|tauto]. intros H; split; [|done].
      intros ->. rewrite (proj2 (_comp_equal_to _ _) eq_refl) in E. done.
Qed.

Lemma scan_Some key (chain : list nodeT) n :
  scan _comp key chain = Some n -> n ∈ chain /\ _key n = key.
Proof.
  induction chain as [|n' rest IH]; simpl; [done|].
  destruct (_comp (_key n') key) eqn:E.
  - intros [= <-]. split; [left | by apply _comp_equal_to].
  - intros H. destruct (IH H). split; [by right | done].
Qed.

Lemma scan_elem (chain : list nodeT) n :
  NoDup (pair_of <$> chain).*1 -> n ∈ chain ->
  scan _comp (_key n) chain = Some n.
Proof.
  induction chain as [|n' rest IH]; simpl.
  - intros _ H. by apply elem_of_nil in H.
  - rewrite NoDup_cons. intros [Hn' Hnd] Hin.
    apply elem_of_cons in Hin as [->|Hin].
    + by rewrite (proj2 (_comp_equal_to _ _) eq_refl).
    + destruct (_comp (_key n') (_key n)) eqn:E; [|by apply IH].
      apply _comp_equal_to in E. exfalso. apply Hn'. simpl in E. rewrite E.
      apply (list_elem_of_fmap_2 fst _ (pair_of n)).
      by apply list_elem_of_fmap_2.
Qed.

Lemma entry_node (b : bucketT) k v :
  (k, v) ∈ entries b -> exists n, n ∈ _root b /\ _key n = k /\ _item n = v.
Proof.
  unfold entries. intros ([kn vn] & [= -> ->] & Hn)%list_elem_of_fmap.
  eauto.
Qed.

Lemma chain_wf_new : wf new.
Proof. repeat split; simpl; [done | constructor]. Qed.

Lemma chain_search_spec (b : bucketT) k :
  search _comp k b = true <-> k ∈ (entries b).*1.
Proof.
  unfold search, entries.
  destruct (scan _comp k (_root b)) as [n|] eqn:E.
  - split; [intros _|done]. apply scan_Some in E as [Hin <-].
    apply (list_elem_of_fmap_2 fst _ (pair_of n)).
    by apply list_elem_of_fmap_2.
  - apply scan_None in E. split; [done | tauto].
Qed.

Lemma chain_insert_new (b : bucketT) k v :
  wf b -> fits (S (length (entries b))) -> k ∉ (entries b).*1 ->
  exists b', insert _comp k v b = (true, b') /\ wf b' /\
             entries b' = (k, v) :: entries b.
Proof.
  intros [[Hc Hb] Hnd] Hfits Hk. unfold insert.
  rewrite (proj2 (scan_None k (_root b)) Hk).
  eexists. split; [done|]. unfold fits, entries in *.
  rewrite length_fmap in Hfits.
  repeat split; simpl.
  - rewrite Hc, size_t_facts.incr_small by lia. lia.
  - lia.
  - apply NoDup_cons. done.
Qed.

Lemma chain_insert_old (b : bucketT) k v :
  k ∈ (entries b).*1 -> insert _comp k v b = (false, b).
Proof.
  intros Hk. unfold insert.
  destruct (scan _comp k (_root b)) eqn:E; [done|].
  by apply scan_None in E.
Qed.

Lemma chain_get_spec (b : bucketT) k v :
  wf b -> (k, v) ∈ entries b -> get _comp ItemT_default k b = (v, b).
Proof.
  intros [_ Hnd] (n & Hin & <- & <-)%entry_node.
  unfold get, safeGet. by rewrite (scan_elem _ _ Hnd Hin).
Qed.

(** *** Removal and auto-vivification *)

Lemma unlink_spec key (chain rest : list nodeT) :
  unlink _comp key chain = Some rest ->
  rest `sublist_of` chain /\ length chain = S (length rest) /\
  (NoDup (pair_of <$> chain).*1 -> key ∉ (pair_of <$> rest).*1).
Proof.
  revert rest. induction chain as [|n chain IH]; intros rest; simpl; [done|].
  destruct (_comp (_key n) key) eqn:E.
  - intros [= <-]. apply _comp_equal_to in E.
    split; [by apply sublist_cons|]. split; [done|].
    intros [Hn _]%NoDup_cons. by rewrite <- E.
  - destruct (unlink _comp key chain) as [rest'|]; [|done]. simpl.
    intros [= <-]. destruct (IH rest' eq_refl) as (Hsub & Hlen & Hk).
    split; [by apply sublist_skip|]. split; [simpl; lia|].
    intros [_ Hnd]%NoDup_cons. simpl. rewrite not_elem_of_cons. split.
    + intros Heq. symmetry in Heq. apply _comp_equal_to in Heq.
      simpl in Heq. congruence.
    + by apply Hk.
Qed.

Lemma chain_safeRemove_spec (b b' : bucketT) key r :
  wf b -> safeRemove _comp key b = Some (r, b') ->
  r = true /\ wf b' /\ entries b' `sublist_of` entries b /\
  key ∉ (entries b').*1.
Proof.
  intros [[Hc Hb] Hnd]. unfold safeRemove.
  destruct (unlink _comp key (_root b)) as [rest|] eqn:E; [|done]. simpl.
  intros [= <- <-]. destruct (unlink_spec _ _ _ E) as (Hsub & Hlen & Hk).
  assert (Hesub : pair_of <$> rest `sublist_of` pair_of <$> _root b)
    by (by apply fmap_sublist).
  split; [done|]. split; [|split; [done | by apply Hk]].
  split; [split; simpl|].
  - rewrite Hc, size_t_facts.decr_small by lia. lia.
  - lia.
  - unfold entries. simpl.
    eapply sublist_NoDup; [exact Hnd | by apply fmap_sublist].
Qed.

Lemma chain_safeGet_new (b : bucketT) key :
  wf b -> fits (S (length (entries b))) -> key ∉ (entries b).*1 ->
  exists b', safeGet _comp ItemT_default key b = (ItemT_default, b') /\
             wf b' /\ entries b' = (key, ItemT_default) :: entries b.
Proof.
  intros [[Hc Hb] Hnd] Hfits Hk. unfold safeGet.
  rewrite (proj2 (scan_None key (_root b)) Hk).
  eexists. split; [done|]. unfold fits, entries in *.
  rewrite length_fmap in Hfits.
  repeat split; simpl.
  - rewrite Hc, size_t_facts.incr_small by lia. lia.
  - lia.
  - apply NoDup_cons. done.
Qed.

Lemma unlink_absent key (chain : list nodeT) :
  key ∉ (pair_of <$> chain).*1 -> unlink _comp key chain = None.
Proof.
  induction chain as [|n chain IH]; simpl; [done|].
  rewrite not_elem_of_cons. intros [Hne Hk].
  destruct (_comp (_key n) key) eqn:E.
  - apply _comp_equal_to in E. by subst key.
  - by rewrite (IH Hk).
Qed.

(** On a key that is not stored the scan of [safeRemove] runs off the
    end of the chain. *)
Lemma chain_safeRemove_absent (b : bucketT) k :
  k ∉ (entries b).*1 -> safeRemove _comp k b = None.
Proof. intros Hk. unfold safeRemove. by rewrite unlink_absent. Qed.

(** *** [reorganizeBuckets] moves every node to the bucket of its hash *)

Definition goes (f : KeyT -> N) (i : nat) (n : nodeT) : Prop :=
  N.to_nat (f (_key n)) = i.

#[local] Instance goes_dec f i n : Decision (goes f i n).
Proof. unfold goes. apply _. Defined.

Lemma transfer_spec f (l : list nodeT) :
  forall (ob : bucketT) (acc : list bucketT * N),
    _root ob = l ->
    (forall n, n ∈ l -> (N.to_nat (f (_key n)) < length acc.1)%nat) ->
    Forall counted acc.1 ->
    (forall i b, acc.1 !! i = Some b ->
       N.of_nat (length (_root b) + length (filter (goes f i) l))
       <= size_t.SIZE_MAX) ->
    exists acc',
      transfer f (length l) ob acc = Some acc' /\
      length acc'.1 = length acc.1 /\
      Forall counted acc'.1 /\
      forall i b, acc.1 !! i = Some b ->
        exists b', acc'.1 !! i = Some b' /\
                   _root b' ≡ₚ filter (goes f i) l ++ _root b.
Proof.
  induction l as [|n rest IH]; intros ob acc Hroot Hrange Hcnt Hbound.
  - exists acc. simpl. repeat split; [done|]. intros i b Hb. by exists b.
  - simpl. unfold _detachFirst. rewrite Hroot. simpl.
    set (h := N.to_nat (f (_key n))).
    assert (Hh : (h < length acc.1)%nat) by (apply Hrange; left).
    destruct (lookup_lt_is_Some_2 _ _ Hh) as [target Htarget].
    rewrite Htarget. simpl.
    set (target' := _attachFirst n target).
    set (acc1 := (<[h:=target']> acc.1,
                  size_t.add acc.2 (size_t.of_bool (size target' =? 1)))).
    assert (Hgo : goes f h n) by done.
    pose proof (Hbound h target Htarget) as Hbt.
    rewrite (filter_cons_True _ _ _ Hgo) in Hbt. simpl in Hbt.
    destruct (IH {| _elemCount := _elemCount ob; _root := rest |} acc1)
      as (acc' & Hrun & Hlen & Hcnt' & Hperm).
    + done.
    + intros n' Hn'. simpl. rewrite length_insert. apply Hrange. by right.
    + simpl. apply Forall_insert; [done|].
      destruct (Forall_lookup_1 _ _ _ _ Hcnt Htarget) as [Hc _].
      split; simpl.
      * rewrite Hc, size_t_facts.incr_small by lia. lia.
      * lia.
    + intros i b. simpl. destruct (decide (h = i)) as [<-|Hne].
      * rewrite list_lookup_insert_eq by done. intros [= <-]. simpl. lia.
      * rewrite list_lookup_insert_ne by done. intros Hb.
        specialize (Hbound i b Hb).
        rewrite filter_cons_False in Hbound; [done|].
        unfold goes. fold h. done.
    + exists acc'. split; [done|]. split.
      { rewrite Hlen. simpl. apply length_insert. }
      split; [done|].
      intros i b Hb. destruct (decide (h = i)) as [<-|Hne].
      * assert (b = target) as -> by congruence.
        destruct (Hperm h target') as (b' & Hb' & Hp).
        { simpl. by apply list_lookup_insert_eq. }
        exists b'. split; [done|]. rewrite Hp.
        rewrite (filter_cons_True _ _ _ Hgo). simpl.
        by rewrite Permutation_middle.
      * destruct (Hperm i b) as (b' & Hb' & Hp).
        { simpl. by rewrite list_lookup_insert_ne. }
        exists b'. split; [done|]. rewrite Hp.
        rewrite filter_cons_False; [done|]. unfold goes. fold h. done.
Qed.

Lemma transferAll_spec f (obs : list bucketT) :
  forall acc : list bucketT * N,
    Forall counted obs ->
    (forall n, n ∈ obs ≫= _root ->
               (N.to_nat (f (_key n)) < length acc.1)%nat) ->
    Forall counted acc.1 ->
    (forall i b, acc.1 !! i = Some b ->
       N.of_nat (length (_root b)
                 + length (filter (goes f i) (obs ≫= _root)))
       <= size_t.SIZE_MAX) ->
    exists acc',
      transferAll f obs acc = Some acc' /\
      length acc'.1 = length acc.1 /\
      Forall counted acc'.1 /\
      forall i b, acc.1 !! i = Some b ->
        exists b', acc'.1 !! i = Some b' /\
                   _root b' ≡ₚ filter (goes f i) (obs ≫= _root) ++ _root b.
Proof.
  induction obs as [|ob rest IH]; intros acc Hobs Hrange Hcnt Hbound.
  - exists acc. simpl. repeat split; [done|]. intros i b Hb. by exists b.
  - apply Forall_cons in Hobs as [[Hob _] Hrest].
    simpl. unfold size. rewrite Hob, Nat2N.id.
    destruct (transfer_spec f (_root ob) ob acc)
      as (acc1 & Hrun1 & Hlen1 & Hcnt1 & Hperm1).
    + done.
    + intros n Hn. apply Hrange. rewrite bind_cons, elem_of_app. by left.
    + done.
    + intros i b Hb. specialize (Hbound i b Hb).
      rewrite bind_cons, filter_app, length_app in Hbound. lia.
    + rewrite Hrun1. simpl.
      assert (Hback : forall i b1, acc1.1 !! i = Some b1 ->
                exists b, acc.1 !! i = Some b /\
                  _root b1 ≡ₚ filter (goes f i) (_root ob) ++ _root b).
      { intros i b1 Hb1.
        assert (Hi : (i < length acc.1)%nat).
        { rewrite <- Hlen1. apply lookup_lt_is_Some_1. by eexists. }
        destruct (lookup_lt_is_Some_2 _ _ Hi) as [b Hb].
        destruct (Hperm1 i b Hb) as (b' & Hb' & Hp).
        exists b. split; [done|]. congruence. }
      destruct (IH acc1) as (acc' & Hrun & Hlen & Hcnt' & Hperm).
      * done.
      * intros n Hn. rewrite Hlen1. apply Hrange.
        rewrite bind_cons, elem_of_app. by right.
      * done.
      * intros i b1 Hb1. destruct (Hback i b1 Hb1) as (b & Hb & Hp).
        specialize (Hbound i b Hb).
        rewrite bind_cons, filter_app, length_app in Hbound.
        rewrite Hp, length_app. lia.
      * exists acc'. split; [done|]. split; [congruence|]. split; [done|].
        intros i b Hb.
        destruct (Hperm1 i b Hb) as (b1 & Hb1 & Hp1).
        destruct (Hperm i b1 Hb1) as (b' & Hb' & Hp).
        exists b'. split; [done|].
        rewrite Hp, Hp1, ?bind_cons, filter_app.
        rewrite (assoc_L (++)).
        apply Permutation_app_tail, Permutation_app_comm.
Qed.

Lemma entries_bind (bs : list bucketT) :
  bs ≫= entries = pair_of <$> (bs ≫= _root).
Proof.
  induction bs as [|b bs IH]; [done|].
  by rewrite !bind_cons, fmap_app, IH.
Qed.

Lemma filter_pair_of f i (l : list nodeT) :
  filter (fun e : KeyT * ItemT => N.to_nat (f e.1) = i) (pair_of <$> l)
  = pair_of <$> filter (goes f i) l.
Proof.
  induction l as [|n l IH]; [done|].
  rewrite fmap_cons, !filter_cons. unfold goes at 1. simpl.
  destruct (decide (N.to_nat (f (_key n)) = i)); by rewrite IH.
Qed.

Lemma chain_reorganize_spec (bs : list bucketT) n f :
  Forall wf bs ->
  NoDup (bs ≫= entries).*1 ->
  (forall e, e ∈ bs ≫= entries -> f e.1 < n) ->
  (forall i : nat,
     fits (length (filter (fun e => N.to_nat (f e.1) = i) (bs ≫= entries)))) ->
  exists nbs used,
    reorganizeBuckets bs n f = Some (nbs, used) /\
    length nbs = N.to_nat n /\ Forall wf nbs /\
    forall i b, nbs !! i = Some b ->
      entries b ≡ₚ filter (fun e => N.to_nat (f e.1) = i) (bs ≫= entries).
Proof.
  intros Hwf Hnd Hrange Hfits. unfold reorganizeBuckets.
  destruct (transferAll_spec f bs (replicate (N.to_nat n) new, 0))
    as ([nbs used] & Hrun & Hlen & Hcnt & Hperm).
  - eapply Forall_impl; [exact Hwf|]. by intros b [Hb _].
  - intros nd Hnd'. simpl. rewrite length_replicate.
    assert (f (_key nd) < n); [|lia].
    apply (Hrange (pair_of nd)). rewrite entries_bind.
    by apply list_elem_of_fmap_2.
  - simpl. apply Forall_replicate. split; simpl; [done|].
    rewrite size_t_facts.SIZE_MAX_eq. lia.
  - intros i b Hb. simpl in Hb. apply lookup_replicate in Hb as [-> _].
    simpl. specialize (Hfits i). unfold fits in Hfits.
    by rewrite entries_bind, filter_pair_of, length_fmap in Hfits.
  - exists nbs, used. split; [done|]. simpl in *.
    rewrite length_replicate in Hlen. split; [done|].
    assert (Hshape : forall i b, nbs !! i = Some b ->
              entries b ≡ₚ filter (fun e => N.to_nat (f e.1) = i)
                                  (bs ≫= entries)).
    { intros i b Hb.
      assert (Hi : (i < N.to_nat n)%nat).
      { rewrite <- Hlen. apply lookup_lt_is_Some_1. by eexists. }
      destruct (Hperm i new) as (b' & Hb' & Hp).
      { by apply lookup_replicate_2. }
      assert (b' = b) as -> by congruence.
      unfold entries at 1. rewrite Hp. simpl. rewrite app_nil_r.
      by rewrite entries_bind, filter_pair_of. }
    split; [|done].
    apply Forall_lookup. intros i b Hb. split.
    + by apply (Forall_lookup_1 _ _ _ _ Hcnt Hb).
    + rewrite (Hshape i b Hb).
      eapply sublist_NoDup; [exact Hnd | apply fmap_sublist, sublist_filter].
Qed.

(** *** The count returned by [reorganizeBuckets] *)

Lemma transfer_used f (l : list nodeT) :
  forall (ob : bucketT) (acc acc' : list bucketT * N),
    _root ob = l ->
    (forall n, n ∈ l -> (N.to_nat (f (_key n)) < length acc.1)%nat) ->
    Forall counted acc.1 ->
    (forall i b, acc.1 !! i = Some b ->
       N.of_nat (length (_root b) + length (filter (goes f i) l))
       <= size_t.SIZE_MAX) ->
    N.of_nat (length acc.1) <= size_t.SIZE_MAX ->
    acc.2 = actives size acc.1 ->
    transfer f (length l) ob acc = Some acc' ->
    acc'.2 = actives size acc'.1.
Proof.
  induction l as [|n rest IH];
    intros ob acc acc' Hroot Hrange Hcnt Hbound Hlen Hused.
  - simpl. by intros [= <-].
  - simpl. unfold _detachFirst. rewrite Hroot. simpl.
    set (h := N.to_nat (f (_key n))).
    assert (Hh : (h < length acc.1)%nat) by (apply Hrange; left).
    destruct (lookup_lt_is_Some_2 _ _ Hh) as [target Htarget].
    rewrite Htarget. simpl.
    set (target' := _attachFirst n target).
    assert (Hgo : goes f h n) by done.
    pose proof (Hbound h target Htarget) as Hbt.
    rewrite (filter_cons_True _ _ _ Hgo) in Hbt. simpl in Hbt.
    destruct (Forall_lookup_1 _ _ _ _ Hcnt Htarget) as [Hc _].
    assert (Hsz : size target' = size target + 1).
    { unfold size, target', _attachFirst. simpl.
      rewrite Hc, size_t_facts.incr_small by lia. done. }
    intros Hrun.
    eapply (IH {| _elemCount := _elemCount ob; _root := rest |});
      [| | | | | |exact Hrun]; simpl.
    + done.
    + intros n' Hn'. rewrite length_insert. apply Hrange. by right.
    + apply Forall_insert; [done|]. split; simpl.
      * rewrite Hc, size_t_facts.incr_small by lia. lia.
      * lia.
    + intros i b. destruct (decide (h = i)) as [<-|Hne].
      * rewrite list_lookup_insert_eq by done. intros [= <-]. simpl. lia.
      * rewrite list_lookup_insert_ne by done. intros Hb.
        specialize (Hbound i b Hb).
        rewrite filter_cons_False in Hbound; [done|].
        unfold goes. fold h. done.
    + by rewrite length_insert.
    + rewrite Hused.
      exact (used_step size acc.1 h target target' Hlen Htarget Hsz).
Qed.

Lemma transferAll_used f (obs : list bucketT) :
  forall acc acc' : list bucketT * N,
    Forall counted obs ->
    (forall n, n ∈ obs ≫= _root ->
               (N.to_nat (f (_key n)) < length acc.1)%nat) ->
    Forall counted acc.1 ->
    (forall i b, acc.1 !! i = Some b ->
       N.of_nat (length (_root b)
                 + length (filter (goes f i) (obs ≫= _root)))
       <= size_t.SIZE_MAX) ->
    N.of_nat (length acc.1) <= size_t.SIZE_MAX ->
    acc.2 = actives size acc.1 ->
    transferAll f obs acc = Some acc' ->
    acc'.2 = actives size acc'.1.
Proof.
  induction obs as [|ob rest IH];
    intros acc acc' Hobs Hrange Hcnt Hbound Hlen Hused.
  - simpl. by intros [= <-].
  - apply Forall_cons in Hobs as [[Hob _] Hrest].
    simpl. change (size ob) with (_elemCount ob). rewrite Hob, Nat2N.id.
    assert (Hrange1 : forall n, n ∈ _root ob ->
               (N.to_nat (f (_key n)) < length acc.1)%nat).
    { intros n Hn. apply Hrange. rewrite bind_cons, elem_of_app. by left. }
    assert (Hbound1 : forall i b, acc.1 !! i = Some b ->
               N.of_nat (length (_root b)
                         + length (filter (goes f i) (_root ob)))
               <= size_t.SIZE_MAX).
    { intros i b Hb. specialize (Hbound i b Hb).
      rewrite bind_cons, filter_app, length_app in Hbound. lia. }
    destruct (transfer_spec f (_root ob) ob acc eq_refl Hrange1 Hcnt Hbound1)
      as (acc1 & Hrun1 & Hlen1 & Hcnt1 & Hperm1).
    pose proof (transfer_used f (_root ob) ob acc acc1 eq_refl Hrange1 Hcnt
                  Hbound1 Hlen Hused Hrun1) as Hused1.
    rewrite Hrun1. simpl. intros Hrun.
    assert (Hback : forall i b1, acc1.1 !! i = Some b1 ->
              exists b, acc.1 !! i = Some b /\
                _root b1 ≡ₚ filter (goes f i) (_root ob) ++ _root b).
    { intros i b1 Hb1.
      assert (Hi : (i < length acc.1)%nat).
      { rewrite <- Hlen1. apply lookup_lt_is_Some_1. by eexists. }
      destruct (lookup_lt_is_Some_2 _ _ Hi) as [b Hb].
      destruct (Hperm1 i b Hb) as (b' & Hb' & Hp).
      exists b. split; [done|]. congruence. }
    eapply (IH acc1 acc'); [| | | | | |exact Hrun].
    + done.
    + intros n Hn. rewrite Hlen1. apply Hrange.
      rewrite bind_cons, elem_of_app. by right.
    + done.
    + intros i b1 Hb1. destruct (Hback i b1 Hb1) as (b & Hb & Hp).
      specialize (Hbound i b Hb).
      rewrite bind_cons, filter_app, length_app in Hbound.
      rewrite Hp, length_app. lia.
    + by rewrite Hlen1.
    + done.
Qed.

Lemma chain_reorganize_used (bs : list bucketT) n f nbs used :
  Forall wf bs ->
  NoDup (bs ≫= entries).*1 ->
  (forall e, e ∈ bs ≫= entries -> f e.1 < n) ->
  (forall i : nat,
     fits (length (filter (fun e => N.to_nat (f e.1) = i) (bs ≫= entries)))) ->
  n <= size_t.SIZE_MAX ->
  reorganizeBuckets bs n f = Some (nbs, used) ->
  used = actives size nbs.
Proof.
  intros Hwf Hnd Hrange Hfits Hn Hrun. unfold reorganizeBuckets in Hrun.
  apply (transferAll_used f bs (replicate (N.to_nat n) new, 0) (nbs, used));
    simpl; try done.
  - eapply Forall_impl; [exact Hwf|]. by intros b [Hb _].
  - intros nd Hnd'. rewrite length_replicate.
    assert (f (_key nd) < n); [|lia].
    apply (Hrange (pair_of nd)). rewrite entries_bind.
    by apply list_elem_of_fmap_2.
  - apply Forall_replicate. split; simpl; [done|].
    rewrite size_t_facts.SIZE_MAX_eq. lia.
  - intros i b Hb. apply lookup_replicate in Hb as [-> _].
    simpl. specialize (Hfits i). unfold fits in Hfits.
    by rewrite entries_bind, filter_pair_of, length_fmap in Hfits.
  - rewrite length_replicate. lia.
  - by rewrite actives_replicate.
Qed.

Lemma chain_size_entries (b : bucketT) :
  wf b -> size b = N.of_nat (length (entries b)).
Proof. intros [[Hc _] _]. unfold size, entries. by rewrite length_fmap. Qed.

Lemma chain_fits_size_t n : fits n -> N.of_nat n <= size_t.SIZE_MAX.
Proof. done. Qed.

(** The chain bucket is a lawful bucket. *)

Lemma chain_fits_le n n' : fits n -> (n' <= n)%nat -> fits n'.
Proof. unfold fits. lia. Qed.

Lemma chain_wf_NoDup (b : bucketT) : wf b -> NoDup (entries b).*1.
Proof. by intros [_ Hnd]. Qed.

Lemma chain_search_law (b : bucketT) k :
  wf b ->
  exists r, Some (search _comp k b) = Some r /\
            (r = true <-> k ∈ (entries b).*1).
Proof.
  intros _. exists (search _comp k b). split; [done | apply chain_search_spec].
Qed.

Lemma chain_insert_new_law (b : bucketT) k v :
  wf b -> fits (S (length (entries b))) -> k ∉ (entries b).*1 ->
  exists b', Some (insert _comp k v b) = Some (true, b') /\ wf b' /\
             entries b' ≡ₚ (k, v) :: entries b.
Proof.
  intros Hwf Hfits Hk.
  destruct (chain_insert_new b k v Hwf Hfits Hk) as (b' & Hi & Hwf' & He).
  exists b'. by rewrite Hi, He.
Qed.

Lemma chain_insert_old_law (b : bucketT) k v :
  wf b -> k ∈ (entries b).*1 -> Some (insert _comp k v b) = Some (false, b).
Proof. intros _ Hk. by rewrite chain_insert_old. Qed.

Lemma chain_get_law (b : bucketT) k v :
  wf b -> (k, v) ∈ entries b ->
  Some (get _comp ItemT_default k b) = Some (v, b).
Proof. intros Hwf Hin. by rewrite (chain_get_spec b k v). Qed.

Definition laws :
  @Bucket.Laws KeyT ItemT bucketT (bucket _comp ItemT_default) :=
  {| Bucket.wf := wf;
     Bucket.entries := entries;
     Bucket.fits := fits;
     Bucket.fits_le := chain_fits_le;
     Bucket.wf_new :=
       (chain_wf_new : wf (@Bucket.new _ _ _ (bucket _comp ItemT_default)));
     Bucket.entries_new := eq_refl;
     Bucket.wf_NoDup := chain_wf_NoDup;
     Bucket.search_spec := chain_search_law;
     Bucket.insert_new := chain_insert_new_law;
     Bucket.insert_old := chain_insert_old_law;
     Bucket.get_spec := chain_get_law;
     Bucket.reorganize_spec := chain_reorganize_spec |}.

Definition counts :
  @BucketCounts.Laws KeyT ItemT bucketT (bucket _comp ItemT_default) laws :=
  @BucketCounts.Build_Laws KeyT ItemT bucketT (bucket _comp ItemT_default)
     laws chain_size_entries chain_fits_size_t chain_reorganize_used.

End laws.
End LinkedListBucketT_laws.

(** ** [PlainHashBucketT] keeps the bucket contract over a lawful table

  The growth of [_insert] doubles the table each time the element count
  reaches [_nextResize], so a bucket of [c] entries has a table of
  [2 ^ _nextResize] slots with [c < _nextResize]; the capacity stays a
  [size_t] up to 62 entries. *)

Module PlainHashBucketT_laws.
Import PlainHashBucketT.
Section laws.
Context {KeyT ItemT : Type}.
Variable _comp : KeyT -> KeyT -> bool.
Variable ItemT_default : ItemT.
Hypothesis _comp_equal_to : forall a b, _comp a b = true <-> a = b.
Context {MapT : Type} `{!PlainMap.T KeyT ItemT MapT}.
Context `{!PlainMap.Laws MapT}.

Local Abbreviation bucketT := (PlainHashBucketT.t MapT).

Definition entries (b : bucketT) : list (KeyT * ItemT) :=
  PlainMap.entries (_map b).

Record wf (b : bucketT) : Prop := {
  wf_map : PlainMap.wf (_map b);
  wf_count : _elemCount b = N.of_nat (length (entries b));
  wf_below : _elemCount b < _nextResize b;
  wf_next : _nextResize b <= 63;
  wf_size : PlainMap.getSize (_map b) = 2 ^ _nextResize b
}.

Definition fits (n : nat) : Prop := (n <= 62)%nat.

Lemma pow2_gt n : n < 2 ^ n.
Proof. apply N.pow_gt_lin_r. lia. Qed.

Lemma pow2_le_63 n : n <= 63 -> 2 ^ n <= 2 ^ 63.
Proof. intros. apply N.pow_le_mono_r; lia. Qed.

Lemma probe_wf_new : wf new.
Proof.
  split; simpl.
  - apply PlainMap.wf_make.
  - unfold entries. simpl. by rewrite PlainMap.entries_make.
  - done.
  - done.
  - by rewrite PlainMap.getSize_make.
Qed.

Lemma probe_search_spec (b : bucketT) k :
  wf b -> search _comp k b = true <-> k ∈ (entries b).*1.
Proof.
  intros Hwf. unfold search, entries.
  destruct (PlainMap.searchAndSave k (_map b)) as [[k' v']|] eqn:E.
  - pose proof (PlainMap.search_sound _ _ _ _ (wf_map b Hwf) E) as Hin.
    rewrite _comp_equal_to. split.
    + intros <-. by apply (list_elem_of_fmap_2 fst _ (k', v')).
    + intros ([k2 v] & -> & Hk)%list_elem_of_fmap. simpl in *.
      rewrite (PlainMap.search_present _ _ _ (wf_map b Hwf) Hk) in E.
      congruence.
  - split; [done|].
    intros ([k2 v] & -> & Hk)%list_elem_of_fmap. simpl in *.
    rewrite (PlainMap.search_present _ _ _ (wf_map b Hwf) Hk) in E.
    done.
Qed.

Lemma probe_search_absent (b : bucketT) k :
  wf b -> k ∉ (entries b).*1 -> search _comp k b = false.
Proof.
  intros Hwf Hk. destruct (search _comp k b) eqn:E; [|done].
  by apply probe_search_spec in E.
Qed.

(** With a free slot the first raw insert attempt succeeds. *)
Lemma retry_room fuel k v (m : MapT) :
  PlainMap.wf m -> k ∉ (PlainMap.entries m).*1 ->
  N.of_nat (length (PlainMap.entries m)) < PlainMap.getSize m ->
  exists m',
    retry (S fuel) k v m = Some m' /\ PlainMap.wf m' /\
    PlainMap.entries m' ≡ₚ (k, v) :: PlainMap.entries m /\
    PlainMap.getSize m' = PlainMap.getSize m.
Proof.
  intros Hwf Hk Hroom. simpl.
  pose proof (PlainMap.insert_room m k v Hwf Hk Hroom) as Hok.
  destruct (PlainMap.insert k v m) as [added m'] eqn:E. simpl in Hok.
  subst added. exists m'. split; [done|].
  by apply (PlainMap.insert_true m k v m').
Qed.

(** On a full table no attempt succeeds, and a regrowth at the same
    logical size leaves it full. *)
Lemma retry_full fuel k v :
  forall m : MapT,
    PlainMap.wf m -> k ∉ (PlainMap.entries m).*1 ->
    N.of_nat (length (PlainMap.entries m)) = PlainMap.getSize m ->
    retry fuel k v m = None.
Proof.
  induction fuel as [|fuel IH]; intros m Hwf Hk Hfull; [done|]. simpl.
  destruct (PlainMap.insert k v m) as [[|] m'] eqn:E.
  - destruct (PlainMap.insert_true m k v m' Hwf Hk E) as (Hwf' & Hent & Hsz).
    pose proof (PlainMap.capacity m' Hwf') as Hcap.
    rewrite Hent, Hsz in Hcap. simpl in Hcap. lia.
  - destruct (PlainMap.insert_false m k v m' Hwf E) as (Hwf' & Hent & Hsz).
    destruct (PlainMap.resize_spec m' (PlainMap.getSize m') 1 Hwf')
      as (Hwf2 & Hent2 & Hsz2).
    { rewrite Hent, Hsz. lia. }
    apply IH; [done | by rewrite Hent2, Hent |].
    rewrite Hent2, Hent, Hsz2, Hsz. done.
Qed.

Lemma probe_insert_new fuel (b : bucketT) k v :
  wf b -> fits (S (length (entries b))) -> k ∉ (entries b).*1 ->
  exists b',
    insert _comp (S fuel) k v b = Some (true, b') /\ wf b' /\
    entries b' ≡ₚ (k, v) :: entries b.
Proof.
  intros Hwf Hfits Hk. unfold fits in Hfits.
  pose proof (wf_count b Hwf) as Hc. pose proof (wf_below b Hwf) as Hlt.
  pose proof (wf_next b Hwf) as Hnx. pose proof (wf_size b Hwf) as Hsz.
  pose proof (pow2_gt (_nextResize b)) as Hpow.
  unfold insert. rewrite (probe_search_absent b k Hwf Hk). unfold _insert.
  assert (Hincr : size_t.incr (_elemCount b) = _elemCount b + 1).
  { apply size_t_facts.incr_small. rewrite size_t_facts.SIZE_MAX_eq. lia. }
  rewrite Hincr.
  destruct (_elemCount b + 1 =? _nextResize b) eqn:Eq.
  - apply N.eqb_eq in Eq.
    assert (Hnx' : size_t.incr (_nextResize b) = _nextResize b + 1).
    { apply size_t_facts.incr_small. rewrite size_t_facts.SIZE_MAX_eq. lia. }
    assert (Hcap : 2 ^ (_nextResize b + 1) <= 2 ^ 63)
      by (apply pow2_le_63; lia).
    assert (Hdouble : size_t.mul (PlainMap.getSize (_map b)) DefaultResizeCoef
                      = 2 ^ (_nextResize b + 1)).
    { unfold DefaultResizeCoef. rewrite Hsz.
      rewrite N.add_1_r, N.pow_succ_r' in Hcap |- *.
      change (2 ^ 63) with 9223372036854775808 in Hcap.
      rewrite size_t_facts.mul_small; [lia|].
      rewrite size_t_facts.SIZE_MAX_eq. lia. }
    rewrite Hdouble, Hnx'.
    destruct (PlainMap.resize_spec (_map b) (2 ^ (_nextResize b + 1)) INT_MAX)
      as (Hwf1 & Hent1 & Hsz1); [apply (wf_map b Hwf)| |].
    { pose proof (pow2_gt (_nextResize b + 1)). unfold entries in Hc. lia. }
    destruct (retry_room fuel k v _ Hwf1) as (m' & Hrun & Hwf' & Hent' & Hsz').
    { by rewrite Hent1. }
    { rewrite Hent1, Hsz1. pose proof (pow2_gt (_nextResize b + 1)).
      unfold entries in Hc. lia. }
    rewrite Hrun. simpl. eexists. split; [done|].
    split; [split; simpl|]; unfold entries; simpl.
    + done.
    + rewrite Hent', Hent1. simpl. unfold entries in Hc. lia.
    + lia.
    + lia.
    + by rewrite Hsz', Hsz1.
    + by rewrite Hent', Hent1.
  - apply N.eqb_neq in Eq.
    destruct (retry_room fuel k v (_map b)) as (m' & Hrun & Hwf' & Hent' & Hsz').
    { apply (wf_map b Hwf). }
    { done. }
    { unfold entries in Hc. lia. }
    rewrite Hrun. simpl. eexists. split; [done|].
    split; [split; simpl|]; unfold entries; simpl.
    + done.
    + rewrite Hent'. simpl. unfold entries in Hc. lia.
    + lia.
    + done.
    + by rewrite Hsz'.
    + done.
Qed.

Lemma probe_insert_old fuel (b : bucketT) k v :
  wf b -> k ∈ (entries b).*1 -> insert _comp fuel k v b = Some (false, b).
Proof.
  intros Hwf Hk. unfold insert.
  by rewrite (proj2 (probe_search_spec b k Hwf) Hk).
Qed.

Lemma probe_get_spec (b : bucketT) k v :
  wf b -> (k, v) ∈ entries b -> get k b = Some (v, b).
Proof.
  intros Hwf Hin. unfold get.
  rewrite (PlainMap.index_present _ k v (wf_map b Hwf) Hin). simpl.
  by destruct b.
Qed.

(** *** [reorganizeBuckets] re-inserts every occupied slot *)

(** The inner loop over the occupied slots, as a loop over the entries
    they hold. *)
Fixpoint placeEntries (fuel : nat) (f : KeyT -> N)
    (es : list (KeyT * ItemT)) (acc : list bucketT * N)
    : option (list bucketT * N) :=
  match es with
  | [] => Some acc
  | (key, item) :: rest =>
      let hash := N.to_nat (f key) in
      target ← acc.1 !! hash;
      '(_, target') ← insert _comp fuel key item target;
      placeEntries fuel f rest
        (<[hash := target']> acc.1,
         size_t.add acc.2 (size_t.of_bool (size target' =? 1)))
  end.

Lemma foldl_None {X Y} (g : Y -> X -> option Y) (l : list X) :
  foldl (fun r x => y ← r; g y x) None l = None.
Proof. induction l as [|x l IH]; [done | apply IH]. Qed.

Lemma place_slots fuel f (slots : list (KeyT * ItemT * bool)) :
  forall (pre : list (KeyT * ItemT * bool)) (acc : list bucketT * N),
    foldl (fun r i =>
             acc' ← r;
             place _comp fuel f (pre ++ slots).*1.*1 (pre ++ slots).*1.*2
                   (pre ++ slots).*2 i acc')
          (Some acc) (seq (length pre) (length slots))
    = placeEntries fuel f (omap PlainMap.live slots) acc.
Proof.
  induction slots as [|[[k v] o] rest IH]; intros pre acc; [done|].
  simpl length. simpl seq. simpl foldl.
  assert (Hat : forall {X} (g : KeyT * ItemT * bool -> X),
             (g <$> (pre ++ (k, v, o) :: rest)) !! length pre
             = Some (g (k, v, o))).
  { intros X g. by rewrite list_lookup_fmap, list_lookup_middle. }
  unfold place at 2.
  rewrite <- !list_fmap_compose, !Hat. simpl.
  specialize (IH (pre ++ [(k, v, o)]) ).
  rewrite <- (assoc_L (++)) in IH. simpl in IH.
  rewrite length_app in IH. simpl in IH. rewrite Nat.add_1_r in IH.
  destruct o; simpl.
  - unfold PlainMap.live at 1. simpl.
    destruct (acc.1 !! N.to_nat (f k)) as [target|]; simpl;
      [|apply foldl_None].
    destruct (insert _comp fuel k v target) as [[added target']|]; simpl;
      [|apply foldl_None].
    rewrite !list_fmap_compose. apply IH.
  - rewrite !list_fmap_compose. apply IH.
Qed.

Lemma placeAll_entries fuel f (ob : bucketT) acc :
  wf ob ->
  exists es, es ≡ₚ entries ob /\
             placeAll _comp fuel f ob acc = placeEntries fuel f es acc.
Proof.
  intros Hwf.
  destruct (PlainMap.arrays_spec (_map ob) (wf_map ob Hwf))
    as (slots & Harr & Hlive).
  exists (omap PlainMap.live slots). split; [done|].
  unfold placeAll. rewrite Harr, length_fmap.
  apply (place_slots fuel f slots []).
Qed.

Definition lands (f : KeyT -> N) (i : nat) (e : KeyT * ItemT) : Prop :=
  N.to_nat (f e.1) = i.

#[local] Instance lands_dec f i e : Decision (lands f i e).
Proof. unfold lands. apply _. Defined.

Lemma placeEntries_spec fuel f (es : list (KeyT * ItemT)) :
  forall acc : list bucketT * N,
    (forall e, e ∈ es -> (N.to_nat (f e.1) < length acc.1)%nat) ->
    Forall wf acc.1 ->
    NoDup es.*1 ->
    (forall i b e, acc.1 !! i = Some b -> e ∈ es -> e.1 ∉ (entries b).*1) ->
    (forall i b, acc.1 !! i = Some b ->
       (length (entries b) + length (filter (lands f i) es) <= 62)%nat) ->
    exists acc',
      placeEntries (S fuel) f es acc = Some acc' /\
      length acc'.1 = length acc.1 /\
      Forall wf acc'.1 /\
      forall i b, acc.1 !! i = Some b ->
        exists b', acc'.1 !! i = Some b' /\
                   entries b' ≡ₚ filter (lands f i) es ++ entries b.
Proof.
  induction es as [|[k v] rest IH];
    intros acc Hrange Hwf Hnd Hfresh Hbound.
  - exists acc. simpl. repeat split; [done|]. intros i b Hb. by exists b.
  - cbn [placeEntries].
    set (h := N.to_nat (f k)).
    assert (Hh : (h < length acc.1)%nat) by (apply (Hrange (k, v)); left).
    destruct (lookup_lt_is_Some_2 _ _ Hh) as [target Htarget].
    rewrite Htarget. simpl.
    assert (Hgo : lands f h (k, v)) by done.
    pose proof (Hbound h target Htarget) as Hbt.
    rewrite (filter_cons_True _ _ _ Hgo) in Hbt. simpl in Hbt.
    apply NoDup_cons in Hnd as [Hk Hnd]. simpl in Hk.
    destruct (probe_insert_new fuel target k v)
      as (target' & Hins & Hwf' & Hent).
    { exact (Forall_lookup_1 _ _ _ _ Hwf Htarget). }
    { unfold fits. lia. }
    { apply (Hfresh h target (k, v) Htarget). left. }
    rewrite Hins. simpl.
    set (acc1 := (<[h:=target']> acc.1,
                  size_t.add acc.2 (size_t.of_bool (size target' =? 1)))).
    destruct (IH acc1) as (acc' & Hrun & Hlen & Hwfs & Hperm).
    + intros e He. simpl. rewrite length_insert. apply Hrange. by right.
    + simpl. by apply Forall_insert.
    + done.
    + intros i b e. simpl. destruct (decide (h = i)) as [<-|Hne].
      * rewrite list_lookup_insert_eq by done. intros [= <-] He.
        rewrite Hent. simpl. rewrite not_elem_of_cons. split.
        -- intros Heq. apply Hk. rewrite <- Heq.
           by apply list_elem_of_fmap_2.
        -- apply (Hfresh h target e Htarget). by right.
      * rewrite list_lookup_insert_ne by done. intros Hb He.
        apply (Hfresh i b e Hb). by right.
    + intros i b. simpl. destruct (decide (h = i)) as [<-|Hne].
      * rewrite list_lookup_insert_eq by done. intros [= <-].
        rewrite Hent. simpl. lia.
      * rewrite list_lookup_insert_ne by done. intros Hb.
        specialize (Hbound i b Hb).
        rewrite filter_cons_False in Hbound; [done|].
        unfold lands. simpl. fold h. done.
    + exists acc'. split; [done|]. split.
      { rewrite Hlen. simpl. apply length_insert. }
      split; [done|].
      intros i b Hb. destruct (decide (h = i)) as [<-|Hne].
      * assert (b = target) as -> by congruence.
        destruct (Hperm h target') as (b' & Hb' & Hp).
        { simpl. by apply list_lookup_insert_eq. }
        exists b'. split; [done|]. rewrite Hp, Hent.
        rewrite (filter_cons_True _ _ _ Hgo). simpl.
        symmetry. apply Permutation_middle.
      * destruct (Hperm i b) as (b' & Hb' & Hp).
        { simpl. by rewrite list_lookup_insert_ne. }
        exists b'. split; [done|]. rewrite Hp.
        rewrite filter_cons_False; [done|].
        unfold lands. simpl. fold h. done.
Qed.

Lemma placeBuckets_spec fuel f (obs : list bucketT) :
  forall acc : list bucketT * N,
    Forall wf obs ->
    (forall e, e ∈ obs ≫= entries ->
               (N.to_nat (f e.1) < length acc.1)%nat) ->
    Forall wf acc.1 ->
    NoDup (obs ≫= entries).*1 ->
    (forall i b e, acc.1 !! i = Some b -> e ∈ obs ≫= entries ->
                   e.1 ∉ (entries b).*1) ->
    (forall i b, acc.1 !! i = Some b ->
       (length (entries b)
        + length (filter (lands f i) (obs ≫= entries)) <= 62)%nat) ->
    exists acc',
      foldl (fun r ob => a ← r; placeAll _comp (S fuel) f ob a)
            (Some acc) obs = Some acc' /\
      length acc'.1 = length acc.1 /\
      Forall wf acc'.1 /\
      forall i b, acc.1 !! i = Some b ->
        exists b', acc'.1 !! i = Some b' /\
                   entries b' ≡ₚ filter (lands f i) (obs ≫= entries)
                                 ++ entries b.
Proof.
  induction obs as [|ob rest IH];
    intros acc Hobs Hrange Hwf Hnd Hfresh Hbound.
  - exists acc. simpl. repeat split; [done|]. intros i b Hb. by exists b.
  - apply Forall_cons in Hobs as [Hob Hrest].
    rewrite bind_cons, fmap_app in Hnd.
    apply NoDup_app in Hnd as (Hnd1 & Hdisj & Hnd2).
    simpl foldl. simpl mbind at 2.
    destruct (placeAll_entries (S fuel) f ob acc Hob) as (es & Hes & ->).
    destruct (placeEntries_spec fuel f es acc)
      as (acc1 & Hrun1 & Hlen1 & Hwf1 & Hperm1).
    + intros e He. apply Hrange. rewrite bind_cons, elem_of_app. left.
      by rewrite <- Hes.
    + done.
    + by rewrite Hes.
    + intros i b e Hb He. apply (Hfresh i b e Hb).
      rewrite bind_cons, elem_of_app. left. by rewrite <- Hes.
    + intros i b Hb. specialize (Hbound i b Hb).
      rewrite bind_cons, filter_app, length_app in Hbound.
      rewrite Hes. lia.
    + rewrite Hrun1.
      assert (Hback : forall i b1, acc1.1 !! i = Some b1 ->
                exists b, acc.1 !! i = Some b /\
                  entries b1 ≡ₚ filter (lands f i) (entries ob) ++ entries b).
      { intros i b1 Hb1.
        assert (Hi : (i < length acc.1)%nat).
        { rewrite <- Hlen1. apply lookup_lt_is_Some_1. by eexists. }
        destruct (lookup_lt_is_Some_2 _ _ Hi) as [b Hb].
        destruct (Hperm1 i b Hb) as (b' & Hb' & Hp).
        exists b. split; [done|]. rewrite <- Hes.
        assert (b' = b1) as <- by congruence. done. }
      destruct (IH acc1) as (acc' & Hrun & Hlen & Hwf' & Hperm).
      * done.
      * intros e He. rewrite Hlen1. apply Hrange.
        rewrite bind_cons, elem_of_app. by right.
      * done.
      * done.
      * intros i b1 e Hb1 He.
        destruct (Hback i b1 Hb1) as (b & Hb & Hp).
        rewrite Hp, fmap_app, not_elem_of_app. split.
        -- intros Hin. apply (Hdisj e.1).
           ++ eapply list_elem_of_fmap in Hin as (e' & -> & He').
              apply list_elem_of_filter in He' as [_ He'].
              by apply list_elem_of_fmap_2.
           ++ by apply list_elem_of_fmap_2.
        -- apply (Hfresh i b e Hb). rewrite bind_cons, elem_of_app.
           by right.
      * intros i b1 Hb1. destruct (Hback i b1 Hb1) as (b & Hb & Hp).
        specialize (Hbound i b Hb).
        rewrite bind_cons, filter_app, length_app in Hbound.
        rewrite Hp, length_app. lia.
      * exists acc'. split; [done|]. split; [congruence|]. split; [done|].
        intros i b Hb.
        destruct (Hperm1 i b Hb) as (b1 & Hb1 & Hp1).
        destruct (Hperm i b1 Hb1) as (b' & Hb' & Hp).
        exists b'. split; [done|].
        rewrite Hp, Hp1, Hes, ?bind_cons, filter_app.
        rewrite (assoc_L (++)).
        apply Permutation_app_tail, Permutation_app_comm.
Qed.

Lemma probe_reorganize_spec fuel (bs : list bucketT) n f :
  Forall wf bs ->
  NoDup (bs ≫= entries).*1 ->
  (forall e, e ∈ bs ≫= entries -> f e.1 < n) ->
  (forall i : nat,
     fits (length (filter (fun e => N.to_nat (f e.1) = i) (bs ≫= entries)))) ->
  exists nbs used,
    reorganizeBuckets _comp (S fuel) bs n f = Some (nbs, used) /\
    length nbs = N.to_nat n /\ Forall wf nbs /\
    forall i b, nbs !! i = Some b ->
      entries b ≡ₚ filter (fun e => N.to_nat (f e.1) = i) (bs ≫= entries).
Proof.
  intros Hwf Hnd Hrange Hfits. unfold reorganizeBuckets.
  destruct (placeBuckets_spec fuel f bs (replicate (N.to_nat n) new, 0))
    as ([nbs used] & Hrun & Hlen & Hwfs & Hperm).
  - done.
  - intros e He. simpl. rewrite length_replicate.
    pose proof (Hrange e He). lia.
  - simpl. apply Forall_replicate, probe_wf_new.
  - done.
  - intros i b e [-> _]%lookup_replicate _.
    unfold entries. simpl. rewrite PlainMap.entries_make.
    apply not_elem_of_nil.
  - intros i b [-> _]%lookup_replicate.
    unfold entries at 1. simpl. rewrite PlainMap.entries_make. simpl.
    apply (Hfits i).
  - exists nbs, used. split; [done|]. simpl in *.
    rewrite length_replicate in Hlen. split; [done|]. split; [done|].
    intros i b Hb.
    assert (Hi : (i < N.to_nat n)%nat).
    { rewrite <- Hlen. apply lookup_lt_is_Some_1. by eexists. }
    destruct (Hperm i new) as (b' & Hb' & Hp).
    { by apply lookup_replicate_2. }
    assert (b' = b) as -> by congruence.
    rewrite Hp. unfold entries at 2. simpl.
    by rewrite PlainMap.entries_make, app_nil_r.
Qed.

(** *** The count returned by [reorganizeBuckets] *)

Lemma placeEntries_used fuel f (es : list (KeyT * ItemT)) :
  forall acc acc' : list bucketT * N,
    (forall e, e ∈ es -> (N.to_nat (f e.1) < length acc.1)%nat) ->
    Forall wf acc.1 ->
    NoDup es.*1 ->
    (forall i b e, acc.1 !! i = Some b -> e ∈ es -> e.1 ∉ (entries b).*1) ->
    (forall i b, acc.1 !! i = Some b ->
       (length (entries b) + length (filter (lands f i) es) <= 62)%nat) ->
    N.of_nat (length acc.1) <= size_t.SIZE_MAX ->
    acc.2 = actives size acc.1 ->
    placeEntries (S fuel) f es acc = Some acc' ->
    acc'.2 = actives size acc'.1.
Proof.
  induction es as [|[k v] rest IH];
    intros acc acc' Hrange Hwf Hnd Hfresh Hbound Hlen Hused.
  - simpl. by intros [= <-].
  - cbn [placeEntries].
    set (h := N.to_nat (f k)).
    assert (Hh : (h < length acc.1)%nat) by (apply (Hrange (k, v)); left).
    destruct (lookup_lt_is_Some_2 _ _ Hh) as [target Htarget].
    rewrite Htarget. simpl.
    assert (Hgo : lands f h (k, v)) by done.
    pose proof (Hbound h target Htarget) as Hbt.
    rewrite (filter_cons_True _ _ _ Hgo) in Hbt. simpl in Hbt.
    apply NoDup_cons in Hnd as [Hk Hnd]. simpl in Hk.
    pose proof (Forall_lookup_1 _ _ _ _ Hwf Htarget) as Hwft.
    destruct (probe_insert_new fuel target k v)
      as (target' & Hins & Hwf' & Hent).
    { exact Hwft. }
    { unfold fits. lia. }
    { apply (Hfresh h target (k, v) Htarget). left. }
    rewrite Hins. simpl.
    assert (Hsz : size target' = size target + 1).
    { unfold size. rewrite (wf_count _ Hwf'), (wf_count _ Hwft), Hent.
      simpl. lia. }
    intros Hrun. eapply IH; [| | | | | | |exact Hrun]; simpl.
    + intros e He. rewrite length_insert. apply Hrange. by right.
    + by apply Forall_insert.
    + done.
    + intros i b e. destruct (decide (h = i)) as [<-|Hne].
      * rewrite list_lookup_insert_eq by done. intros [= <-] He.
        rewrite Hent. simpl. rewrite not_elem_of_cons. split.
        -- intros Heq. apply Hk. rewrite <- Heq.
           by apply list_elem_of_fmap_2.
        -- apply (Hfresh h target e Htarget). by right.
      * rewrite list_lookup_insert_ne by done. intros Hb He.
        apply (Hfresh i b e Hb). by right.
    + intros i b. destruct (decide (h = i)) as [<-|Hne].
      * rewrite list_lookup_insert_eq by done. intros [= <-].
        rewrite Hent. simpl. lia.
      * rewrite list_lookup_insert_ne by done. intros Hb.
        specialize (Hbound i b Hb).
        rewrite filter_cons_False in Hbound; [done|].
        unfold lands. simpl. fold h. done.
    + by rewrite length_insert.
    + rewrite Hused.
      exact (used_step size acc.1 h target target' Hlen Htarget Hsz).
Qed.

Lemma placeBuckets_used fuel f (obs : list bucketT) :
  forall acc acc' : list bucketT * N,
    Forall wf obs ->
    (forall e, e ∈ obs ≫= entries ->
               (N.to_nat (f e.1) < length acc.1)%nat) ->
    Forall wf acc.1 ->
    NoDup (obs ≫= entries).*1 ->
    (forall i b e, acc.1 !! i = Some b -> e ∈ obs ≫= entries ->
                   e.1 ∉ (entries b).*1) ->
    (forall i b, acc.1 !! i = Some b ->
       (length (entries b)
        + length (filter (lands f i) (obs ≫= entries)) <= 62)%nat) ->
    N.of_nat (length acc.1) <= size_t.SIZE_MAX ->
    acc.2 = actives size acc.1 ->
    foldl (fun r ob => a ← r; placeAll _comp (S fuel) f ob a)
          (Some acc) obs = Some acc' ->
    acc'.2 = actives size acc'.1.
Proof.
  induction obs as [|ob rest IH];
    intros acc acc' Hobs Hrange Hwf Hnd Hfresh Hbound Hlen Hused.
  - simpl. by intros [= <-].
  - apply Forall_cons in Hobs as [Hob Hrest].
    rewrite bind_cons, fmap_app in Hnd.
    apply NoDup_app in Hnd as (Hnd1 & Hdisj & Hnd2).
    simpl foldl.
    change (Some acc ≫= placeAll _comp (S fuel) f ob)
      with (placeAll _comp (S fuel) f ob acc).
    destruct (placeAll_entries (S fuel) f ob acc Hob) as (es & Hes & ->).
    assert (Hrange1 : forall e, e ∈ es ->
              (N.to_nat (f e.1) < length acc.1)%nat).
    { intros e He. apply Hrange. rewrite bind_cons, elem_of_app. left.
      by rewrite <- Hes. }
    assert (Hnd1' : NoDup es.*1) by (by rewrite Hes).
    assert (Hfresh1 : forall i b e, acc.1 !! i = Some b -> e ∈ es ->
              e.1 ∉ (entries b).*1).
    { intros i b e Hb He. apply (Hfresh i b e Hb).
      rewrite bind_cons, elem_of_app. left. by rewrite <- Hes. }
    assert (Hbound1 : forall i b, acc.1 !! i = Some b ->
              (length (entries b) + length (filter (lands f i) es)
               <= 62)%nat).
    { intros i b Hb. specialize (Hbound i b Hb).
      rewrite bind_cons, filter_app, length_app in Hbound.
      rewrite Hes. lia. }
    destruct (placeEntries_spec fuel f es acc Hrange1 Hwf Hnd1' Hfresh1
                Hbound1)
      as (acc1 & Hrun1 & Hlen1 & Hwf1 & Hperm1).
    pose proof (placeEntries_used fuel f es acc acc1 Hrange1 Hwf Hnd1'
                  Hfresh1 Hbound1 Hlen Hused Hrun1) as Hused1.
    rewrite Hrun1. intros Hrun.
    assert (Hback : forall i b1, acc1.1 !! i = Some b1 ->
              exists b, acc.1 !! i = Some b /\
                entries b1 ≡ₚ filter (lands f i) (entries ob) ++ entries b).
    { intros i b1 Hb1.
      assert (Hi : (i < length acc.1)%nat).
      { rewrite <- Hlen1. apply lookup_lt_is_Some_1. by eexists. }
      destruct (lookup_lt_is_Some_2 _ _ Hi) as [b Hb].
      destruct (Hperm1 i b Hb) as (b' & Hb' & Hp).
      exists b. split; [done|]. rewrite <- Hes.
      assert (b' = b1) as <- by congruence. done. }
    eapply (IH acc1 acc'); [| | | | | | | |exact Hrun].
    + done.
    + intros e He. rewrite Hlen1. apply Hrange.
      rewrite bind_cons, elem_of_app. by right.
    + done.
    + done.
    + intros i b1 e Hb1 He.
      destruct (Hback i b1 Hb1) as (b & Hb & Hp).
      rewrite Hp, fmap_app, not_elem_of_app. split.
      * intros Hin. apply (Hdisj e.1).
        -- eapply list_elem_of_fmap in Hin as (e' & -> & He').
           apply list_elem_of_filter in He' as [_ He'].
           by apply list_elem_of_fmap_2.
        -- by apply list_elem_of_fmap_2.
      * apply (Hfresh i b e Hb). rewrite bind_cons, elem_of_app.
        by right.
    + intros i b1 Hb1. destruct (Hback i b1 Hb1) as (b & Hb & Hp).
      specialize (Hbound i b Hb).
      rewrite bind_cons, filter_app, length_app in Hbound.
      rewrite Hp, length_app. lia.
    + by rewrite Hlen1.
    + done.
Qed.

Lemma probe_reorganize_used fuel (bs : list bucketT) n f nbs used :
  Forall wf bs ->
  NoDup (bs ≫= entries).*1 ->
  (forall e, e ∈ bs ≫= entries -> f e.1 < n) ->
  (forall i : nat,
     fits (length (filter (fun e => N.to_nat (f e.1) = i) (bs ≫= entries)))) ->
  n <= size_t.SIZE_MAX ->
  reorganizeBuckets _comp (S fuel) bs n f = Some (nbs, used) ->
  used = actives size nbs.
Proof.
  intros Hwf Hnd Hrange Hfits Hn Hrun. unfold reorganizeBuckets in Hrun.
  apply (placeBuckets_used fuel f bs (replicate (N.to_nat n) new, 0)
           (nbs, used)); simpl; try done.
  - intros e He. rewrite length_replicate.
    pose proof (Hrange e He). lia.
  - apply Forall_replicate, probe_wf_new.
  - intros i b e [-> _]%lookup_replicate _.
    unfold entries. simpl. rewrite PlainMap.entries_make.
    apply not_elem_of_nil.
  - intros i b [-> _]%lookup_replicate.
    unfold entries at 1. simpl. rewrite PlainMap.entries_make. simpl.
    apply (Hfits i).
  - rewrite length_replicate. lia.
  - by rewrite actives_replicate.
Qed.

Lemma probe_size_entries (b : bucketT) :
  wf b -> size b = N.of_nat (length (entries b)).
Proof. intros Hwf. apply (wf_count b Hwf). Qed.

Lemma probe_fits_size_t n : fits n -> N.of_nat n <= size_t.SIZE_MAX.
Proof. unfold fits. rewrite size_t_facts.SIZE_MAX_eq. lia. Qed.

(** *** The growth of the table along a run of inserts *)

(** [insert] called on each pair in turn, results discarded. *)
Fixpoint insert_all (fuel : nat) (kvs : list (KeyT * ItemT)) (b : bucketT)
    : option bucketT :=
  match kvs with
  | [] => Some b
  | (key, item) :: rest =>
      '(_, b') ← insert _comp fuel key item b; insert_all fuel rest b'
  end.

(** The threshold [_nextResize] after [n] inserts into a new bucket: it
    starts at 2 and moves up by one at every insert from the second on. *)
Definition threshold_after (n : N) : N := N.max 2 (n + 1).

Lemma probe_insert_next fuel (b b' : bucketT) k v :
  insert _comp fuel k v b = Some (true, b') ->
  _elemCount b' = size_t.incr (_elemCount b) /\
  _nextResize b'
  = if size_t.incr (_elemCount b) =? _nextResize b
    then size_t.incr (_nextResize b) else _nextResize b.
Proof.
  unfold insert. destruct (search _comp k b); [done|]. unfold _insert.
  destruct (size_t.incr (_elemCount b) =? _nextResize b);
    destruct (retry fuel k v _) as [m'|]; simpl; try done;
    by intros [= <-].
Qed.

Lemma insert_all_growth fuel (kvs : list (KeyT * ItemT)) :
  forall b : bucketT,
    wf b -> _nextResize b = threshold_after (_elemCount b) ->
    NoDup kvs.*1 ->
    (forall e, e ∈ kvs -> e.1 ∉ (entries b).*1) ->
    (length (entries b) + length kvs <= 62)%nat ->
    exists b',
      insert_all (S fuel) kvs b = Some b' /\ wf b' /\
      _elemCount b' = _elemCount b + N.of_nat (length kvs) /\
      _nextResize b' = threshold_after (_elemCount b') /\
      entries b' ≡ₚ kvs ++ entries b.
Proof.
  induction kvs as [|[k v] kvs IH]; intros b Hwf Hnext Hnd Hfresh Hlen.
  - exists b. simpl. rewrite N.add_0_r. done.
  - simpl in Hlen. apply NoDup_cons in Hnd as [Hk Hnd]. simpl in Hk.
    pose proof (wf_count b Hwf) as Hc.
    destruct (probe_insert_new fuel b k v Hwf) as (b1 & Hins & Hwf1 & Hent1).
    { unfold fits. lia. }
    { apply (Hfresh (k, v)). left. }
    destruct (probe_insert_next _ _ _ _ _ Hins) as [Hc1 Hn1].
    assert (Hincr : size_t.incr (_elemCount b) = _elemCount b + 1).
    { apply size_t_facts.incr_small. rewrite size_t_facts.SIZE_MAX_eq. lia. }
    rewrite Hincr in Hc1, Hn1.
    assert (Hnext1 : _nextResize b1 = threshold_after (_elemCount b1)).
    { rewrite Hn1, Hc1, Hnext. unfold threshold_after.
      destruct (N.eqb_spec (_elemCount b + 1) (N.max 2 (_elemCount b + 1)))
        as [Heq|Hne].
      - rewrite size_t_facts.incr_small
          by (rewrite size_t_facts.SIZE_MAX_eq; lia). lia.
      - lia. }
    destruct (IH b1 Hwf1 Hnext1 Hnd) as (b' & Hrun & Hwf' & Hc' & Hn' & Hent').
    + intros e He. rewrite Hent1. simpl. rewrite not_elem_of_cons. split.
      * intros Heq. apply Hk. rewrite <- Heq. by apply list_elem_of_fmap_2.
      * apply Hfresh. by right.
    + rewrite Hent1. simpl. lia.
    + exists b'. simpl. rewrite Hins. simpl. split; [done|]. split; [done|].
      split; [lia|]. split; [done|].
      rewrite Hent', Hent1. symmetry. apply Permutation_middle.
Qed.

(** *** [safeRemove] of a key that is not stored *)

Lemma probe_safeRemove_absent (b : bucketT) k :
  wf b -> k ∉ (entries b).*1 -> safeRemove _comp k b = Some (false, b).
Proof.
  intros Hwf Hk. unfold safeRemove.
  by rewrite (probe_search_absent b k Hwf Hk).
Qed.

(** The probe bucket is a lawful bucket as soon as one raw insert
    attempt is allowed. *)

Lemma probe_fits_le n n' : fits n -> (n' <= n)%nat -> fits n'.
Proof. unfold fits. lia. Qed.

Lemma probe_entries_new : entries new = [].
Proof. unfold entries. simpl. apply PlainMap.entries_make. Qed.

Lemma probe_wf_NoDup (b : bucketT) : wf b -> NoDup (entries b).*1.
Proof. intros Hwf. apply PlainMap.wf_NoDup, (wf_map b Hwf). Qed.

Lemma probe_search_law (b : bucketT) k :
  wf b ->
  exists r, Some (search _comp k b) = Some r /\
            (r = true <-> k ∈ (entries b).*1).
Proof.
  intros Hwf. exists (search _comp k b). split; [done|].
  by apply probe_search_spec.
Qed.

Definition laws fuel :
  @Bucket.Laws KeyT ItemT bucketT (bucket _comp ItemT_default (S fuel)) :=
  {| Bucket.wf := wf;
     Bucket.entries := entries;
     Bucket.fits := fits;
     Bucket.fits_le := probe_fits_le;
     Bucket.wf_new :=
       (probe_wf_new : wf (@Bucket.new _ _ _ (bucket _comp ItemT_default (S fuel))));
     Bucket.entries_new := probe_entries_new;
     Bucket.wf_NoDup := probe_wf_NoDup;
     Bucket.search_spec := probe_search_law;
     Bucket.insert_new := probe_insert_new fuel;
     Bucket.insert_old := probe_insert_old (S fuel);
     Bucket.get_spec := probe_get_spec;
     Bucket.reorganize_spec := probe_reorganize_spec fuel |}.

Definition counts fuel :
  @BucketCounts.Laws KeyT ItemT bucketT
     (bucket _comp ItemT_default (S fuel)) (laws fuel) :=
  @BucketCounts.Build_Laws KeyT ItemT bucketT
     (bucket _comp ItemT_default (S fuel)) (laws fuel)
     probe_size_entries probe_fits_size_t (probe_reorganize_used fuel).

(** *** [safeRemove] and [remove] of a stored key *)

Context `{!PlainMapRemoval.Laws MapT}.

Lemma probe_safeRemove_present (b : bucketT) k v :
  wf b -> (k, v) ∈ entries b ->
  exists b',
    safeRemove _comp k b = Some (true, b') /\ remove k b = Some b' /\
    wf b' /\ entries b ≡ₚ (k, v) :: entries b' /\
    size b = size b' + 1.
Proof.
  intros Hwf Hin.
  destruct (PlainMapRemoval.remove_present (_map b) k v (wf_map b Hwf) Hin)
    as (m' & Hrem & Hwf' & Hent & Hsz).
  pose proof (wf_count b Hwf) as Hc. pose proof (wf_below b Hwf) as Hlt.
  pose proof (wf_next b Hwf) as Hnx.
  assert (Hlen : length (entries b) = S (length (PlainMap.entries m'))).
  { unfold entries. by rewrite Hent. }
  assert (Hdecr : size_t.decr (_elemCount b) = _elemCount b - 1).
  { apply size_t_facts.decr_small; rewrite ?size_t_facts.SIZE_MAX_eq; lia. }
  assert (Hrun : remove k b
                 = Some {| _elemCount := size_t.decr (_elemCount b);
                           _nextResize := _nextResize b; _map := m' |}).
  { unfold remove. by rewrite Hrem. }
  eexists. split; [|split; [exact Hrun|]].
  { unfold safeRemove.
    rewrite (proj2 (probe_search_spec b k Hwf)); [by rewrite Hrun|].
    by apply (list_elem_of_fmap_2 fst _ (k, v)). }
  split; [split; simpl|]; unfold entries, size; simpl.
  - done.
  - rewrite Hdecr. lia.
  - rewrite Hdecr. lia.
  - done.
  - by rewrite Hsz, (wf_size b Hwf).
  - split; [done|]. rewrite Hdecr. lia.
Qed.

End laws.
End PlainHashBucketT_laws.

(** ** The modelled table keeps the table contract *)

Module PlainTable_laws.
Import PlainTable.
Section laws.
Context {KeyT ItemT : Type} `{!EqDecision KeyT}.
Variable HashFuncT : N -> KeyT -> N.
Variable KeyT_default : KeyT.
Variable ItemT_default : ItemT.

Local Abbreviation tableT := (PlainTable.t KeyT ItemT).
Local Abbreviation slotT := (KeyT * ItemT * bool)%type.
Local Abbreviation make := (PlainTable.make (KeyT := KeyT) KeyT_default ItemT_default).
Local Abbreviation insert := (PlainTable.insert HashFuncT).
Local Abbreviation resize := (PlainTable.resize HashFuncT KeyT_default ItemT_default).

Definition wf (m : tableT) : Prop := NoDup (entries m).*1.

Lemma NoDup_fst_unique {X Y} (l : list (X * Y)) x y1 y2 :
  NoDup l.*1 -> (x, y1) ∈ l -> (x, y2) ∈ l -> y1 = y2.
Proof.
  induction l as [|[x' y'] l IH]; simpl.
  - by intros _ ?%elem_of_nil.
  - rewrite NoDup_cons, !elem_of_cons.
    intros [Hx Hnd] [[= -> ->]|H1] [[= ?]|H2]; subst; try done.
    + exfalso. apply Hx. by apply (list_elem_of_fmap_2 fst _ (x', y2)).
    + exfalso. apply Hx. by apply (list_elem_of_fmap_2 fst _ (x', y1)).
    + by apply IH.
Qed.

Lemma probe_covers (m : tableT) key i :
  (i < length (_slots m))%nat -> i ∈ probe HashFuncT m key.
Proof.
  intros Hi. unfold probe.
  set (cap := length (_slots m)) in *.
  set (h := (N.to_nat (HashFuncT (N.of_nat cap) key) `mod` cap)%nat).
  assert (h < cap)%nat by (apply Nat.mod_upper_bound; lia).
  rewrite elem_of_app, !elem_of_seq. lia.
Qed.

Lemma first_along_Some P (slots : list slotT) idxs i :
  first_along P slots idxs = Some i ->
  exists slot, slots !! i = Some slot /\ P slot = true.
Proof.
  induction idxs as [|j rest IH]; simpl; [done|].
  destruct (slots !! j) as [slot|] eqn:E; [|done].
  destruct (P slot) eqn:EP; [|done].
  intros [= <-]. eauto.
Qed.

Lemma first_along_is_Some P (slots : list slotT) idxs i slot :
  i ∈ idxs -> slots !! i = Some slot -> P slot = true ->
  is_Some (first_along P slots idxs).
Proof.
  intros Hin Hi HP. induction idxs as [|j rest IH]; simpl.
  - by apply elem_of_nil in Hin.
  - apply elem_of_cons in Hin as [<-|Hin].
    + rewrite Hi, HP. by eexists.
    + destruct (slots !! j) as [s|]; [destruct (P s); [by eexists|]|];
        by apply IH.
Qed.

Lemma entry_slot (m : tableT) k v :
  (k, v) ∈ entries m <-> exists i, _slots m !! i = Some (k, v, true).
Proof.
  unfold entries. rewrite list_elem_of_omap. split.
  - intros ([[k' v'] [|]] & Hin & Hl); [|done].
    injection Hl as -> ->. by apply list_elem_of_lookup in Hin.
  - intros [i Hi]. exists (k, v, true). split; [|done].
    by eapply list_elem_of_lookup_2.
Qed.

(** The slot a search for a stored key stops at. *)
Lemma found (m : tableT) k v :
  wf m -> (k, v) ∈ entries m ->
  exists i, first_along (holds k) (_slots m) (probe HashFuncT m k) = Some i /\
            _slots m !! i = Some (k, v, true).
Proof.
  intros Hwf Hin. pose proof Hin as [i Hi]%entry_slot.
  destruct (first_along_is_Some (holds k) (_slots m)
              (probe HashFuncT m k) i (k, v, true)) as [j Hj].
  - apply probe_covers, lookup_lt_is_Some_1. by eexists.
  - done.
  - unfold holds. simpl. by rewrite bool_decide_eq_true_2.
  - exists j. split; [done|].
    destruct (first_along_Some _ _ _ _ Hj) as ([[k' v'] o] & Hs & Hh).
    unfold holds in Hh. simpl in Hh.
    apply andb_true_iff in Hh as [-> Hk%bool_decide_eq_true_1]. subst k'.
    rewrite Hs. do 3 f_equal.
    apply (NoDup_fst_unique (entries m) k v' v Hwf); [|done].
    apply entry_slot. eauto.
Qed.

Lemma entries_fill (slots : list slotT) i k v k0 v0 :
  slots !! i = Some (k0, v0, false) ->
  omap PlainMap.live (<[i:=(k, v, true)]> slots)
  ≡ₚ (k, v) :: omap PlainMap.live slots.
Proof.
  intros Hi.
  rewrite <- (take_drop_middle slots i _ Hi) at 2.
  rewrite insert_take_drop by (apply lookup_lt_is_Some_1; by eexists).
  rewrite !omap_app. simpl. unfold PlainMap.live at 2 4. simpl.
  symmetry. apply Permutation_middle.
Qed.

Lemma vacancy (slots : list slotT) :
  (length (omap PlainMap.live slots) < length slots)%nat ->
  exists i slot, slots !! i = Some slot /\ vacant slot = true.
Proof.
  induction slots as [|[[k v] o] slots IH]; csimpl; [lia|].
  destruct o.
  - unfold PlainMap.live at 1. csimpl. intros Hlt.
    destruct IH as (i & slot & Hi & Hv); [lia|]. by exists (S i), slot.
  - intros _. by exists 0%nat, (k, v, false).
Qed.

Lemma table_insert_true (m m' : tableT) k v :
  wf m -> k ∉ (entries m).*1 -> insert k v m = (true, m') ->
  wf m' /\ entries m' ≡ₚ (k, v) :: entries m /\ getSize m' = getSize m.
Proof.
  intros Hwf Hk. unfold PlainTable.insert.
  destruct (first_along _ _ _) as [i|] eqn:E; [|done].
  intros [= <-].
  destruct (first_along_Some _ _ _ _ E) as ([[k0 v0] o] & Hs & Hv).
  unfold vacant in Hv. simpl in Hv. destruct o; [done|].
  assert (Hent : entries {| _slots := <[i:=(k, v, true)]> (_slots m) |}
                 ≡ₚ (k, v) :: entries m)
    by (by apply (entries_fill _ i k v k0 v0)).
  split; [|split; [done|]].
  - unfold wf. rewrite Hent. simpl. by apply NoDup_cons.
  - unfold getSize. simpl. by rewrite length_insert.
Qed.

Lemma table_insert_room (m : tableT) k v :
  N.of_nat (length (entries m)) < getSize m -> (insert k v m).1 = true.
Proof.
  unfold getSize, entries. intros Hlt.
  destruct (vacancy (_slots m)) as (i & slot & Hi & Hv); [lia|].
  destruct (first_along_is_Some vacant (_slots m)
              (probe HashFuncT m k) i slot) as [j Hj]; [|done|done|].
  - apply probe_covers, lookup_lt_is_Some_1. by eexists.
  - unfold PlainTable.insert. by rewrite Hj.
Qed.

Lemma table_entries_make n : entries (make n) = [].
Proof.
  unfold entries, PlainTable.make. simpl.
  induction (N.to_nat n) as [|c IH]; [done|]. csimpl. exact IH.
Qed.

Lemma table_getSize_make n : getSize (make n) = n.
Proof.
  unfold getSize, PlainTable.make. simpl.
  rewrite length_replicate. apply N2Nat.id.
Qed.

(** Re-inserting a list of entries into a table with room for them. *)
Lemma reinsert (es : list (KeyT * ItemT)) :
  forall acc : tableT,
    wf acc -> NoDup es.*1 ->
    (forall e, e ∈ es -> e.1 ∉ (entries acc).*1) ->
    N.of_nat (length (entries acc) + length es) <= getSize acc ->
    let r := foldl (fun a e => (insert e.1 e.2 a).2) acc es in
    wf r /\ entries r ≡ₚ es ++ entries acc /\ getSize r = getSize acc.
Proof.
  induction es as [|[k v] es IH]; intros acc Hwf Hnd Hfresh Hroom; [done|].
  simpl in *. apply NoDup_cons in Hnd as [Hk Hnd].
  assert (Hkacc : k ∉ (entries acc).*1) by (apply (Hfresh (k, v)); left).
  pose proof (table_insert_room acc k v) as Hok.
  destruct (insert k v acc) as [added acc1] eqn:E. simpl in Hok.
  rewrite Hok in E by lia.
  destruct (table_insert_true acc acc1 k v Hwf Hkacc E) as (Hwf1 & Hent1 & Hsz1).
  simpl. destruct (IH acc1) as (Hwfr & Hentr & Hszr).
  - done.
  - done.
  - intros e He. rewrite Hent1. simpl. rewrite not_elem_of_cons. split.
    + intros Heq. apply Hk. rewrite <- Heq. by apply list_elem_of_fmap_2.
    + apply Hfresh. by right.
  - rewrite Hent1, Hsz1. simpl. lia.
  - split; [done|]. split; [|congruence].
    rewrite Hentr, Hent1. symmetry. apply Permutation_middle.
Qed.

Lemma table_resize_spec (m : tableT) n tries :
  wf m -> N.of_nat (length (entries m)) <= n ->
  wf (resize n tries m) /\ entries (resize n tries m) ≡ₚ entries m /\
  getSize (resize n tries m) = n.
Proof.
  intros Hwf Hn. unfold PlainTable.resize.
  destruct (reinsert (entries m) (make n)) as (Hwfr & Hentr & Hszr).
  - unfold wf. rewrite table_entries_make. constructor.
  - done.
  - intros e _. rewrite table_entries_make. apply not_elem_of_nil.
  - rewrite table_entries_make, table_getSize_make. simpl. lia.
  - split; [done|]. split.
    + by rewrite Hentr, table_entries_make, app_nil_r.
    + by rewrite Hszr, table_getSize_make.
Qed.

(** The modelled table is a lawful table. *)

Lemma table_wf_make n : wf (make n).
Proof. unfold wf. rewrite table_entries_make. constructor. Qed.

Lemma table_wf_NoDup (m : tableT) : wf m -> NoDup (entries m).*1.
Proof. done. Qed.

Lemma table_search_present (m : tableT) k v :
  wf m -> (k, v) ∈ entries m -> searchAndSave HashFuncT k m = Some (k, v).
Proof.
  intros Hwf Hin. unfold searchAndSave.
  destruct (found m k v Hwf Hin) as (i & -> & Hi). simpl. by rewrite Hi.
Qed.

Lemma table_search_sound (m : tableT) k k' v' :
  wf m -> searchAndSave HashFuncT k m = Some (k', v') ->
  (k', v') ∈ entries m.
Proof.
  intros Hwf. unfold searchAndSave.
  destruct (first_along _ _ _) as [i|] eqn:E; [|done]. simpl.
  destruct (first_along_Some _ _ _ _ E) as ([[k0 v0] o] & Hs & Hh).
  rewrite Hs. simpl. intros [= -> ->].
  unfold holds in Hh. simpl in Hh.
  apply andb_true_iff in Hh as [-> _]. apply entry_slot. eauto.
Qed.

Lemma table_insert_true_law (m : tableT) k v (m' : tableT) :
  wf m -> k ∉ (entries m).*1 -> insert k v m = (true, m') ->
  wf m' /\ entries m' ≡ₚ (k, v) :: entries m /\ getSize m' = getSize m.
Proof. apply table_insert_true. Qed.

Lemma table_insert_room_law (m : tableT) k v :
  wf m -> k ∉ (entries m).*1 ->
  N.of_nat (length (entries m)) < getSize m -> (insert k v m).1 = true.
Proof. intros _ _. apply table_insert_room. Qed.

Lemma table_index_present (m : tableT) k v :
  wf m -> (k, v) ∈ entries m -> index HashFuncT k m = Some (v, m).
Proof.
  intros Hwf Hin. unfold index.
  destruct (found m k v Hwf Hin) as (i & -> & Hi). simpl. by rewrite Hi.
Qed.

Lemma table_arrays_spec (m : tableT) :
  wf m ->
  exists slots : list slotT,
    getUnderlyingArrays m = (slots.*1.*1, slots.*1.*2, slots.*2) /\
    omap PlainMap.live slots ≡ₚ entries m.
Proof. intros _. by exists (_slots m). Qed.

Lemma table_capacity (m : tableT) :
  wf m -> N.of_nat (length (entries m)) <= getSize m.
Proof.
  intros _. unfold entries, getSize.
  assert (length (omap PlainMap.live (_slots m)) <= length (_slots m))%nat;
    [|lia].
  induction (_slots m) as [|[[k v] o] slots IH]; csimpl; [lia|].
  destruct o; unfold PlainMap.live at 1; csimpl; lia.
Qed.

Lemma table_insert_false (m : tableT) k v (m' : tableT) :
  wf m -> insert k v m = (false, m') ->
  wf m' /\ entries m' ≡ₚ entries m /\ getSize m' = getSize m.
Proof.
  intros Hwf. unfold PlainTable.insert.
  destruct (first_along _ _ _); [done|]. by intros [= <-].
Qed.

Lemma entries_clear (slots : list slotT) i k v :
  slots !! i = Some (k, v, true) ->
  omap PlainMap.live slots
  ≡ₚ (k, v) :: omap PlainMap.live (<[i:=(k, v, false)]> slots).
Proof.
  intros Hi.
  rewrite <- (take_drop_middle slots i _ Hi) at 1.
  rewrite insert_take_drop by (apply lookup_lt_is_Some_1; by eexists).
  rewrite !omap_app. csimpl. unfold PlainMap.live. csimpl.
  symmetry. apply Permutation_middle.
Qed.

Lemma table_remove_present (m : tableT) k v :
  wf m -> (k, v) ∈ entries m ->
  exists m',
    remove HashFuncT k m = Some m' /\ wf m' /\
    entries m ≡ₚ (k, v) :: entries m' /\ getSize m' = getSize m.
Proof.
  intros Hwf Hin. destruct (found m k v Hwf Hin) as (i & Hfirst & Hi).
  pose proof (entries_clear (_slots m) i k v Hi) as Hent.
  unfold remove. rewrite Hfirst. simpl. rewrite Hi. simpl.
  eexists. split; [done|]. split; [|split; [exact Hent|]].
  - unfold wf in *. unfold entries in Hwf at 1. rewrite Hent in Hwf.
    simpl in Hwf. by apply NoDup_cons in Hwf as [_ Hwf].
  - unfold getSize. simpl. by rewrite length_insert.
Qed.

Definition laws :
  @PlainMap.Laws KeyT ItemT tableT
     (table HashFuncT KeyT_default ItemT_default) :=
  @PlainMap.Build_Laws KeyT ItemT tableT
     (table HashFuncT KeyT_default ItemT_default)
     wf entries table_wf_make table_entries_make table_getSize_make
     table_wf_NoDup table_search_present table_search_sound
     table_insert_true_law table_insert_room_law table_resize_spec
     table_index_present table_arrays_spec table_capacity
     table_insert_false.

Definition removal :
  @PlainMapRemoval.Laws KeyT ItemT tableT
     (table HashFuncT KeyT_default ItemT_default) laws :=
  @PlainMapRemoval.Build_Laws KeyT ItemT tableT
     (table HashFuncT KeyT_default ItemT_default) laws table_remove_present.

End laws.
End PlainTable_laws.

(** ** List facts used for the bucket array *)

Section bucket_array.
Context {A B : Type}.
Implicit Types (F : A -> list B) (l : list A).

Lemma bind_insert_cons F l i a a' e :
  l !! i = Some a -> F a' ≡ₚ e :: F a ->
  <[i:=a']> l ≫= F ≡ₚ e :: l ≫= F.
Proof.
  intros Hi Hp.
  rewrite <- (take_drop_middle l i a Hi) at 2.
  rewrite insert_take_drop by (apply lookup_lt_is_Some_1; by eexists).
  rewrite !bind_app, !bind_cons, Hp. simpl.
  symmetry. apply Permutation_middle.
Qed.

Lemma bind_length_lookup F l i a :
  l !! i = Some a -> (length (F a) <= length (l ≫= F))%nat.
Proof.
  intros Hi. rewrite <- (take_drop_middle l i a Hi).
  rewrite bind_app, bind_cons, !length_app. lia.
Qed.

Lemma bind_seq_lookup F (G : nat -> list B) l :
  forall k,
    (forall i a, l !! i = Some a -> F a ≡ₚ G (k + i)%nat) ->
    l ≫= F ≡ₚ seq k (length l) ≫= G.
Proof.
  induction l as [|a l IH]; intros k H; [done|].
  simpl length. simpl seq. rewrite !bind_cons.
  rewrite (H 0%nat a eq_refl), Nat.add_0_r.
  apply Permutation_app_head, IH.
  intros i a' Hi. rewrite (H (S i) a' Hi). by rewrite Nat.add_succ_r.
Qed.

(** Splitting a list by an index function below [n] loses nothing. *)
Lemma bind_seq_filter (g : B -> nat) (es : list B) n :
  seq 0 n ≫= (fun i => filter (fun e => g e = i) es)
  ≡ₚ filter (fun e => (g e < n)%nat) es.
Proof.
  induction n as [|n IH].
  - simpl. induction es as [|e es IHes]; [done|].
    rewrite filter_cons_False by lia. done.
  - rewrite seq_S, bind_app, IH. simpl. rewrite app_nil_r.
    clear IH. induction es as [|e es IHes]; [done|].
    rewrite !filter_cons.
    destruct (decide (g e < n)%nat), (decide (g e = n)),
             (decide (g e < S n)%nat); try lia; simpl.
    + by rewrite IHes.
    + by rewrite <- Permutation_middle, IHes.
    + done.
Qed.

Lemma filter_all (P : B -> Prop) `{!forall e, Decision (P e)} (es : list B) :
  (forall e, e ∈ es -> P e) -> filter P es = es.
Proof.
  induction es as [|e es IH]; intros Hall; [done|].
  rewrite filter_cons_True by (apply Hall; left).
  rewrite IH; [done|]. intros e' He'. apply Hall. by right.
Qed.

End bucket_array.

(** ** The map over any bucket class that keeps the contract *)

Module MapFacts.
Import _chainHashingMapT.
Section generic.
Context {KeyT ItemT : Type}.
Variable HashFuncT : N -> KeyT -> N.
Context {BucketT : Type} `{!Bucket.T KeyT ItemT BucketT}.
Context `{!Bucket.Laws BucketT}.

(** The contract of the hash function: an index below the table size. *)
Hypothesis HashFuncT_range : forall n k, 0 < n -> HashFuncT n k < n.

Local Abbreviation mapT := (_chainHashingMapT.t KeyT BucketT).

(** Every key-item pair the map holds, bucket after bucket. *)
Definition stored (m : mapT) : list (KeyT * ItemT) :=
  _buckets m ≫= Bucket.entries.

(** The number of buckets whose local size is at least 1. *)
Definition active_buckets (m : mapT) : N :=
  N.of_nat (length (filter (fun b => 1 <= Bucket.size b) (_buckets m))).

(** The representation invariant: there is a bucket, hashes index the bucket array, every
    bucket is well formed, every entry sits in the bucket of its hash,
    and no key is stored twice. *)
Record WF (m : mapT) : Prop := {
  WF_capacity : 0 < getMaxBucketSize m;
  WF_range : forall k, (N.to_nat (_hFunc m k) < length (_buckets m))%nat;
  WF_buckets : Forall Bucket.wf (_buckets m);
  WF_placed : forall i b e,
    _buckets m !! i = Some b -> e ∈ Bucket.entries b ->
    N.to_nat (_hFunc m e.1) = i;
  WF_NoDup : NoDup (stored m).*1
}.

Lemma set_buckets_id (m : mapT) : set_buckets (_buckets m) m = m.
Proof. by destruct m. Qed.

Lemma stored_bucket (m : mapT) e :
  e ∈ stored m <->
  exists i b, _buckets m !! i = Some b /\ e ∈ Bucket.entries b.
Proof.
  unfold stored. rewrite list_elem_of_bind. split.
  - intros (b & He & (i & Hi)%list_elem_of_lookup). eauto.
  - intros (i & b & Hi & He). exists b. split; [done|].
    by eapply list_elem_of_lookup_2.
Qed.

(** A stored entry is found in the bucket its key hashes to. *)
Lemma stored_home (m : mapT) e :
  WF m -> e ∈ stored m ->
  exists b, _buckets m !! N.to_nat (_hFunc m e.1) = Some b /\
            e ∈ Bucket.entries b.
Proof.
  intros Hwf (i & b & Hi & He)%stored_bucket.
  rewrite (WF_placed m Hwf i b e Hi He). eauto.
Qed.

Lemma home_bucket (m : mapT) k :
  WF m ->
  exists b, _buckets m !! N.to_nat (_hFunc m k) = Some b /\ Bucket.wf b.
Proof.
  intros Hwf.
  destruct (lookup_lt_is_Some_2 _ _ (WF_range m Hwf k)) as [b Hb].
  exists b. split; [done|].
  exact (Forall_lookup_1 _ _ _ _ (WF_buckets m Hwf) Hb).
Qed.

Lemma key_stored_home (m : mapT) k b :
  WF m -> _buckets m !! N.to_nat (_hFunc m k) = Some b ->
  k ∈ (stored m).*1 <-> k ∈ (Bucket.entries b).*1.
Proof.
  intros Hwf Hb. split.
  - intros ([k' v] & -> & He)%list_elem_of_fmap.
    destruct (stored_home m _ Hwf He) as (b' & Hb' & He'). simpl in *.
    assert (b' = b) as -> by congruence.
    by apply (list_elem_of_fmap_2 fst _ (k', v)).
  - intros (e & -> & He)%list_elem_of_fmap.
    apply list_elem_of_fmap_2, stored_bucket. eauto.
Qed.

(** *** [search] and [get] *)

Lemma search_stored (m : mapT) k :
  WF m ->
  exists r, search k m = Some r /\ (r = true <-> k ∈ (stored m).*1).
Proof.
  intros Hwf. destruct (home_bucket m k Hwf) as (b & Hb & Hwfb).
  destruct (Bucket.search_spec b k Hwfb) as (r & Hr & Hiff).
  exists r. unfold search. rewrite Hb. simpl. split; [done|].
  by rewrite Hiff, (key_stored_home m k b).
Qed.

Lemma search_present (m : mapT) k :
  WF m -> k ∈ (stored m).*1 -> search k m = Some true.
Proof.
  intros Hwf Hk. destruct (search_stored m k Hwf) as (r & Hr & Hiff).
  apply Hiff in Hk. by subst r.
Qed.

Lemma get_stored (m : mapT) k v :
  WF m -> (k, v) ∈ stored m -> get k m = Some (v, m).
Proof.
  intros Hwf He.
  destruct (stored_home m _ Hwf He) as (b & Hb & Heb). simpl in Hb.
  unfold get. rewrite Hb. simpl.
  rewrite (Bucket.get_spec b k v); [|exact (Forall_lookup_1 _ _ _ _ (WF_buckets m Hwf) Hb)|done].
  simpl. by rewrite list_insert_id, set_buckets_id.
Qed.

(** *** A duplicate-key [insert] *)

Lemma insert_present (m : mapT) k v :
  WF m -> k ∈ (stored m).*1 -> insert HashFuncT k v m = Some (false, m).
Proof.
  intros Hwf Hk. destruct (home_bucket m k Hwf) as (b & Hb & Hwfb).
  unfold insert. rewrite Hb. simpl.
  rewrite (Bucket.insert_old b k v Hwfb)
    by (by apply (key_stored_home m k b)).
  simpl. by rewrite list_insert_id, set_buckets_id.
Qed.

(** *** Replacing one bucket *)

Lemma WF_set_bucketCount c (m : mapT) : WF m -> WF (set_bucketCount c m).
Proof. intros []. by split. Qed.

Lemma WF_set_elemCount c (m : mapT) : WF m -> WF (set_elemCount c m).
Proof. intros []. by split. Qed.

Lemma WF_set_rehashPolicy p (m : mapT) : WF m -> WF (set_rehashPolicy p m).
Proof. intros []. by split. Qed.

Lemma WF_shrink (m : mapT) i b b' :
  WF m -> _buckets m !! i = Some b -> Bucket.wf b' ->
  Bucket.entries b' `sublist_of` Bucket.entries b ->
  WF (set_buckets (<[i:=b']> (_buckets m)) m) /\
  stored (set_buckets (<[i:=b']> (_buckets m)) m) `sublist_of` stored m.
Proof.
  intros Hwf Hb Hwfb' Hsub.
  assert (Hi : (i < length (_buckets m))%nat)
    by (apply lookup_lt_is_Some_1; by eexists).
  assert (Hst : stored (set_buckets (<[i:=b']> (_buckets m)) m)
                `sublist_of` stored m).
  { unfold stored. simpl.
    rewrite <- (take_drop_middle (_buckets m) i b Hb) at 2.
    rewrite insert_take_drop by done.
    rewrite !bind_app, !bind_cons.
    apply sublist_app; [done|]. by apply sublist_app. }
  split; [|done]. split; simpl.
  - unfold getMaxBucketSize. simpl. rewrite length_insert.
    apply (WF_capacity m Hwf).
  - intros k. rewrite length_insert. apply (WF_range m Hwf).
  - apply Forall_insert; [apply (WF_buckets m Hwf) | done].
  - intros j b0 e. destruct (decide (i = j)) as [<-|Hne].
    + rewrite list_lookup_insert_eq by done. intros [= <-] He.
      apply (WF_placed m Hwf i b e Hb). by eapply elem_of_sublist.
    + rewrite list_lookup_insert_ne by done. apply (WF_placed m Hwf).
  - eapply sublist_NoDup; [apply (WF_NoDup m Hwf) | by apply fmap_sublist].
Qed.

Lemma WF_grow (m : mapT) k v b b' :
  WF m -> _buckets m !! N.to_nat (_hFunc m k) = Some b -> Bucket.wf b' ->
  Bucket.entries b' ≡ₚ (k, v) :: Bucket.entries b ->
  k ∉ (stored m).*1 ->
  WF (set_buckets (<[N.to_nat (_hFunc m k):=b']> (_buckets m)) m) /\
  stored (set_buckets (<[N.to_nat (_hFunc m k):=b']> (_buckets m)) m)
  ≡ₚ (k, v) :: stored m.
Proof.
  intros Hwf Hb Hwfb' Hent Hk.
  assert (Hst : stored (set_buckets
                          (<[N.to_nat (_hFunc m k):=b']> (_buckets m)) m)
                ≡ₚ (k, v) :: stored m).
  { unfold stored. simpl.
    by rewrite (bind_insert_cons _ _ _ b b' (k, v) Hb Hent). }
  split; [|done]. split; simpl.
  - unfold getMaxBucketSize. simpl. rewrite length_insert.
    apply (WF_capacity m Hwf).
  - intros k'. rewrite length_insert. apply (WF_range m Hwf).
  - apply Forall_insert; [apply (WF_buckets m Hwf) | done].
  - intros i b0 e.
    destruct (decide (N.to_nat (_hFunc m k) = i)) as [<-|Hne].
    + rewrite list_lookup_insert_eq by (apply (WF_range m Hwf)).
      intros [= <-]. rewrite Hent, elem_of_cons.
      intros [->|He]; [done|]. by apply (WF_placed m Hwf _ b).
    + rewrite list_lookup_insert_ne by done. apply (WF_placed m Hwf).
  - rewrite Hst. simpl. apply NoDup_cons.
    split; [done | apply (WF_NoDup m Hwf)].
Qed.

Lemma stored_remove (m : mapT) i b b' e :
  _buckets m !! i = Some b ->
  Bucket.entries b ≡ₚ e :: Bucket.entries b' ->
  stored m ≡ₚ e :: stored (set_buckets (<[i:=b']> (_buckets m)) m).
Proof.
  intros Hb Hent.
  assert (Hi : (i < length (_buckets m))%nat)
    by (apply lookup_lt_is_Some_1; by eexists).
  unfold stored. simpl.
  rewrite <- (bind_insert_cons _ (<[i:=b']> (_buckets m)) i b' b e).
  - by rewrite list_insert_insert_eq, list_insert_id.
  - by apply list_lookup_insert_eq.
  - exact Hent.
Qed.

Lemma WF_remove (m : mapT) i b b' e :
  WF m -> _buckets m !! i = Some b -> Bucket.wf b' ->
  Bucket.entries b ≡ₚ e :: Bucket.entries b' ->
  WF (set_buckets (<[i:=b']> (_buckets m)) m) /\
  e.1 ∉ (stored (set_buckets (<[i:=b']> (_buckets m)) m)).*1.
Proof.
  intros Hwf Hb Hwfb' Hent.
  pose proof (stored_remove m i b b' e Hb Hent) as Hst.
  pose proof (WF_NoDup m Hwf) as Hnd. rewrite Hst in Hnd. simpl in Hnd.
  apply NoDup_cons in Hnd as [Hk Hnd].
  assert (Hi : (i < length (_buckets m))%nat)
    by (apply lookup_lt_is_Some_1; by eexists).
  split; [|done]. split; simpl.
  - unfold getMaxBucketSize. simpl. rewrite length_insert.
    apply (WF_capacity m Hwf).
  - intros k. rewrite length_insert. apply (WF_range m Hwf).
  - apply Forall_insert; [apply (WF_buckets m Hwf) | done].
  - intros j b0 e0. destruct (decide (i = j)) as [<-|Hne].
    + rewrite list_lookup_insert_eq by done. intros [= <-] He.
      apply (WF_placed m Hwf i b e0 Hb). rewrite Hent. by right.
    + rewrite list_lookup_insert_ne by done. apply (WF_placed m Hwf).
  - done.
Qed.

(** *** [_rehash] and [_resize] *)

(** Every bucket of a table of [size] buckets can hold the entries that
    hash to it. *)
Definition spread (size : N) (m : mapT) : Prop :=
  forall i : nat,
    Bucket.fits
      (length (filter (fun e => N.to_nat (HashFuncT size e.1) = i) (stored m))).

Lemma fits_spread size (m : mapT) :
  Bucket.fits (length (stored m)) -> spread size m.
Proof.
  intros Hfits i. eapply Bucket.fits_le; [exact Hfits|]. apply length_filter.
Qed.

Lemma _rehash_spec (m : mapT) size :
  Forall Bucket.wf (_buckets m) -> NoDup (stored m).*1 ->
  0 < size -> spread size m ->
  exists m',
    _rehash HashFuncT size m = Some m' /\ WF m' /\
    stored m' ≡ₚ stored m /\ getMaxBucketSize m' = size /\
    _hFunc m' = HashFuncT size /\
    _elemCount m' = _elemCount m /\ _nextRehash m' = _nextRehash m /\
    _rehashPolicy m' = _rehashPolicy m /\
    Bucket.reorganizeBuckets (_buckets m) size (HashFuncT size)
    = Some (_buckets m', _bucketCount m').
Proof.
  intros Hbs Hnd Hsize Hfits. unfold _rehash. simpl.
  destruct (Bucket.reorganize_spec (_buckets m) size (HashFuncT size))
    as (nbs & used & Hrun & Hlen & Hwfs & Hshape).
  - done.
  - done.
  - intros e _. by apply HashFuncT_range.
  - exact Hfits.
  - rewrite Hrun. simpl. eexists. split; [done|].
    assert (Hst : nbs ≫= Bucket.entries ≡ₚ stored m).
    { rewrite (bind_seq_lookup Bucket.entries
                 (fun i => filter (fun e => N.to_nat (HashFuncT size e.1) = i)
                                  (stored m)) nbs 0%nat)
        by (intros i b Hb; by apply Hshape).
      rewrite (bind_seq_filter (fun e => N.to_nat (HashFuncT size e.1))).
      rewrite filter_all; [done|].
      intros e _. rewrite Hlen.
      pose proof (HashFuncT_range size e.1 Hsize). lia. }
    split; [|repeat split; simpl; try done].
    + split; simpl.
      * unfold getMaxBucketSize. simpl. rewrite Hlen. lia.
      * intros k. rewrite Hlen.
        pose proof (HashFuncT_range size k Hsize). lia.
      * done.
      * intros i b e Hb He. rewrite (Hshape i b Hb) in He.
        by apply list_elem_of_filter in He as [? _].
      * unfold stored. simpl. by rewrite Hst.
    + unfold getMaxBucketSize. simpl. rewrite Hlen. apply N2Nat.id.
Qed.

Lemma _resize_spec (m : mapT) nextRehash :
  Forall Bucket.wf (_buckets m) -> NoDup (stored m).*1 ->
  0 < getMaxBucketSize m -> 2 * getMaxBucketSize m <= size_t.SIZE_MAX ->
  spread (2 * getMaxBucketSize m) m ->
  barrier (2 * getMaxBucketSize m) (_rehashPolicy m) = Some nextRehash ->
  exists m',
    _resize HashFuncT m = Some m' /\ WF m' /\
    stored m' ≡ₚ stored m /\
    getMaxBucketSize m' = 2 * getMaxBucketSize m /\
    _hFunc m' = HashFuncT (2 * getMaxBucketSize m) /\
    _elemCount m' = _elemCount m /\ _nextRehash m' = nextRehash /\
    _rehashPolicy m' = _rehashPolicy m /\
    Bucket.reorganizeBuckets (_buckets m) (2 * getMaxBucketSize m)
      (HashFuncT (2 * getMaxBucketSize m))
    = Some (_buckets m', _bucketCount m').
Proof.
  intros Hbs Hnd Hpos Hcap Hfits Hbar. unfold _resize.
  rewrite size_t_facts.mul_small by lia.
  rewrite (N.mul_comm (getMaxBucketSize m) 2), Hbar. simpl.
  destruct (_rehash_spec (set_nextRehash nextRehash m)
              (2 * getMaxBucketSize m))
    as (m' & Hrun & Hwf & Hst & Hsz & Hh & He & Hn & Hp & Hre);
    [done | done | lia | done |].
  exists m'. repeat split; try done; apply Hwf.
Qed.

(** *** [insert] of a key that is not stored yet *)

Lemma insert_absent (m : mapT) k v :
  WF m -> k ∉ (stored m).*1 -> Bucket.fits (S (length (stored m))) ->
  exists m1,
    WF m1 /\ stored m1 ≡ₚ (k, v) :: stored m /\
    getMaxBucketSize m1 = getMaxBucketSize m /\
    _hFunc m1 = _hFunc m /\
    _elemCount m1 = size_t.incr (_elemCount m) /\
    _nextRehash m1 = _nextRehash m /\
    _rehashPolicy m1 = _rehashPolicy m /\
    insert HashFuncT k v m =
      if _nextRehash m1 <? _elemCount m1
      then m4 ← _resize HashFuncT m1; Some (true, m4)
      else Some (true, m1).
Proof.
  intros Hwf Hk Hfits. destruct (home_bucket m k Hwf) as (b & Hb & Hwfb).
  destruct (Bucket.insert_new b k v Hwfb) as (b' & Hins & Hwfb' & Hent).
  { eapply Bucket.fits_le; [exact Hfits|].
    apply le_n_S, (bind_length_lookup _ _ _ _ Hb). }
  { by rewrite <- (key_stored_home m k b). }
  unfold insert. rewrite Hb. simpl. rewrite Hins. simpl.
  exists (set_elemCount (size_t.incr (_elemCount m))
            (set_bucketCount
               (size_t.add (_bucketCount m)
                  (size_t.of_bool (Bucket.size b' =? 1)))
               (set_buckets (<[N.to_nat (_hFunc m k):=b']> (_buckets m)) m))).
  split; [|split; [|repeat split; try reflexivity]].
  - split; simpl.
    + unfold getMaxBucketSize. simpl. rewrite length_insert.
      apply (WF_capacity m Hwf).
    + intros k'. rewrite length_insert. apply (WF_range m Hwf).
    + apply Forall_insert; [apply (WF_buckets m Hwf) | done].
    + intros i b0 e.
      destruct (decide (N.to_nat (_hFunc m k) = i)) as [<-|Hne].
      * rewrite list_lookup_insert_eq by (apply (WF_range m Hwf)).
        intros [= <-]. rewrite Hent, elem_of_cons.
        intros [->|He]; [done|]. by apply (WF_placed m Hwf _ b).
      * rewrite list_lookup_insert_ne by done. apply (WF_placed m Hwf).
    + unfold stored. simpl.
      rewrite (bind_insert_cons _ _ _ b b' (k, v) Hb Hent).
      simpl. apply NoDup_cons. split; [done | apply (WF_NoDup m Hwf)].
  - unfold stored. simpl.
    by rewrite (bind_insert_cons _ _ _ b b' (k, v) Hb Hent).
  - unfold getMaxBucketSize. simpl. by rewrite length_insert.
Qed.

Lemma _resize_barrier (m m' : mapT) :
  _resize HashFuncT m = Some m' ->
  exists nextRehash,
    barrier (size_t.mul (getMaxBucketSize m) 2) (_rehashPolicy m)
    = Some nextRehash.
Proof.
  unfold _resize.
  destruct (barrier _ _) as [nr|]; [by exists nr | done].
Qed.

(** The state a successful [insert] leaves behind. *)
Lemma insert_true_inv (m m' : mapT) k v :
  WF m -> Bucket.fits (S (length (stored m))) ->
  2 * getMaxBucketSize m <= size_t.SIZE_MAX ->
  insert HashFuncT k v m = Some (true, m') ->
  (k ∉ (stored m).*1) /\ WF m' /\ stored m' ≡ₚ (k, v) :: stored m.
Proof.
  intros Hwf Hfits Hcap Hins.
  destruct (search_stored m k Hwf) as ([|] & _ & Hiff).
  { rewrite (insert_present m k v Hwf) in Hins by (by apply Hiff). done. }
  assert (Hk : k ∉ (stored m).*1) by (intros ?%Hiff; done).
  split; [done|].
  destruct (insert_absent m k v Hwf Hk Hfits)
    as (m1 & Hwf1 & Hst1 & Hcap1 & _ & _ & _ & _ & Heq).
  rewrite Heq in Hins.
  destruct (_nextRehash m1 <? _elemCount m1); [|by injection Hins as <-].
  destruct (_resize HashFuncT m1) as [m4|] eqn:Hres; [|done].
  injection Hins as <-.
  destruct (_resize_barrier m1 m4 Hres) as (nr & Hbar).
  rewrite size_t_facts.mul_small, (N.mul_comm _ 2) in Hbar by lia.
  destruct (_resize_spec m1 nr) as (m5 & Hres' & Hwf5 & Hst5 & _).
  - apply (WF_buckets m1 Hwf1).
  - apply (WF_NoDup m1 Hwf1).
  - apply (WF_capacity m1 Hwf1).
  - lia.
  - apply fits_spread. by rewrite Hst1.
  - done.
  - assert (m5 = m4) as -> by congruence. split; [done|].
    by rewrite Hst5.
Qed.

(** *** The constructor *)

Lemma replicate_new_entries n :
  replicate n (Bucket.new (BucketT := BucketT)) ≫= Bucket.entries = [].
Proof.
  induction n as [|n IH]; [done|].
  simpl replicate. by rewrite bind_cons, Bucket.entries_new, IH.
Qed.

Lemma make_spec size nextRehash :
  0 < size -> barrier size DefaultRehashPolicy = Some nextRehash ->
  exists m,
    make HashFuncT size = Some m /\ WF m /\ stored m = [] /\
    getMaxBucketSize m = size /\ _elemCount m = 0 /\ _bucketCount m = 0 /\
    _nextRehash m = nextRehash /\ _rehashPolicy m = DefaultRehashPolicy.
Proof.
  intros Hsize Hbar. unfold make. rewrite Hbar. simpl.
  eexists. split; [done|].
  split; [|repeat split; simpl].
  - split; simpl.
    + unfold getMaxBucketSize. simpl. rewrite length_replicate. lia.
    + intros k. rewrite length_replicate.
      pose proof (HashFuncT_range size k Hsize). lia.
    + apply Forall_replicate, Bucket.wf_new.
    + intros i b e [-> _]%lookup_replicate.
      rewrite Bucket.entries_new. by intros ?%elem_of_nil.
    + unfold stored. simpl. rewrite replicate_new_entries. constructor.
  - apply replicate_new_entries.
  - unfold getMaxBucketSize. simpl. rewrite length_replicate. apply N2Nat.id.
Qed.

(** *** The growth rule *)

(** The growth rule of [insert]. *)
Lemma insert_growth (m : mapT) k v :
  WF m -> k ∉ (stored m).*1 -> Bucket.fits (S (length (stored m))) ->
  2 * getMaxBucketSize m <= size_t.SIZE_MAX ->
  (_nextRehash m < size_t.incr (_elemCount m) ->
   forall nextRehash,
     barrier (2 * getMaxBucketSize m) (_rehashPolicy m) = Some nextRehash ->
     exists m' bs,
       insert HashFuncT k v m = Some (true, m') /\ WF m' /\
       stored m' ≡ₚ (k, v) :: stored m /\
       getMaxBucketSize m' = 2 * getMaxBucketSize m /\
       _nextRehash m' = nextRehash /\
       _hFunc m' = HashFuncT (2 * getMaxBucketSize m) /\
       _elemCount m' = size_t.incr (_elemCount m) /\
       _rehashPolicy m' = _rehashPolicy m /\
       Bucket.reorganizeBuckets bs (2 * getMaxBucketSize m)
         (HashFuncT (2 * getMaxBucketSize m))
       = Some (_buckets m', _bucketCount m')) /\
  (size_t.incr (_elemCount m) <= _nextRehash m ->
   exists m',
     insert HashFuncT k v m = Some (true, m') /\ WF m' /\
     stored m' ≡ₚ (k, v) :: stored m /\
     getMaxBucketSize m' = getMaxBucketSize m /\
     _nextRehash m' = _nextRehash m /\
     _hFunc m' = _hFunc m /\
     _elemCount m' = size_t.incr (_elemCount m) /\
     _rehashPolicy m' = _rehashPolicy m).
Proof.
  intros Hwf Hk Hfits Hcap.
  destruct (insert_absent m k v Hwf Hk Hfits)
    as (m1 & Hwf1 & Hst1 & Hcap1 & Hh1 & He1 & Hn1 & Hp1 & Heq).
  rewrite Heq, He1, Hn1. split.
  - intros Hgt nr Hbar. rewrite (proj2 (N.ltb_lt _ _) Hgt).
    destruct (_resize_spec m1 nr)
      as (m' & Hrun & Hwf' & Hst & Hsz & Hh & He & Hn & Hp & Hre).
    + apply (WF_buckets m1 Hwf1).
    + apply (WF_NoDup m1 Hwf1).
    + apply (WF_capacity m1 Hwf1).
    + lia.
    + rewrite Hcap1. apply fits_spread. by rewrite Hst1.
    + by rewrite Hcap1, Hp1.
    + exists m', (_buckets m1). rewrite Hrun. simpl.
      rewrite Hcap1 in *. rewrite Hst, Hst1.
      repeat split; try done; try congruence; apply Hwf'.
  - intros Hle. rewrite (proj2 (N.ltb_ge _ _) Hle).
    exists m1. repeat split; try done; apply Hwf1.
Qed.

(** *** Inserting distinct keys into a map of eight buckets *)

(** [insert] called on each pair in turn, results discarded. *)
Fixpoint insert_each (kvs : list (KeyT * ItemT)) (m : mapT) : option mapT :=
  match kvs with
  | [] => Some m
  | (key, item) :: rest =>
      '(_, m') ← insert HashFuncT key item m; insert_each rest m'
  end.

(** The capacity after [j] successful inserts, up to 32. *)
Definition capacity_after (j : N) : N :=
  if j <=? 8 then 8 else if j <=? 16 then 16 else 32.

Record Run (j : N) (m : mapT) : Prop := {
  run_wf : WF m;
  run_count : _elemCount m = j;
  run_length : length (stored m) = N.to_nat j;
  run_policy : _rehashPolicy m = DefaultRehashPolicy;
  run_capacity : getMaxBucketSize m = capacity_after j;
  run_next : _nextRehash m = capacity_after j
}.

Lemma barrier_8 : barrier 8 DefaultRehashPolicy = Some 8.
Proof. vm_compute. reflexivity. Qed.

Lemma barrier_16 : barrier 16 DefaultRehashPolicy = Some 16.
Proof. vm_compute. reflexivity. Qed.

Lemma barrier_32 : barrier 32 DefaultRehashPolicy = Some 32.
Proof. vm_compute. reflexivity. Qed.

Lemma run_make :
  exists m0, make HashFuncT 8 = Some m0 /\ Run 0 m0 /\ stored m0 = [].
Proof.
  destruct (make_spec 8 8) as (m0 & Hmk & Hwf & Hst & Hsz & He & _ & Hn & Hp);
    [done | apply barrier_8 |].
  exists m0. split; [done|]. split; [|done].
  split; try done. by rewrite Hst.
Qed.

Lemma run_step j (m : mapT) k v :
  Run j m -> j < 32 -> Bucket.fits 32 -> k ∉ (stored m).*1 ->
  exists m',
    insert HashFuncT k v m = Some (true, m') /\ Run (j + 1) m' /\
    stored m' ≡ₚ (k, v) :: stored m.
Proof.
  intros [Hwf Hc Hl Hp Hcap Hn] Hj Hfits Hk.
  assert (Hincr : size_t.incr (_elemCount m) = j + 1).
  { rewrite Hc. apply size_t_facts.incr_small.
    rewrite size_t_facts.SIZE_MAX_eq. lia. }
  assert (Hcapj : capacity_after j <= 32).
  { unfold capacity_after. repeat case_match; lia. }
  destruct (insert_growth m k v Hwf Hk) as [Hgrow Hstay].
  { eapply Bucket.fits_le; [exact Hfits|]. rewrite Hl. lia. }
  { rewrite Hcap, size_t_facts.SIZE_MAX_eq. lia. }
  rewrite Hincr, Hn, Hcap, Hp in *.
  destruct (N.le_gt_cases (j + 1) (capacity_after j)) as [Hle|Hgt].
  - destruct (Hstay Hle) as (m' & Hins & Hwf' & Hst & Hcap' & Hn' & _ & Hc' & Hp').
    exists m'. split; [done|]. split; [|done].
    assert (Hsame : capacity_after (j + 1) = capacity_after j).
    { revert Hle. unfold capacity_after.
      repeat case_match;
        repeat match goal with
               | H : (_ <=? _) = true |- _ => apply N.leb_le in H
               | H : (_ <=? _) = false |- _ => apply N.leb_gt in H
               end; lia. }
    split; try done.
    + rewrite Hst. simpl. lia.
    + by rewrite Hsame.
    + by rewrite Hsame.
  - assert (Hcases : j = 8 \/ j = 16).
    { revert Hgt. unfold capacity_after.
      repeat case_match;
        repeat match goal with
               | H : (_ <=? _) = true |- _ => apply N.leb_le in H
               | H : (_ <=? _) = false |- _ => apply N.leb_gt in H
               end; lia. }
    destruct Hcases as [-> | ->].
    + destruct (Hgrow Hgt 16 barrier_16)
        as (m' & bs & Hins & Hwf' & Hst & Hcap' & Hn' & _ & Hc' & Hp' & _).
      exists m'. split; [done|]. split; [|done].
      split; try done. rewrite Hst. simpl. lia.
    + destruct (Hgrow Hgt 32 barrier_32)
        as (m' & bs & Hins & Hwf' & Hst & Hcap' & Hn' & _ & Hc' & Hp' & _).
      exists m'. split; [done|]. split; [|done].
      split; try done. rewrite Hst. simpl. lia.
Qed.

Lemma run_each (kvs : list (KeyT * ItemT)) :
  forall j (m : mapT),
    Run j m -> Bucket.fits 32 -> NoDup kvs.*1 ->
    (forall e, e ∈ kvs -> e.1 ∉ (stored m).*1) ->
    j + N.of_nat (length kvs) <= 32 ->
    exists m',
      insert_each kvs m = Some m' /\
      Run (j + N.of_nat (length kvs)) m' /\
      stored m' ≡ₚ kvs ++ stored m.
Proof.
  induction kvs as [|[k v] kvs IH]; intros j m Hrun Hfits Hnd Hfresh Hlen.
  - exists m. simpl. by rewrite N.add_0_r.
  - simpl in Hlen. apply NoDup_cons in Hnd as [Hk Hnd].
    destruct (run_step j m k v Hrun) as (m1 & Hins & Hrun1 & Hst1);
      [lia | done | apply (Hfresh (k, v)); left |].
    destruct (IH (j + 1) m1) as (m' & Heach & Hrun' & Hst'); try done.
    + intros e He. rewrite Hst1. simpl. rewrite not_elem_of_cons. split.
      * intros Heq. apply Hk. simpl. rewrite <- Heq.
        by apply list_elem_of_fmap_2.
      * apply Hfresh. by right.
    + lia.
    + exists m'. simpl. rewrite Hins. simpl. split; [done|]. split.
      * replace (j + N.of_nat (S (length kvs)))
          with (j + 1 + N.of_nat (length kvs)) by lia. done.
      * rewrite Hst', Hst1. symmetry. apply Permutation_middle.
Qed.


(** *** The invariant along the public operations *)

Lemma make_WF size (m : mapT) :
  0 < size -> make HashFuncT size = Some m -> WF m /\ stored m = [].
Proof.
  intros Hsize Hmk.
  destruct (barrier size DefaultRehashPolicy) as [nr|] eqn:Hbar;
    [|unfold make in Hmk; by rewrite Hbar in Hmk].
  destruct (make_spec size nr Hsize Hbar) as (m0 & Hmk0 & Hwf & Hst & _).
  assert (m0 = m) as -> by congruence. done.
Qed.

Lemma insert_WF (m m' : mapT) k v r :
  WF m -> Bucket.fits (S (length (stored m))) ->
  2 * getMaxBucketSize m <= size_t.SIZE_MAX ->
  insert HashFuncT k v m = Some (r, m') ->
  WF m' /\
  ((r = false /\ m' = m /\ k ∈ (stored m).*1) \/
   (r = true /\ (k ∉ (stored m).*1) /\ stored m' ≡ₚ (k, v) :: stored m)).
Proof.
  intros Hwf Hfits Hcap Hins. destruct r.
  - destruct (insert_true_inv m m' k v Hwf Hfits Hcap Hins)
      as (Hk & Hwf' & Hst).
    split; [done|]. right. done.
  - destruct (search_stored m k Hwf) as ([|] & _ & Hiff).
    + assert (Hk : k ∈ (stored m).*1) by (by apply Hiff).
      rewrite (insert_present m k v Hwf Hk) in Hins.
      injection Hins as <-. split; [done|]. left. done.
    + assert (Hk : k ∉ (stored m).*1) by (intros ?%Hiff; done).
      destruct (insert_absent m k v Hwf Hk Hfits)
        as (m1 & _ & _ & _ & _ & _ & _ & _ & Heq).
      rewrite Heq in Hins.
      destruct (_nextRehash m1 <? _elemCount m1); [|done].
      by destruct (_resize HashFuncT m1).
Qed.

Lemma rehash_loop_WF desired maxTries left :
  forall m m' : mapT,
    WF m -> Bucket.fits (length (stored m)) ->
    rehash_loop HashFuncT desired maxTries left m = Some m' ->
    WF m' /\ stored m' ≡ₚ stored m.
Proof.
  induction left as [|left IH]; intros m m' Hwf Hfits; simpl.
  - destruct (float.gtb (load_factor m) desired); [|by intros [= <-]].
    destruct (maxTries =? INT_MAX)%Z; [done | by intros [= <-]].
  - destruct (float.gtb (load_factor m) desired); [|by intros [= <-]].
    destruct (_rehash_spec m (getMaxBucketSize m))
      as (m1 & Hrun & Hwf1 & Hst1 & _); try apply Hwf.
    { by apply fits_spread. }
    rewrite Hrun. simpl. intros Hloop.
    destruct (IH m1 m' Hwf1) as [Hwf' Hst']; [by rewrite Hst1 | done |].
    split; [done|]. by rewrite Hst', Hst1.
Qed.

Lemma rehash_WF desired maxTries (m m' : mapT) r :
  WF m -> Bucket.fits (length (stored m)) ->
  rehash HashFuncT desired maxTries m = Some (r, m') ->
  WF m' /\ stored m' ≡ₚ stored m.
Proof.
  intros Hwf Hfits. unfold rehash.
  destruct (rehash_loop HashFuncT desired maxTries (Z.to_nat maxTries) m)
    as [m1|] eqn:Hloop; [|done].
  simpl. intros [= _ <-]. by eapply rehash_loop_WF.
Qed.

(** *** Maps that store the same keys *)

Lemma search_agrees (m m' : mapT) k :
  WF m -> WF m' ->
  (k ∈ (stored m').*1 <-> k ∈ (stored m).*1) ->
  search k m' = search k m.
Proof.
  intros Hwf Hwf' Hiff.
  destruct (search_stored m k Hwf) as (r & -> & Hr).
  destruct (search_stored m' k Hwf') as (r' & -> & Hr').
  f_equal. destruct r, r'; try done.
  - assert (false = true) by (apply Hr', Hiff, Hr; done). done.
  - assert (false = true) by (apply Hr, Hiff, Hr'; done). done.
Qed.

(** *** Room, bucket by bucket *)

(** The room that [insert(k, v)] needs: one more entry in the bucket the
    key hashes to and, should the table double, the share of each bucket
    of the doubled table. *)
Definition room_for (k : KeyT) (v : ItemT) (m : mapT) : Prop :=
  (forall b, _buckets m !! N.to_nat (_hFunc m k) = Some b ->
             Bucket.fits (S (length (Bucket.entries b)))) /\
  (forall i : nat,
     Bucket.fits
       (length
          (filter
             (fun e => N.to_nat (HashFuncT (2 * getMaxBucketSize m) e.1) = i)
             ((k, v) :: stored m)))).

Lemma fits_room_for (m : mapT) k v :
  Bucket.fits (S (length (stored m))) -> room_for k v m.
Proof.
  intros Hfits. split.
  - intros b Hb. eapply Bucket.fits_le; [exact Hfits|].
    apply le_n_S, (bind_length_lookup _ _ _ _ Hb).
  - intros i. eapply Bucket.fits_le; [exact Hfits|].
    change (S (length (stored m))) with (length ((k, v) :: stored m)).
    apply length_filter.
Qed.

Lemma insert_absent_home (m : mapT) k v :
  WF m -> k ∉ (stored m).*1 ->
  (forall b, _buckets m !! N.to_nat (_hFunc m k) = Some b ->
             Bucket.fits (S (length (Bucket.entries b)))) ->
  exists m1,
    WF m1 /\ stored m1 ≡ₚ (k, v) :: stored m /\
    getMaxBucketSize m1 = getMaxBucketSize m /\
    _hFunc m1 = _hFunc m /\
    _elemCount m1 = size_t.incr (_elemCount m) /\
    _nextRehash m1 = _nextRehash m /\
    _rehashPolicy m1 = _rehashPolicy m /\
    insert HashFuncT k v m =
      if _nextRehash m1 <? _elemCount m1
      then m4 ← _resize HashFuncT m1; Some (true, m4)
      else Some (true, m1).
Proof.
  intros Hwf Hk Hhome. destruct (home_bucket m k Hwf) as (b & Hb & Hwfb).
  destruct (Bucket.insert_new b k v Hwfb) as (b' & Hins & Hwfb' & Hent).
  { by apply Hhome. }
  { by rewrite <- (key_stored_home m k b). }
  unfold insert. rewrite Hb. simpl. rewrite Hins. simpl.
  exists (set_elemCount (size_t.incr (_elemCount m))
            (set_bucketCount
               (size_t.add (_bucketCount m)
                  (size_t.of_bool (Bucket.size b' =? 1)))
               (set_buckets (<[N.to_nat (_hFunc m k):=b']> (_buckets m)) m))).
  split; [|split; [|repeat split; try reflexivity]].
  - split; simpl.
    + unfold getMaxBucketSize. simpl. rewrite length_insert.
      apply (WF_capacity m Hwf).
    + intros k'. rewrite length_insert. apply (WF_range m Hwf).
    + apply Forall_insert; [apply (WF_buckets m Hwf) | done].
    + intros i b0 e.
      destruct (decide (N.to_nat (_hFunc m k) = i)) as [<-|Hne].
      * rewrite list_lookup_insert_eq by (apply (WF_range m Hwf)).
        intros [= <-]. rewrite Hent, elem_of_cons.
        intros [->|He]; [done|]. by apply (WF_placed m Hwf _ b).
      * rewrite list_lookup_insert_ne by done. apply (WF_placed m Hwf).
    + unfold stored. simpl.
      rewrite (bind_insert_cons _ _ _ b b' (k, v) Hb Hent).
      simpl. apply NoDup_cons. split; [done | apply (WF_NoDup m Hwf)].
  - unfold stored. simpl.
    by rewrite (bind_insert_cons _ _ _ b b' (k, v) Hb Hent).
  - unfold getMaxBucketSize. simpl. by rewrite length_insert.
Qed.

(** The shares of the doubled table, once the new entry is in. *)
Lemma room_for_spread (m m1 : mapT) k v :
  room_for k v m -> stored m1 ≡ₚ (k, v) :: stored m ->
  getMaxBucketSize m1 = getMaxBucketSize m ->
  spread (2 * getMaxBucketSize m1) m1.
Proof.
  intros [_ Hshare] Hst Hcap i. rewrite Hcap.
  assert (Hlen :
    length (filter
              (fun e => N.to_nat (HashFuncT (2 * getMaxBucketSize m) e.1) = i)
              (stored m1))
    = length (filter
                (fun e => N.to_nat (HashFuncT (2 * getMaxBucketSize m) e.1) = i)
                ((k, v) :: stored m)))
    by (by rewrite Hst).
  rewrite Hlen. apply Hshare.
Qed.

Lemma insert_true_inv_room (m m' : mapT) k v :
  WF m -> room_for k v m ->
  2 * getMaxBucketSize m <= size_t.SIZE_MAX ->
  insert HashFuncT k v m = Some (true, m') ->
  (k ∉ (stored m).*1) /\ WF m' /\ stored m' ≡ₚ (k, v) :: stored m.
Proof.
  intros Hwf Hroom Hcap Hins.
  destruct (search_stored m k Hwf) as ([|] & _ & Hiff).
  { rewrite (insert_present m k v Hwf) in Hins by (by apply Hiff). done. }
  assert (Hk : k ∉ (stored m).*1) by (intros ?%Hiff; done).
  split; [done|].
  destruct (insert_absent_home m k v Hwf Hk (proj1 Hroom))
    as (m1 & Hwf1 & Hst1 & Hcap1 & _ & _ & _ & _ & Heq).
  rewrite Heq in Hins.
  destruct (_nextRehash m1 <? _elemCount m1); [|by injection Hins as <-].
  destruct (_resize HashFuncT m1) as [m4|] eqn:Hres; [|done].
  injection Hins as <-.
  destruct (_resize_barrier m1 m4 Hres) as (nr & Hbar).
  rewrite size_t_facts.mul_small, (N.mul_comm _ 2) in Hbar by lia.
  destruct (_resize_spec m1 nr) as (m5 & Hres' & Hwf5 & Hst5 & _).
  - apply (WF_buckets m1 Hwf1).
  - apply (WF_NoDup m1 Hwf1).
  - apply (WF_capacity m1 Hwf1).
  - lia.
  - by apply (room_for_spread m m1 k v).
  - done.
  - assert (m5 = m4) as -> by congruence. split; [done|].
    by rewrite Hst5.
Qed.

Lemma insert_WF_room (m m' : mapT) k v r :
  WF m -> room_for k v m ->
  2 * getMaxBucketSize m <= size_t.SIZE_MAX ->
  insert HashFuncT k v m = Some (r, m') ->
  WF m' /\
  ((r = false /\ m' = m /\ k ∈ (stored m).*1) \/
   (r = true /\ (k ∉ (stored m).*1) /\ stored m' ≡ₚ (k, v) :: stored m)).
Proof.
  intros Hwf Hroom Hcap Hins. destruct r.
  - destruct (insert_true_inv_room m m' k v Hwf Hroom Hcap Hins)
      as (Hk & Hwf' & Hst).
    split; [done|]. right. done.
  - destruct (search_stored m k Hwf) as ([|] & _ & Hiff).
    + assert (Hk : k ∈ (stored m).*1) by (by apply Hiff).
      rewrite (insert_present m k v Hwf Hk) in Hins.
      injection Hins as <-. split; [done|]. left. done.
    + assert (Hk : k ∉ (stored m).*1) by (intros ?%Hiff; done).
      destruct (insert_absent_home m k v Hwf Hk (proj1 Hroom))
        as (m1 & _ & _ & _ & _ & _ & _ & _ & Heq).
      rewrite Heq in Hins.
      destruct (_nextRehash m1 <? _elemCount m1); [|done].
      by destruct (_resize HashFuncT m1).
Qed.


(** What [insert] leaves alone, in terms of the stored entries. *)
Lemma insert_frame_room (m m' : mapT) k v r :
  WF m -> room_for k v m ->
  2 * getMaxBucketSize m <= size_t.SIZE_MAX ->
  insert HashFuncT k v m = Some (r, m') ->
  WF m' /\
  (r = true <-> k ∉ (stored m).*1) /\
  search k m' = Some true /\
  (r = true -> stored m' ≡ₚ (k, v) :: stored m) /\
  (r = false -> m' = m) /\
  (forall e, e ∈ stored m -> e ∈ stored m') /\
  (forall k', k' <> k -> search k' m' = search k' m).
Proof.
  intros Hwf Hroom Hcap Hins.
  destruct (insert_WF_room m m' k v r Hwf Hroom Hcap Hins)
    as [Hwf' [(-> & -> & Hk) | (-> & Hk & Hst)]].
  - split; [done|]. split; [by split|].
    split; [by apply search_present|]. split; [done|]. by split.
  - assert (Hin : (k, v) ∈ stored m') by (rewrite Hst; left).
    split; [done|]. split; [by split|]. split.
    { apply search_present; [done|].
      by apply (list_elem_of_fmap_2 fst _ (k, v)). }
    split; [done|]. split; [done|]. split.
    + intros e He. rewrite Hst. by right.
    + intros k' Hne. apply search_agrees; [done | done |].
      rewrite Hst. simpl. rewrite elem_of_cons. split; [|by right].
      by intros [?|?].
Qed.

(** Uniqueness: the second insert of a key is refused and changes
    nothing, and the first entry stays. *)
Lemma insert_twice_room (m m1 : mapT) k v v2 :
  WF m -> room_for k v m ->
  2 * getMaxBucketSize m <= size_t.SIZE_MAX ->
  insert HashFuncT k v m = Some (true, m1) ->
  WF m1 /\ (k, v) ∈ stored m1 /\ insert HashFuncT k v2 m1 = Some (false, m1).
Proof.
  intros Hwf Hroom Hcap Hins.
  destruct (insert_true_inv_room m m1 k v Hwf Hroom Hcap Hins)
    as (_ & Hwf1 & Hst1).
  assert (Hin : (k, v) ∈ stored m1) by (rewrite Hst1; left).
  split; [done|]. split; [done|].
  apply insert_present; [done|].
  by apply (list_elem_of_fmap_2 fst _ (k, v)).
Qed.

(** The loop of [rehash], with the room counted bucket by bucket. *)
Lemma rehash_loop_spread desired maxTries left :
  forall m : mapT,
    WF m -> spread (getMaxBucketSize m) m -> maxTries <> INT_MAX ->
    exists m',
      rehash_loop HashFuncT desired maxTries left m = Some m' /\ WF m' /\
      getMaxBucketSize m' = getMaxBucketSize m /\ stored m' ≡ₚ stored m.
Proof.
  induction left as [|left IH]; intros m Hwf Hsp Hmax; simpl.
  - destruct (float.gtb (load_factor m) desired); [|by exists m].
    rewrite (proj2 (Z.eqb_neq _ _) Hmax). by exists m.
  - destruct (float.gtb (load_factor m) desired); [|by exists m].
    destruct (_rehash_spec m (getMaxBucketSize m))
      as (m1 & Hrun & Hwf1 & Hst1 & Hsz1 & _); try apply Hwf; [done|].
    rewrite Hrun. simpl.
    destruct (IH m1 Hwf1) as (m' & Hloop & Hwf' & Hsz' & Hst'); [|done|].
    { intros i. rewrite Hsz1.
      assert (Hlen :
        length (filter
                  (fun e => N.to_nat (HashFuncT (getMaxBucketSize m) e.1) = i)
                  (stored m1))
        = length (filter
                    (fun e => N.to_nat (HashFuncT (getMaxBucketSize m) e.1) = i)
                    (stored m)))
        by (by rewrite Hst1).
      rewrite Hlen. apply Hsp. }
    exists m'. split; [done|]. split; [done|]. split; [congruence|].
    by rewrite Hst', Hst1.
Qed.



(** *** The fresh map *)

Lemma make_holds_no_key size nextRehash :
  0 < size -> barrier size DefaultRehashPolicy = Some nextRehash ->
  exists m,
    make HashFuncT size = Some m /\ WF m /\ stored m = [] /\
    getMaxBucketSize m = size /\ _elemCount m = 0 /\ _bucketCount m = 0 /\
    _nextRehash m = nextRehash /\
    forall k, search k m = Some false.
Proof.
  intros Hsize Hbar.
  destruct (make_spec size nextRehash Hsize Hbar)
    as (m & Hmk & Hwf & Hst & Hsz & He & Hb & Hn & _).
  exists m. do 7 (split; [done|]).
  intros k. destruct (search_stored m k Hwf) as ([|] & Hs & Hiff); [|done].
  assert (Hin : k ∈ (stored m).*1) by (by apply Hiff).
  rewrite Hst in Hin. by apply elem_of_nil in Hin.
Qed.

(** *** The default policy on a table of a power-of-two size *)

(** A power of two below [2 ^ 64] is a binary32 number, and its product
    with [1.0] is itself. *)
Lemma barrier_pow2 j :
  j <= 63 -> barrier (2 ^ j) DefaultRehashPolicy = Some (2 ^ j).
Proof.
  intros Hj.
  assert (Hall : forallb
                   (fun i => match barrier (2 ^ N.of_nat i)
                                     DefaultRehashPolicy with
                             | Some n => n =? 2 ^ N.of_nat i
                             | None => false
                             end) (seq 0 64) = true)
    by (vm_compute; reflexivity).
  rewrite forallb_forall in Hall.
  specialize (Hall (N.to_nat j)). rewrite N2Nat.id in Hall.
  assert (Hin : In (N.to_nat j) (seq 0 64)) by (apply in_seq; lia).
  specialize (Hall Hin).
  destruct (barrier (2 ^ j) DefaultRehashPolicy) as [n|]; [|done].
  f_equal. by apply N.eqb_eq.
Qed.

(** Under the default policy the barrier is the capacity, a power of two,
    and the element counter does not exceed it. *)
Record Doubling (m : mapT) : Prop := {
  doubling_wf : WF m;
  doubling_policy : _rehashPolicy m = DefaultRehashPolicy;
  doubling_capacity : exists j, j <= 62 /\ getMaxBucketSize m = 2 ^ j;
  doubling_barrier : _nextRehash m = getMaxBucketSize m;
  doubling_size : _elemCount m <= getMaxBucketSize m
}.

Lemma make_doubling j (m : mapT) :
  j <= 62 -> make HashFuncT (2 ^ j) = Some m -> Doubling m.
Proof.
  intros Hj Hmk.
  assert (Hpos : 0 < 2 ^ j) by (apply N.neq_0_lt_0, N.pow_nonzero; lia).
  destruct (make_spec (2 ^ j) (2 ^ j) Hpos)
    as (m0 & Hmk0 & Hwf & _ & Hsz & He & _ & Hn & Hp).
  { apply barrier_pow2. lia. }
  assert (m0 = m) as -> by congruence.
  split; try done.
  - by exists j.
  - by rewrite Hn, Hsz.
  - rewrite He. lia.
Qed.

Lemma insert_doubling (m m' : mapT) k v r :
  Doubling m -> Bucket.fits (S (length (stored m))) ->
  _elemCount m < 2 ^ 62 ->
  insert HashFuncT k v m = Some (r, m') -> Doubling m'.
Proof.
  intros [Hwf Hp (j & Hj & Hcap) Hn He] Hfits Hlt Hins.
  assert (Hpow : 2 ^ j <= 2 ^ 62) by (apply N.pow_le_mono_r; lia).
  change (2 ^ 62) with 4611686018427387904 in *.
  destruct (search_stored m k Hwf) as ([|] & _ & Hiff).
  { assert (Hk : k ∈ (stored m).*1) by (by apply Hiff).
    rewrite (insert_present m k v Hwf Hk) in Hins.
    injection Hins as <- <-. split; try done. by exists j. }
  assert (Hk : k ∉ (stored m).*1) by (intros ?%Hiff; done).
  assert (Hincr : size_t.incr (_elemCount m) = _elemCount m + 1).
  { apply size_t_facts.incr_small. rewrite size_t_facts.SIZE_MAX_eq. lia. }
  destruct (insert_growth m k v Hwf Hk Hfits) as [Hgrow Hstay].
  { rewrite Hcap, size_t_facts.SIZE_MAX_eq. lia. }
  rewrite Hincr, Hn, Hcap in *.
  destruct (N.le_gt_cases (_elemCount m + 1) (2 ^ j)) as [Hle|Hgt].
  - destruct (Hstay Hle) as (m1 & Hins1 & Hwf1 & _ & Hcap1 & Hn1 & _ & He1 & Hp1).
    assert (m1 = m') as -> by congruence.
    split; try done.
    + congruence.
    + exists j. split; [done | congruence].
    + congruence.
    + by rewrite He1, Hcap1.
  - assert (Heq : _elemCount m = 2 ^ j) by lia.
    assert (Hpos : 0 < 2 ^ j) by (apply N.neq_0_lt_0, N.pow_nonzero; lia).
    assert (Hj' : j < 62).
    { apply (N.pow_lt_mono_r_iff 2); [lia|]. rewrite <- Heq.
      by change (2 ^ 62) with 4611686018427387904. }
    assert (Hdouble : 2 * 2 ^ j = 2 ^ (j + 1))
      by (by rewrite N.add_1_r, N.pow_succ_r').
    destruct (Hgrow Hgt (2 ^ (j + 1)))
      as (m1 & bs & Hins1 & Hwf1 & _ & Hcap1 & Hn1 & _ & He1 & Hp1 & _).
    { rewrite Hp, Hdouble. apply barrier_pow2. lia. }
    assert (m1 = m') as -> by congruence.
    split; try done.
    + congruence.
    + exists (j + 1). split; [lia | congruence].
    + congruence.
    + rewrite He1, Hcap1. lia.
Qed.

(** The maps that the constructor, at a power-of-two size, and [insert]
    build under the default policy. *)
Inductive filled : mapT -> Prop :=
| filled_make j m :
    j <= 62 -> make HashFuncT (2 ^ j) = Some m -> filled m
| filled_insert m key item r m' :
    filled m -> Bucket.fits (S (length (stored m))) ->
    _elemCount m < 2 ^ 62 ->
    insert HashFuncT key item m = Some (r, m') -> filled m'.

Lemma filled_doubling (m : mapT) : filled m -> Doubling m.
Proof.
  induction 1 as [j m Hj Hmk | m key item r m' _ IH Hfits Hlt Hins].
  - by eapply make_doubling.
  - by eapply insert_doubling.
Qed.

(** *** The two counters along [insert] and [rehash] *)

Context `{!BucketCounts.Laws BucketT}.

(** [size()] is the number of entries and [getBucketCount()] the number
    of buckets in use. *)
Record Counted (m : mapT) : Prop := {
  counted_elems : _elemCount m = N.of_nat (length (stored m));
  counted_buckets : _bucketCount m = active_buckets m
}.

Lemma new_size : Bucket.size (Bucket.new (BucketT := BucketT)) = 0.
Proof.
  rewrite (BucketCounts.size_entries _ Bucket.wf_new).
  by rewrite Bucket.entries_new.
Qed.

Lemma make_counted size (m : mapT) :
  make HashFuncT size = Some m -> Counted m.
Proof.
  unfold make. destruct (barrier size DefaultRehashPolicy); [|done].
  simpl. intros [= <-]. split; simpl.
  - unfold stored. simpl. by rewrite replicate_new_entries.
  - unfold active_buckets. simpl.
    symmetry. apply (actives_replicate Bucket.size), new_size.
Qed.

(** Whatever the counter held before, [_rehash] sets it to the number of
    buckets in use. *)
Lemma _rehash_recounts (m m' : mapT) size :
  Forall Bucket.wf (_buckets m) -> NoDup (stored m).*1 ->
  0 < size -> size <= size_t.SIZE_MAX -> spread size m ->
  _rehash HashFuncT size m = Some m' ->
  WF m' /\ stored m' ≡ₚ stored m /\ getMaxBucketSize m' = size /\
  _elemCount m' = _elemCount m /\ _nextRehash m' = _nextRehash m /\
  _bucketCount m' = active_buckets m'.
Proof.
  intros Hbs Hnd Hsize Hmax Hfits Hrun.
  destruct (_rehash_spec m size Hbs Hnd Hsize Hfits)
    as (m0 & Hrun0 & Hwf & Hst & Hsz & _ & He & Hn & _ & Hre).
  assert (m0 = m') as -> by congruence.
  do 5 (split; [done|]).
  apply (BucketCounts.reorganize_used (_buckets m) size (HashFuncT size));
    try done.
  intros e _. by apply HashFuncT_range.
Qed.

Lemma _resize_counted (m m' : mapT) :
  WF m -> _elemCount m = N.of_nat (length (stored m)) ->
  Bucket.fits (length (stored m)) ->
  2 * getMaxBucketSize m <= size_t.SIZE_MAX ->
  _resize HashFuncT m = Some m' ->
  WF m' /\ Counted m' /\ stored m' ≡ₚ stored m /\
  getMaxBucketSize m' = 2 * getMaxBucketSize m.
Proof.
  intros Hwf He Hfits Hcap. unfold _resize.
  rewrite size_t_facts.mul_small by lia.
  destruct (barrier _ _) as [nr|]; [|done]. simpl. intros Hrun.
  destruct (_rehash_recounts (set_nextRehash nr m) m'
              (getMaxBucketSize m * 2))
    as (Hwf' & Hst & Hsz & He' & _ & Hbc); try done.
  - apply (WF_buckets m Hwf).
  - apply (WF_NoDup m Hwf).
  - pose proof (WF_capacity m Hwf). lia.
  - lia.
  - by apply fits_spread.
  - split; [done|]. split; [|split; [done | lia]].
    split; [|done]. rewrite He'. simpl. by rewrite He, Hst.
Qed.

Lemma _rehash_recount_spec (m : mapT) size :
  WF m -> 0 < size -> size <= size_t.SIZE_MAX -> spread size m ->
  exists m',
    _rehash HashFuncT size m = Some m' /\ WF m' /\
    stored m' ≡ₚ stored m /\ getMaxBucketSize m' = size /\
    _elemCount m' = _elemCount m /\
    _bucketCount m' = active_buckets m'.
Proof.
  intros Hwf Hsize Hmax Hfits.
  destruct (_rehash_spec m size) as (m' & Hrun & _); try done;
    try apply Hwf.
  destruct (_rehash_recounts m m' size)
    as (Hwf' & Hst & Hsz & He & _ & Hbc); try done; try apply Hwf.
  by exists m'.
Qed.

Lemma _resize_recount_spec (m : mapT) nextRehash :
  WF m -> 2 * getMaxBucketSize m <= size_t.SIZE_MAX ->
  spread (2 * getMaxBucketSize m) m ->
  barrier (2 * getMaxBucketSize m) (_rehashPolicy m) = Some nextRehash ->
  exists m',
    _resize HashFuncT m = Some m' /\ WF m' /\
    stored m' ≡ₚ stored m /\
    getMaxBucketSize m' = 2 * getMaxBucketSize m /\
    _elemCount m' = _elemCount m /\ _nextRehash m' = nextRehash /\
    _bucketCount m' = active_buckets m'.
Proof.
  intros Hwf Hcap Hfits Hbar.
  destruct (_resize_spec m nextRehash)
    as (m' & Hrun & Hwf' & Hst & Hsz & _ & He & Hn & _ & Hre);
    try done; try apply Hwf.
  exists m'. do 6 (split; [done|]).
  apply (BucketCounts.reorganize_used (_buckets m) (2 * getMaxBucketSize m)
           (HashFuncT (2 * getMaxBucketSize m))); try done;
    try apply Hwf.
  intros e _. apply HashFuncT_range. pose proof (WF_capacity m Hwf). lia.
Qed.

Lemma insert_absent_counted (m : mapT) k v :
  WF m -> Counted m -> k ∉ (stored m).*1 ->
  Bucket.fits (S (length (stored m))) ->
  getMaxBucketSize m <= size_t.SIZE_MAX ->
  exists m1,
    WF m1 /\ Counted m1 /\ stored m1 ≡ₚ (k, v) :: stored m /\
    getMaxBucketSize m1 = getMaxBucketSize m /\
    insert HashFuncT k v m =
      if _nextRehash m1 <? _elemCount m1
      then m4 ← _resize HashFuncT m1; Some (true, m4)
      else Some (true, m1).
Proof.
  intros Hwf [He Hbc] Hk Hfits Hcap.
  destruct (home_bucket m k Hwf) as (b & Hb & Hwfb).
  destruct (Bucket.insert_new b k v Hwfb) as (b' & Hins & Hwfb' & Hent).
  { eapply Bucket.fits_le; [exact Hfits|].
    apply le_n_S, (bind_length_lookup _ _ _ _ Hb). }
  { by rewrite <- (key_stored_home m k b). }
  destruct (WF_grow m k v b b' Hwf Hb Hwfb' Hent Hk) as [Hwf1 Hst1].
  pose proof (BucketCounts.fits_size_t _ Hfits) as Hroom.
  assert (Hsz : Bucket.size b' = Bucket.size b + 1).
  { rewrite (BucketCounts.size_entries b' Hwfb'),
      (BucketCounts.size_entries b Hwfb), Hent. simpl. lia. }
  unfold insert. rewrite Hb. simpl. rewrite Hins. simpl.
  exists (set_elemCount (size_t.incr (_elemCount m))
            (set_bucketCount
               (size_t.add (_bucketCount m)
                  (size_t.of_bool (Bucket.size b' =? 1)))
               (set_buckets (<[N.to_nat (_hFunc m k):=b']> (_buckets m)) m))).
  split; [|split; [|split; [|split; [|reflexivity]]]].
  - apply WF_set_elemCount, WF_set_bucketCount. exact Hwf1.
  - split; simpl.
    + change (size_t.incr (_elemCount m)
              = N.of_nat (length (stored (set_buckets
                   (<[N.to_nat (_hFunc m k):=b']> (_buckets m)) m)))).
      rewrite Hst1, He. simpl.
      rewrite size_t_facts.incr_small by lia. lia.
    + unfold active_buckets. simpl. rewrite Hbc.
      apply (used_step Bucket.size (_buckets m) _ b b'); done.
  - exact Hst1.
  - unfold getMaxBucketSize. simpl. by rewrite length_insert.
Qed.

Lemma insert_counted (m m' : mapT) k v r :
  WF m -> Counted m -> Bucket.fits (S (length (stored m))) ->
  2 * getMaxBucketSize m <= size_t.SIZE_MAX ->
  insert HashFuncT k v m = Some (r, m') ->
  WF m' /\ Counted m'.
Proof.
  intros Hwf Hcnt Hfits Hcap Hins.
  destruct (search_stored m k Hwf) as ([|] & _ & Hiff).
  - assert (Hk : k ∈ (stored m).*1) by (by apply Hiff).
    rewrite (insert_present m k v Hwf Hk) in Hins.
    by injection Hins as <- <-.
  - assert (Hk : k ∉ (stored m).*1) by (intros ?%Hiff; done).
    destruct (insert_absent_counted m k v Hwf Hcnt Hk Hfits)
      as (m1 & Hwf1 & Hcnt1 & Hst1 & Hcap1 & Heq); [lia|].
    rewrite Heq in Hins.
    destruct (_nextRehash m1 <? _elemCount m1).
    + destruct (_resize HashFuncT m1) as [m4|] eqn:Hres; [|done].
      injection Hins as <- <-.
      destruct (_resize_counted m1 m4 Hwf1) as (Hwf4 & Hcnt4 & _);
        try done.
      * apply (counted_elems m1 Hcnt1).
      * by rewrite Hst1.
      * by rewrite Hcap1.
    + by injection Hins as <- <-.
Qed.

Lemma rehash_loop_counted desired maxTries left :
  forall m m' : mapT,
    WF m -> Counted m -> Bucket.fits (length (stored m)) ->
    getMaxBucketSize m <= size_t.SIZE_MAX ->
    rehash_loop HashFuncT desired maxTries left m = Some m' ->
    WF m' /\ Counted m'.
Proof.
  induction left as [|left IH]; intros m m' Hwf Hcnt Hfits Hcap; simpl.
  - destruct (float.gtb (load_factor m) desired); [|by intros [= <-]].
    destruct (maxTries =? INT_MAX)%Z; [done | by intros [= <-]].
  - destruct (float.gtb (load_factor m) desired); [|by intros [= <-]].
    destruct (_rehash HashFuncT (getMaxBucketSize m) m) as [m1|] eqn:Hrun;
      [|done].
    simpl. intros Hloop.
    destruct (_rehash_recounts m m1 (getMaxBucketSize m))
      as (Hwf1 & Hst1 & Hsz1 & He1 & _ & Hbc1); try done;
      try apply Hwf.
    { by apply fits_spread. }
    apply (IH m1 m'); try done.
    + split; [|done]. by rewrite He1, (counted_elems m Hcnt), Hst1.
    + by rewrite Hst1.
    + by rewrite Hsz1.
Qed.

(** The maps that the constructor, [insert] and [rehash] build. *)
Inductive grown : mapT -> Prop :=
| grown_make size m :
    0 < size -> make HashFuncT size = Some m -> grown m
| grown_insert m key item r m' :
    grown m -> Bucket.fits (S (length (stored m))) ->
    2 * getMaxBucketSize m <= size_t.SIZE_MAX ->
    insert HashFuncT key item m = Some (r, m') -> grown m'
| grown_rehash m desired maxTries r m' :
    grown m -> Bucket.fits (length (stored m)) ->
    getMaxBucketSize m <= size_t.SIZE_MAX ->
    rehash HashFuncT desired maxTries m = Some (r, m') -> grown m'.

Lemma grown_counted (m : mapT) : grown m -> WF m /\ Counted m.
Proof.
  induction 1 as [size m Hsize Hmk
                 |m key item r m' _ [Hwf Hcnt] Hfits Hcap Hins
                 |m desired maxTries r m' _ [Hwf Hcnt] Hfits Hcap Hre].
  - split; [by destruct (make_WF size m Hsize Hmk) | by eapply make_counted].
  - by eapply insert_counted.
  - unfold rehash in Hre.
    destruct (rehash_loop HashFuncT desired maxTries (Z.to_nat maxTries) m)
      as [m1|] eqn:Hloop; [|done].
    injection Hre as _ <-. by eapply rehash_loop_counted.
Qed.

End generic.

(** *** Facts that hold for every bucket class *)

Section any_bucket.
Context {KeyT ItemT : Type}.
Variable HashFuncT : N -> KeyT -> N.
Context {BucketT : Type} `{!Bucket.T KeyT ItemT BucketT}.

Local Abbreviation mapT := (_chainHashingMapT.t KeyT BucketT).

(** The element counter is not touched by a removal. *)
Lemma remove_keeps_size (m m' : mapT) key :
  remove key m = Some m' -> size m' = size m.
Proof.
  unfold remove.
  destruct (_buckets m !! N.to_nat (_hFunc m key)) as [b|]; [|done]. simpl.
  destruct (Bucket.remove key b) as [b'|]; [|done]. simpl.
  by intros [= <-].
Qed.

Lemma safeRemove_keeps_size (m m' : mapT) key r :
  safeRemove key m = Some (r, m') -> size m' = size m.
Proof.
  unfold safeRemove.
  destruct (_buckets m !! N.to_nat (_hFunc m key)) as [b|]; [|done]. simpl.
  destruct (Bucket.safeRemove key b) as [[r' b']|]; [|done]. simpl.
  by intros [= _ <-].
Qed.

(** The active-bucket counter goes down whenever the target bucket is
    empty after the call, whatever the bucket reports. *)
Lemma safeRemove_counts_an_empty_bucket (m : mapT) key b b' r :
  _buckets m !! N.to_nat (_hFunc m key) = Some b ->
  Bucket.safeRemove key b = Some (r, b') ->
  Bucket.size b' = 0 ->
  exists m',
    safeRemove key m = Some (r, m') /\
    getBucketCount m' = size_t.sub (getBucketCount m) 1.
Proof.
  intros Hb Hrem Hsize. unfold safeRemove. rewrite Hb. simpl.
  rewrite Hrem. simpl. eexists. split; [done|].
  unfold getBucketCount. simpl. by rewrite Hsize.
Qed.

(** Below the desired ratio [rehash] returns [true] at once. *)
Lemma rehash_below_ratio desired maxTries (m : mapT) :
  float.ltb (load_factor m) desired = true ->
  rehash HashFuncT desired maxTries m = Some (true, m).
Proof.
  intros Hlt. unfold rehash.
  assert (Hloop : rehash_loop HashFuncT desired maxTries
                    (Z.to_nat maxTries) m = Some m).
  { destruct (Z.to_nat maxTries); simpl;
      by rewrite (float_facts.ltb_not_gtb _ _ Hlt). }
  rewrite Hloop. simpl. by rewrite Hlt.
Qed.

(** [rehash] and [_rehash] leave the element counter alone. *)
Lemma rehash_loop_size desired maxTries left :
  forall m m' : mapT,
    rehash_loop HashFuncT desired maxTries left m = Some m' ->
    size m' = size m.
Proof.
  induction left as [|left IH]; intros m m'; simpl.
  - destruct (float.gtb (load_factor m) desired); [|by intros [= <-]].
    destruct (maxTries =? INT_MAX)%Z; [done | by intros [= <-]].
  - destruct (float.gtb (load_factor m) desired); [|by intros [= <-]].
    unfold _rehash. simpl.
    destruct (Bucket.reorganizeBuckets _ _ _) as [[bs used]|]; [|done].
    simpl. intros Hloop. by rewrite (IH _ _ Hloop).
Qed.

Lemma rehash_size desired maxTries (m m' : mapT) r :
  rehash HashFuncT desired maxTries m = Some (r, m') -> size m' = size m.
Proof.
  unfold rehash.
  destruct (rehash_loop HashFuncT desired maxTries (Z.to_nat maxTries) m)
    as [m1|] eqn:Hloop; [|done].
  simpl. intros [= _ <-]. by eapply rehash_loop_size.
Qed.

(** With both counters at 0 the load factor is the NaN of [0.0f / 0.0f],
    and no comparison with a NaN holds. *)
Lemma load_factor_nan (m : mapT) :
  _elemCount m = 0 -> _bucketCount m = 0 -> load_factor m = S754_nan.
Proof. unfold load_factor. by intros -> ->. Qed.

Lemma rehash_nan desired maxTries (m : mapT) :
  load_factor m = S754_nan ->
  rehash HashFuncT desired maxTries m = Some (false, m).
Proof.
  intros Hnan. unfold rehash.
  assert (Hgt : float.gtb (load_factor m) desired = false).
  { rewrite Hnan. by destruct desired. }
  assert (Hloop : rehash_loop HashFuncT desired maxTries
                    (Z.to_nat maxTries) m = Some m).
  { destruct (Z.to_nat maxTries); simpl; by rewrite Hgt. }
  rewrite Hloop. simpl. by rewrite Hnan.
Qed.

(** Below the rehash barrier [insert] does not read the rehash policy. *)
Lemma insert_under_policy (m : mapT) p k v :
  size_t.incr (_elemCount m) <= _nextRehash m ->
  insert HashFuncT k v (set_rehashPolicy p m)
  = prod_map id (set_rehashPolicy p) <$> insert HashFuncT k v m.
Proof.
  intros Hle. unfold insert. simpl.
  destruct (_buckets m !! N.to_nat (_hFunc m k)) as [b|]; [|done]. simpl.
  destruct (Bucket.insert k v b) as [[[|] b']|]; [| |done]; simpl.
  - by rewrite (proj2 (N.ltb_ge _ _) Hle).
  - done.
Qed.

(** A map constructed with size 0 has an empty bucket vector. *)
Lemma make_zero :
  make (BucketT := BucketT) HashFuncT 0
  = Some {| _hFunc := HashFuncT 0;
            _rehashPolicy := DefaultRehashPolicy;
            _nextRehash := 0;
            _elemCount := 0;
            _bucketCount := 0;
            _buckets := [] |}.
Proof. reflexivity. Qed.

End any_bucket.
End MapFacts.

(** ** Maps over chain buckets: every state the interface builds is
    well formed *)

Module ChainMapFacts.
Import _chainHashingMapT.
Section chain_maps.
Context {KeyT ItemT : Type}.
Variable _comp : KeyT -> KeyT -> bool.
Variable ItemT_default : ItemT.
Variable HashFuncT : N -> KeyT -> N.
Hypothesis _comp_equal_to : forall a b, _comp a b = true <-> a = b.
Hypothesis HashFuncT_range : forall n k, 0 < n -> HashFuncT n k < n.

Local Abbreviation chainT := (LinkedListBucketT.t KeyT ItemT).
Local Abbreviation chainB := (LinkedListBucketT.bucket _comp ItemT_default).
Local Abbreviation chainL :=
  (LinkedListBucketT_laws.laws _comp ItemT_default _comp_equal_to).
Local Abbreviation mapT := (_chainHashingMapT.t KeyT chainT).
Local Abbreviation WF := (@MapFacts.WF KeyT ItemT chainT chainB chainL).
Local Abbreviation stored :=
  (@MapFacts.stored KeyT ItemT chainT chainB chainL).
Local Abbreviation insert :=
  (@_chainHashingMapT.insert KeyT ItemT HashFuncT chainT chainB).
Local Abbreviation remove :=
  (@_chainHashingMapT.remove KeyT ItemT chainT chainB).
Local Abbreviation safeRemove :=
  (@_chainHashingMapT.safeRemove KeyT ItemT chainT chainB).
Local Abbreviation index :=
  (@_chainHashingMapT.index KeyT ItemT chainT chainB).
Local Abbreviation search :=
  (@_chainHashingMapT.search KeyT ItemT chainT chainB).
Local Abbreviation get :=
  (@_chainHashingMapT.get KeyT ItemT chainT chainB).
Local Abbreviation rehash :=
  (@_chainHashingMapT.rehash KeyT ItemT HashFuncT chainT chainB).
Local Abbreviation make :=
  (@_chainHashingMapT.make KeyT ItemT HashFuncT chainT chainB).

Lemma chain_safeRemove_WF (m m' : mapT) key r :
  WF m -> safeRemove key m = Some (r, m') ->
  r = true /\ WF m' /\ stored m' `sublist_of` stored m /\
  key ∉ (stored m').*1.
Proof.
  intros Hwf. unfold _chainHashingMapT.safeRemove.
  destruct (MapFacts.home_bucket m key Hwf) as (b & Hb & Hwfb).
  rewrite Hb. simpl.
  destruct (LinkedListBucketT.safeRemove _comp key b) as [[r' b']|] eqn:E;
    [|done].
  simpl. intros [= <- <-].
  destruct (LinkedListBucketT_laws.chain_safeRemove_spec
              _comp _comp_equal_to b b' key r' Hwfb E)
    as (-> & Hwfb' & Hsub & Hk).
  destruct (MapFacts.WF_shrink m _ b b' Hwf Hb Hwfb' Hsub) as [Hwf1 Hst1].
  split; [done|]. split; [by apply MapFacts.WF_set_bucketCount|].
  split; [done|].
  change (key ∉ (stored (set_buckets
                           (<[N.to_nat (_hFunc m key):=b']> (_buckets m))
                           m)).*1).
  rewrite (MapFacts.key_stored_home _ key b' Hwf1); [done|].
  simpl. apply list_lookup_insert_eq, (MapFacts.WF_range m Hwf).
Qed.

Lemma chain_remove_safeRemove (m : mapT) key :
  remove key m = snd <$> safeRemove key m.
Proof.
  unfold _chainHashingMapT.remove, _chainHashingMapT.safeRemove.
  destruct (_buckets m !! N.to_nat (_hFunc m key)) as [b|]; [|done]. simpl.
  unfold LinkedListBucketT.remove.
  by destruct (LinkedListBucketT.safeRemove _comp key b) as [[r b']|].
Qed.

Lemma chain_remove_WF (m m' : mapT) key :
  WF m -> remove key m = Some m' ->
  WF m' /\ stored m' `sublist_of` stored m /\ key ∉ (stored m').*1.
Proof.
  intros Hwf. rewrite chain_remove_safeRemove.
  destruct (safeRemove key m) as [[r m1]|] eqn:E; [|done].
  simpl. intros [= <-].
  by destruct (chain_safeRemove_WF m m1 key r Hwf E) as (_ & ?).
Qed.

Lemma chain_index_WF (m m' : mapT) key item :
  WF m -> Bucket.fits (Laws := chainL) (S (length (stored m))) ->
  index key m = Some (item, m') ->
  WF m' /\
  (((key, item) ∈ stored m /\ m' = m) \/
   ((key ∉ (stored m).*1) /\ item = ItemT_default /\
    stored m' ≡ₚ (key, ItemT_default) :: stored m)).
Proof.
  intros Hwf Hfits. unfold _chainHashingMapT.index.
  destruct (MapFacts.home_bucket m key Hwf) as (b & Hb & Hwfb).
  rewrite Hb. simpl.
  destruct (LinkedListBucketT.search _comp key b) eqn:Hs.
  - apply (LinkedListBucketT_laws.chain_search_spec _comp _comp_equal_to)
      in Hs.
    apply list_elem_of_fmap in Hs as ([k v] & -> & Hin). simpl.
    pose proof (LinkedListBucketT_laws.chain_get_spec
                  _comp ItemT_default _comp_equal_to b k v Hwfb Hin) as Hget.
    unfold LinkedListBucketT.get in Hget. rewrite Hget.
    rewrite list_insert_id, MapFacts.set_buckets_id by done.
    intros [= <- <-]. split; [done|]. left. split; [|done].
    apply MapFacts.stored_bucket. eauto.
  - assert (Hk : key ∉ (LinkedListBucketT_laws.entries b).*1).
    { intros Hin.
      apply (LinkedListBucketT_laws.chain_search_spec _comp _comp_equal_to)
        in Hin. congruence. }
    destruct (LinkedListBucketT_laws.chain_safeGet_new
                _comp ItemT_default _comp_equal_to b key Hwfb)
      as (b' & Hget & Hwfb' & Hent); [|done|].
    { eapply (Bucket.fits_le (Laws := chainL)); [exact Hfits|].
      apply le_n_S, (bind_length_lookup _ _ _ _ Hb). }
    rewrite Hget. intros [= <- <-].
    assert (Hkm : key ∉ (stored m).*1)
      by (by rewrite (MapFacts.key_stored_home m key b Hwf Hb)).
    destruct (MapFacts.WF_grow m key ItemT_default b b' Hwf Hb Hwfb')
      as [Hwf1 Hst1]; [|done|].
    { change (LinkedListBucketT_laws.entries b'
              ≡ₚ (key, ItemT_default) :: LinkedListBucketT_laws.entries b).
      by rewrite Hent. }
    split; [done|]. right. done.
Qed.

(** On chain buckets [get] is [operator[]]: the bucket's [get] is its
    [safeGet]. *)
Lemma chain_get_is_index (m : mapT) key : get key m = index key m.
Proof. reflexivity. Qed.

(** [operator[]] on a stored key reads its item and changes nothing. *)
Lemma chain_index_stored (m : mapT) key item :
  WF m -> (key, item) ∈ stored m -> index key m = Some (item, m).
Proof.
  intros Hwf Hin.
  destruct (MapFacts.stored_home m _ Hwf Hin) as (b & Hb & Heb).
  simpl in Hb.
  pose proof (Forall_lookup_1 _ _ _ _ (MapFacts.WF_buckets m Hwf) Hb) as Hwfb.
  pose proof (LinkedListBucketT_laws.chain_get_spec
                _comp ItemT_default _comp_equal_to b key item Hwfb Heb)
    as Hget.
  unfold LinkedListBucketT.get in Hget.
  unfold _chainHashingMapT.index. rewrite Hb. simpl. rewrite Hget. simpl.
  by rewrite list_insert_id, MapFacts.set_buckets_id.
Qed.

(** *** The states reachable through the interface *)

(** [roomy m]: one more entry and a doubled capacity are still counted
    without wrapping. *)
Definition roomy (m : mapT) : Prop :=
  Bucket.fits (Laws := chainL) (S (length (stored m))) /\
  2 * getMaxBucketSize m <= size_t.SIZE_MAX.

Inductive built : mapT -> Prop :=
| built_make size m :
    0 < size -> make size = Some m -> built m
| built_insert m key item r m' :
    built m -> roomy m -> insert key item m = Some (r, m') -> built m'
| built_remove m key m' :
    built m -> remove key m = Some m' -> built m'
| built_safeRemove m key r m' :
    built m -> safeRemove key m = Some (r, m') -> built m'
| built_index m key item m' :
    built m -> roomy m -> index key m = Some (item, m') -> built m'
| built_get m key item m' :
    built m -> roomy m -> get key m = Some (item, m') -> built m'
| built_rehash m desired maxTries r m' :
    built m -> roomy m -> rehash desired maxTries m = Some (r, m') ->
    built m'.

(** X7 (the representation invariant of chain-bucket maps). Every map
    built from the sized constructor by calls of [insert], [remove],
    [safeRemove], [operator[]], [get] and [rehash] that return, with room
    for one more entry and for a doubled table at each call that can add
    one, is well formed: there is a bucket, every hash indexes the bucket
    vector, every bucket has as many nodes as its [size()] says, every
    entry sits in the bucket its key hashes to, and no key is stored
    twice. *)
Lemma built_WF (m : mapT) : built m -> WF m.
Proof.
  induction 1 as [size m Hsize Hmk
                 |m key item r m' _ IH [Hfits Hcap] Hins
                 |m key m' _ IH Hrem
                 |m key r m' _ IH Hrem
                 |m key item m' _ IH [Hfits _] Hidx
                 |m key item m' _ IH [Hfits _] Hget
                 |m desired maxTries r m' _ IH [Hfits _] Hre].
  - by destruct (@MapFacts.make_WF _ _ HashFuncT _ chainB chainL
                   HashFuncT_range size m Hsize Hmk).
  - by destruct (@MapFacts.insert_WF _ _ HashFuncT _ chainB chainL
                   HashFuncT_range m m' key item r IH Hfits Hcap Hins).
  - by destruct (chain_remove_WF m m' key IH Hrem).
  - by destruct (chain_safeRemove_WF m m' key r IH Hrem) as (_ & ? & _).
  - by destruct (chain_index_WF m m' key item IH Hfits Hidx).
  - rewrite chain_get_is_index in Hget.
    by destruct (chain_index_WF m m' key item IH Hfits Hget).
  - eapply (@MapFacts.rehash_WF _ _ HashFuncT _ chainB chainL
              HashFuncT_range); [exact IH| |exact Hre].
    eapply (Bucket.fits_le (Laws := chainL)); [exact Hfits | lia].
Qed.

End chain_maps.
End ChainMapFacts.

(** ** Maps over probe buckets *)

Module ProbeMapFacts.
Import _chainHashingMapT.
Section probe_maps.
Context {KeyT ItemT : Type}.
Variable _comp : KeyT -> KeyT -> bool.
Variable ItemT_default : ItemT.
Hypothesis _comp_equal_to : forall a b, _comp a b = true <-> a = b.
Context {MapT : Type} `{!PlainMap.T KeyT ItemT MapT} `{!PlainMap.Laws MapT}.
Variable fuel : nat.

Local Abbreviation probeT := (PlainHashBucketT.t MapT).
Local Abbreviation probeB :=
  (PlainHashBucketT.bucket _comp ItemT_default (S fuel)).
Local Abbreviation probeL :=
  (PlainHashBucketT_laws.laws _comp ItemT_default _comp_equal_to fuel).
Local Abbreviation mapT := (_chainHashingMapT.t KeyT probeT).
Local Abbreviation WF := (@MapFacts.WF KeyT ItemT probeT probeB probeL).
Local Abbreviation stored :=
  (@MapFacts.stored KeyT ItemT probeT probeB probeL).

(** [operator[]] on a stored key reads its item and changes nothing. *)
Lemma probe_index_stored (m : mapT) key item :
  WF m -> (key, item) ∈ stored m ->
  @index KeyT ItemT probeT probeB key m = Some (item, m).
Proof.
  intros Hwf Hin.
  destruct (MapFacts.stored_home m _ Hwf Hin) as (b & Hb & Heb).
  simpl in Hb.
  pose proof (Forall_lookup_1 _ _ _ _ (MapFacts.WF_buckets m Hwf) Hb) as Hwfb.
  unfold index. rewrite Hb. simpl. unfold PlainHashBucketT.safeGet.
  rewrite (PlainMap.search_present _ key item
             (PlainHashBucketT_laws.wf_map b Hwfb) Heb).
  simpl. by rewrite list_insert_id, MapFacts.set_buckets_id.
Qed.

End probe_maps.
End ProbeMapFacts.

(** * The properties of the design document *)

(** ** A concrete instantiation

  Keys and items are numbers, the comparer is their equality, and the
  hash function is the remainder modulo the table size. *)

Module Demo.

Definition HashFuncT (size key : N) : N := key mod size.

Lemma HashFuncT_range n k : 0 < n -> HashFuncT n k < n.
Proof. intros Hn. apply N.mod_lt. lia. Qed.

Definition chainT : Type := LinkedListBucketT.t N N.
Definition chain : Bucket.T N N chainT := LinkedListBucketT.bucket N.eqb 0.
Definition chain_laws : @Bucket.Laws N N chainT chain :=
  LinkedListBucketT_laws.laws N.eqb 0 N.eqb_eq.

Definition tableT : Type := PlainTable.t N N.
Definition table : PlainMap.T N N tableT := PlainTable.table HashFuncT 0 0.
Definition table_laws : @PlainMap.Laws N N tableT table :=
  PlainTable_laws.laws HashFuncT 0 0.

Definition probeT : Type := PlainHashBucketT.t tableT.
Definition probe (fuel : nat) : Bucket.T N N probeT :=
  @PlainHashBucketT.bucket N N N.eqb 0 tableT table fuel.
Definition probe_laws (fuel : nat)
  : @Bucket.Laws N N probeT (probe (S fuel)) :=
  @PlainHashBucketT_laws.laws N N N.eqb 0 N.eqb_eq tableT table table_laws
                              fuel.

(** [ChainingHashMap(initialSize=8)] over chain buckets. *)
Definition chain_map : option (_chainHashingMapT.t N chainT) :=
  @_chainHashingMapT.make N N HashFuncT chainT chain 8.

(** [ChainingHashMap(initialSize=8)] over probe buckets. *)
Definition probe_map (fuel : nat) : option (_chainHashingMapT.t N probeT) :=
  @_chainHashingMapT.make N N HashFuncT probeT (probe fuel) 8.

(** The probe bucket after [safeGet] of the absent keys 0, 8, 16 and 24,
    which all hash to bucket 0 of a table of eight: its table of four
    slots is full and its element count is still 0. *)
Definition full_bucket : probeT :=
  PlainHashBucketT.Build 0 2
    (PlainTable.Build
       [(0, 0, true); (8, 0, true); (16, 0, true); (24, 0, true)]).

Definition full_probe_map : _chainHashingMapT.t N probeT :=
  {| _chainHashingMapT._hFunc := HashFuncT 8;
     _chainHashingMapT._rehashPolicy := float.one;
     _chainHashingMapT._nextRehash := 8;
     _chainHashingMapT._elemCount := 0;
     _chainHashingMapT._bucketCount := 0;
     _chainHashingMapT._buckets :=
       <[0%nat := full_bucket]>
         (replicate 8 (@PlainHashBucketT.new N N tableT table)) |}.

(** [operator[]] applied to each key in turn. *)
Definition index_each (fuel : nat) (keys : list N)
    (m : _chainHashingMapT.t N probeT)
    : option (_chainHashingMapT.t N probeT) :=
  foldl (fun r key =>
           m' ← r; snd <$> @_chainHashingMapT.index N N probeT (probe fuel) key m')
        (Some m) keys.

Lemma full_probe_map_eq fuel :
  (m0 ← probe_map fuel; index_each fuel [0; 8; 16; 24] m0)
  = Some full_probe_map.
Proof. reflexivity. Qed.

(** The empty chain-bucket map after [operator[]] on the key 5. *)
Definition vivified_chain_map : _chainHashingMapT.t N chainT :=
  {| _chainHashingMapT._hFunc := HashFuncT 8;
     _chainHashingMapT._rehashPolicy := float.one;
     _chainHashingMapT._nextRehash := 8;
     _chainHashingMapT._elemCount := 0;
     _chainHashingMapT._bucketCount := 0;
     _chainHashingMapT._buckets :=
       <[5%nat := LinkedListBucketT.Build 1 [LinkedListBucketT.Node 0 5]]>
         (replicate 8 LinkedListBucketT.new) |}.

(** The two maps written out: the empty one, and the one that holds the
    key 1 with the item 7. *)
Definition empty_chain_map : _chainHashingMapT.t N chainT :=
  {| _chainHashingMapT._hFunc := HashFuncT 8;
     _chainHashingMapT._rehashPolicy := float.one;
     _chainHashingMapT._nextRehash := 8;
     _chainHashingMapT._elemCount := 0;
     _chainHashingMapT._bucketCount := 0;
     _chainHashingMapT._buckets := replicate 8 LinkedListBucketT.new |}.

Definition one_key_map : _chainHashingMapT.t N chainT :=
  {| _chainHashingMapT._hFunc := HashFuncT 8;
     _chainHashingMapT._rehashPolicy := float.one;
     _chainHashingMapT._nextRehash := 8;
     _chainHashingMapT._elemCount := 1;
     _chainHashingMapT._bucketCount := 1;
     _chainHashingMapT._buckets :=
       <[1%nat := LinkedListBucketT.Build 1 [LinkedListBucketT.Node 7 1]]>
         (replicate 8 LinkedListBucketT.new) |}.

Definition empty_probe_map (fuel : nat) : _chainHashingMapT.t N probeT :=
  {| _chainHashingMapT._hFunc := HashFuncT 8;
     _chainHashingMapT._rehashPolicy := float.one;
     _chainHashingMapT._nextRehash := 8;
     _chainHashingMapT._elemCount := 0;
     _chainHashingMapT._bucketCount := 0;
     _chainHashingMapT._buckets :=
       replicate 8 (@PlainHashBucketT.new N N tableT table) |}.

Lemma chain_map_eq : chain_map = Some empty_chain_map.
Proof. reflexivity. Qed.

Lemma probe_map_eq fuel : probe_map fuel = Some (empty_probe_map fuel).
Proof. reflexivity. Qed.

Lemma empty_chain_map_WF :
  @MapFacts.WF N N chainT chain chain_laws empty_chain_map.
Proof.
  destruct (@MapFacts.make_spec N N HashFuncT chainT chain chain_laws
              HashFuncT_range 8 8) as (m & Hmk & Hwf & _);
    [done | apply MapFacts.barrier_8 |].
  change (chain_map = Some m) in Hmk. rewrite chain_map_eq in Hmk.
  by injection Hmk as <-.
Qed.

Lemma empty_probe_map_WF fuel :
  @MapFacts.WF N N probeT (probe (S fuel)) (probe_laws fuel)
               (empty_probe_map (S fuel)).
Proof.
  destruct (@MapFacts.make_spec N N HashFuncT probeT (probe (S fuel))
              (probe_laws fuel) HashFuncT_range 8 8) as (m & Hmk & Hwf & _);
    [done | apply MapFacts.barrier_8 |].
  change (probe_map (S fuel) = Some m) in Hmk. rewrite probe_map_eq in Hmk.
  by injection Hmk as <-.
Qed.

Definition one_key_probe_map (fuel : nat) : _chainHashingMapT.t N probeT :=
  {| _chainHashingMapT._hFunc := HashFuncT 8;
     _chainHashingMapT._rehashPolicy := float.one;
     _chainHashingMapT._nextRehash := 8;
     _chainHashingMapT._elemCount := 1;
     _chainHashingMapT._bucketCount := 1;
     _chainHashingMapT._buckets :=
       <[1%nat :=
           PlainHashBucketT.Build 1 2
             (PlainTable.Build
                [(0, 0, false); (1, 7, true); (0, 0, false); (0, 0, false)])]>
         (replicate 8 (@PlainHashBucketT.new N N tableT table)) |}.

Lemma one_key_map_eq :
  @_chainHashingMapT.insert N N HashFuncT chainT chain 1 7 empty_chain_map
  = Some (true, one_key_map).
Proof. reflexivity. Qed.

Lemma one_key_probe_map_eq fuel :
  @_chainHashingMapT.insert N N HashFuncT probeT (probe (S fuel)) 1 7
     (empty_probe_map (S fuel))
  = Some (true, one_key_probe_map (S fuel)).
Proof. reflexivity. Qed.

(** The empty map with its rehash barrier lowered to 0, so that the next
    insert exceeds it. *)
Definition eager_chain_map : _chainHashingMapT.t N chainT :=
  @_chainHashingMapT.set_nextRehash N chainT 0 empty_chain_map.

Lemma eager_chain_map_WF :
  @MapFacts.WF N N chainT chain chain_laws eager_chain_map.
Proof. destruct empty_chain_map_WF. by split. Qed.

Lemma one_key_map_WF :
  @MapFacts.WF N N chainT chain chain_laws one_key_map.
Proof.
  eapply (@MapFacts.insert_true_inv N N HashFuncT chainT chain chain_laws
            HashFuncT_range empty_chain_map one_key_map 1 7).
  - exact empty_chain_map_WF.
  - vm_compute. discriminate.
  - vm_compute. discriminate.
  - exact one_key_map_eq.
Qed.

Definition chain_counts : @BucketCounts.Laws N N chainT chain chain_laws :=
  LinkedListBucketT_laws.counts N.eqb 0 N.eqb_eq.

Definition probe_counts (fuel : nat)
  : @BucketCounts.Laws N N probeT (probe (S fuel)) (probe_laws fuel) :=
  @PlainHashBucketT_laws.counts N N N.eqb 0 N.eqb_eq tableT table table_laws
                                fuel.

Lemma vivified_chain_map_eq :
  @_chainHashingMapT.index N N chainT chain 5 empty_chain_map
  = Some (0, vivified_chain_map).
Proof. reflexivity. Qed.

Lemma vivified_chain_map_WF :
  @MapFacts.WF N N chainT chain chain_laws vivified_chain_map.
Proof.
  eapply (ChainMapFacts.chain_index_WF N.eqb 0 N.eqb_eq
            empty_chain_map vivified_chain_map 5 0).
  - exact empty_chain_map_WF.
  - vm_compute. discriminate.
  - exact vivified_chain_map_eq.
Qed.

(** The chain bucket that holds the key 1 with the item 7. *)
Definition one_node_bucket : chainT :=
  LinkedListBucketT.Build 1 [LinkedListBucketT.Node 7 1].

Lemma one_node_bucket_wf : LinkedListBucketT_laws.wf one_node_bucket.
Proof.
  split; [split; [reflexivity | vm_compute; discriminate]|].
  apply NoDup_singleton.
Qed.

Definition table_removal : @PlainMapRemoval.Laws N N tableT table table_laws :=
  PlainTable_laws.removal HashFuncT 0 0.

(** The rehash policy 0.5. *)
Definition half : float.t := float.div float.one (float.of_size_t 2).

Lemma one_key_probe_map_WF fuel :
  @MapFacts.WF N N probeT (probe (S fuel)) (probe_laws fuel)
               (one_key_probe_map (S fuel)).
Proof.
  eapply (@MapFacts.insert_true_inv N N HashFuncT probeT (probe (S fuel))
            (probe_laws fuel) HashFuncT_range
            (empty_probe_map (S fuel)) (one_key_probe_map (S fuel)) 1 7).
  - exact (empty_probe_map_WF fuel).
  - vm_compute. lia.
  - vm_compute. discriminate.
  - exact (one_key_probe_map_eq fuel).
Qed.

(** Three entries: the keys 1 and 9 share bucket 1 of a table of eight
    and part in a table of sixteen. *)
Definition three_keys : list (N * N) := [(1, 10); (9, 90); (2, 20)].

Definition three_key_map : _chainHashingMapT.t N chainT :=
  {| _chainHashingMapT._hFunc := HashFuncT 8;
     _chainHashingMapT._rehashPolicy := float.one;
     _chainHashingMapT._nextRehash := 8;
     _chainHashingMapT._elemCount := 3;
     _chainHashingMapT._bucketCount := 2;
     _chainHashingMapT._buckets :=
       <[2%nat := LinkedListBucketT.Build 1 [LinkedListBucketT.Node 20 2]]>
         (<[1%nat := LinkedListBucketT.Build 2
                       [LinkedListBucketT.Node 90 9;
                        LinkedListBucketT.Node 10 1]]>
            (replicate 8 LinkedListBucketT.new)) |}.

Definition three_key_probe_map (fuel : nat) : _chainHashingMapT.t N probeT :=
  {| _chainHashingMapT._hFunc := HashFuncT 8;
     _chainHashingMapT._rehashPolicy := float.one;
     _chainHashingMapT._nextRehash := 8;
     _chainHashingMapT._elemCount := 3;
     _chainHashingMapT._bucketCount := 2;
     _chainHashingMapT._buckets :=
       <[2%nat :=
           PlainHashBucketT.Build 1 2
             (PlainTable.Build
                [(0, 0, false); (0, 0, false); (2, 20, true); (0, 0, false)])]>
         (<[1%nat :=
              PlainHashBucketT.Build 2 3
                (PlainTable.Build
                   [(0, 0, false); (1, 10, true); (9, 90, true);
                    (0, 0, false); (0, 0, false); (0, 0, false);
                    (0, 0, false); (0, 0, false)])]>
            (replicate 8 (@PlainHashBucketT.new N N tableT table))) |}.

Lemma three_key_map_eq :
  @MapFacts.insert_each N N HashFuncT chainT chain three_keys empty_chain_map
  = Some three_key_map.
Proof. reflexivity. Qed.

Lemma three_key_probe_map_eq fuel :
  @MapFacts.insert_each N N HashFuncT probeT (probe (S fuel)) three_keys
     (empty_probe_map (S fuel))
  = Some (three_key_probe_map (S fuel)).
Proof. reflexivity. Qed.

Lemma three_key_map_WF :
  @MapFacts.WF N N chainT chain chain_laws three_key_map.
Proof.
  destruct (@MapFacts.run_make N N HashFuncT chainT chain chain_laws
              HashFuncT_range) as (m0 & Hmk & Hrun0 & Hst0).
  change (chain_map = Some m0) in Hmk. rewrite chain_map_eq in Hmk.
  injection Hmk as <-.
  destruct (@MapFacts.run_each N N HashFuncT chainT chain chain_laws
              HashFuncT_range three_keys 0 empty_chain_map Hrun0)
    as (m & Heach & Hrun & _).
  - vm_compute. discriminate.
  - apply (bool_decide_unpack _). vm_compute. exact I.
  - intros e _. rewrite Hst0. apply not_elem_of_nil.
  - vm_compute. discriminate.
  - rewrite three_key_map_eq in Heach. injection Heach as <-. apply Hrun.
Qed.

Lemma three_key_probe_map_WF fuel :
  @MapFacts.WF N N probeT (probe (S fuel)) (probe_laws fuel)
               (three_key_probe_map (S fuel)).
Proof.
  destruct (@MapFacts.run_make N N HashFuncT probeT (probe (S fuel))
              (probe_laws fuel) HashFuncT_range) as (m0 & Hmk & Hrun0 & Hst0).
  change (probe_map (S fuel) = Some m0) in Hmk. rewrite probe_map_eq in Hmk.
  injection Hmk as <-.
  destruct (@MapFacts.run_each N N HashFuncT probeT (probe (S fuel))
              (probe_laws fuel) HashFuncT_range three_keys 0
              (empty_probe_map (S fuel)) Hrun0)
    as (m & Heach & Hrun & _).
  - vm_compute. lia.
  - apply (bool_decide_unpack _). vm_compute. exact I.
  - intros e _. rewrite Hst0. apply not_elem_of_nil.
  - vm_compute. discriminate.
  - rewrite three_key_probe_map_eq in Heach. injection Heach as <-.
    apply Hrun.
Qed.

(** The map of three entries with its rehash barrier lowered to 3 and
    its policy set to 0.5 through [accessRehashPolicy]: the next insert
    of a new key exceeds the barrier. *)
Definition crowded_probe_map (fuel : nat) : _chainHashingMapT.t N probeT :=
  @_chainHashingMapT.set_rehashPolicy N probeT half
    (@_chainHashingMapT.set_nextRehash N probeT 3 (three_key_probe_map fuel)).

Lemma crowded_probe_map_WF fuel :
  @MapFacts.WF N N probeT (probe (S fuel)) (probe_laws fuel)
               (crowded_probe_map (S fuel)).
Proof. destruct (three_key_probe_map_WF fuel). by split. Qed.



End Demo.

Section claims.
Import _chainHashingMapT.
Import Demo.

#[local] Existing Instance chain.
#[local] Existing Instance chain_laws.

(** C1 (count consistency fails on the code). The element counter and
    the active-bucket counter are not kept by every public operation:
    on a fresh chain-bucket map of eight buckets, [operator[]] on key 1
    stores the key and fills a bucket while [size()] and
    [getBucketCount()] stay 0; and [insert(1, 7)] followed by
    [remove(1)] leaves no key stored while [size()] stays 1. *)
Theorem count_consistency_broken :
  (exists m,
     (m0 ← chain_map; snd <$> index 1 m0) = Some m /\
     size m = 0 /\ (MapFacts.stored m).*1 = [1] /\
     getBucketCount m = 0 /\ MapFacts.active_buckets m = 1) /\
  (exists m,
     (m0 ← chain_map; '(_, m1) ← insert HashFuncT 1 7 m0; remove 1 m1)
     = Some m /\
     size m = 1 /\ (MapFacts.stored m).*1 = []).
Proof.
  split; eexists; (split; [vm_compute; reflexivity|]);
    repeat split; vm_compute; reflexivity.
Qed.

(** C4 (a missing-key [safeRemove] on the empty map). With chain
    buckets the removal scan reads through the null end of the chain, so
    nothing is returned; with probe buckets [false] is returned and
    [size()] stays 0, but the active-bucket counter is decremented
    although nothing was removed, and wraps from 0 to [SIZE_MAX]: the map
    is changed. *)
Theorem safeRemove_missing_on_empty_map :
  (m0 ← chain_map; safeRemove 999 m0) = None /\
  (exists m0 m,
     probe_map 1 = Some m0 /\
     @safeRemove N N probeT (probe 1) 999 m0 = Some (false, m) /\
     size m0 = 0 /\ size m = 0 /\
     getBucketCount m0 = 0 /\ getBucketCount m = size_t.SIZE_MAX /\
     m <> m0).
Proof.
  split; [vm_compute; reflexivity|].
  eexists. eexists. split; [vm_compute; reflexivity|].
  split; [vm_compute; reflexivity|].
  repeat split; try (vm_compute; reflexivity).
  intros H. apply (f_equal _bucketCount) in H. vm_compute in H. discriminate.
Qed.

(** C7 (the verdict of [rehash] at the ratio). On a chain-bucket map
    holding one key in one bucket the load factor is exactly 1.0; the
    loop of [rehash(1.0, 3)] does not run, since the load factor does
    not exceed the ratio, and the call still returns [false]. *)
Theorem rehash_at_the_ratio_returns_false :
  exists m,
    (m0 ← chain_map; snd <$> insert HashFuncT 1 7 m0) = Some m /\
    load_factor m = float.one /\
    float.gtb (load_factor m) float.one = false /\
    rehash HashFuncT float.one 3 m = Some (false, m).
Proof.
  eexists. split; [vm_compute; reflexivity|].
  repeat split; vm_compute; reflexivity.
Qed.



End claims.

Section uniqueness.
Import _chainHashingMapT.
Context {KeyT ItemT : Type}.
Variable _comp : KeyT -> KeyT -> bool.
Variable ItemT_default : ItemT.
Variable HashFuncT : N -> KeyT -> N.
Hypothesis _comp_equal_to : forall a b, _comp a b = true <-> a = b.
Hypothesis HashFuncT_range : forall n k, 0 < n -> HashFuncT n k < n.
Context {MapT : Type} `{!PlainMap.T KeyT ItemT MapT} `{!PlainMap.Laws MapT}.

Local Abbreviation chainT := (LinkedListBucketT.t KeyT ItemT).
Local Abbreviation chainB := (LinkedListBucketT.bucket _comp ItemT_default).
Local Abbreviation chainL :=
  (LinkedListBucketT_laws.laws _comp ItemT_default _comp_equal_to).
Local Abbreviation probeT := (PlainHashBucketT.t MapT).
Local Abbreviation probeB :=
  (fun fuel => PlainHashBucketT.bucket _comp ItemT_default (S fuel)).
Local Abbreviation probeL :=
  (PlainHashBucketT_laws.laws _comp ItemT_default _comp_equal_to).

(** C2 (uniqueness; [get] cannot be called). The member [get] of the map
    is [return _buckets.get(key)], a call of a member that [std::vector]
    does not have: no instantiation of it exists, so that [get(k)] gives
    nothing, whatever was inserted. What the code does for the rest: on
    a well-formed map in which the bucket of the key has room for one
    more entry and, should the table double, each new bucket for its
    share, once [insert(k, v)] has returned [true], [insert(k, v2)]
    returns [false] and leaves the map as it is, and [operator[]] reads
    [v] under [k] and leaves the map as it is; for chain buckets, and for
    probe buckets over a table that keeps the table contract. *)
Theorem second_insert_is_refused :
  (forall (m m1 : _chainHashingMapT.t KeyT chainT) k v v2,
     @MapFacts.WF KeyT ItemT chainT chainB chainL m ->
     @MapFacts.room_for KeyT ItemT HashFuncT chainT chainB chainL k v m ->
     2 * getMaxBucketSize m <= size_t.SIZE_MAX ->
     @insert KeyT ItemT HashFuncT chainT chainB k v m = Some (true, m1) ->
     @insert KeyT ItemT HashFuncT chainT chainB k v2 m1 = Some (false, m1) /\
     @index KeyT ItemT chainT chainB k m1 = Some (v, m1)) /\
  (forall fuel (m m1 : _chainHashingMapT.t KeyT probeT) k v v2,
     @MapFacts.WF KeyT ItemT probeT (probeB fuel) (probeL fuel) m ->
     @MapFacts.room_for KeyT ItemT HashFuncT probeT (probeB fuel)
                        (probeL fuel) k v m ->
     2 * getMaxBucketSize m <= size_t.SIZE_MAX ->
     @insert KeyT ItemT HashFuncT probeT (probeB fuel) k v m
     = Some (true, m1) ->
     @insert KeyT ItemT HashFuncT probeT (probeB fuel) k v2 m1
     = Some (false, m1) /\
     @index KeyT ItemT probeT (probeB fuel) k m1 = Some (v, m1)).
Proof.
  split.
  - intros m m1 k v v2 Hwf Hroom Hcap Hins.
    destruct (@MapFacts.insert_twice_room KeyT ItemT HashFuncT chainT chainB
                chainL HashFuncT_range m m1 k v v2 Hwf Hroom Hcap Hins)
      as (Hwf1 & Hin & Hagain).
    split; [done|].
    by apply (ChainMapFacts.chain_index_stored _comp ItemT_default
                _comp_equal_to).
  - intros fuel m m1 k v v2 Hwf Hroom Hcap Hins.
    destruct (@MapFacts.insert_twice_room KeyT ItemT HashFuncT probeT
                (probeB fuel) (probeL fuel) HashFuncT_range m m1 k v v2
                Hwf Hroom Hcap Hins)
      as (Hwf1 & Hin & Hagain).
    split; [done|].
    by apply (ProbeMapFacts.probe_index_stored _comp ItemT_default
                _comp_equal_to).
Qed.

End uniqueness.

Lemma second_insert_is_refused_witness :
  (exists m1,
     @_chainHashingMapT.insert N N Demo.HashFuncT Demo.chainT Demo.chain
        17 170 Demo.three_key_map = Some (true, m1) /\
     @_chainHashingMapT.insert N N Demo.HashFuncT Demo.chainT Demo.chain
        17 171 m1 = Some (false, m1) /\
     @_chainHashingMapT.index N N Demo.chainT Demo.chain 17 m1
     = Some (170, m1)) /\
  (exists m1,
     @_chainHashingMapT.insert N N Demo.HashFuncT Demo.probeT (Demo.probe 1)
        17 170 (Demo.three_key_probe_map 1) = Some (true, m1) /\
     @_chainHashingMapT.insert N N Demo.HashFuncT Demo.probeT (Demo.probe 1)
        17 171 m1 = Some (false, m1) /\
     @_chainHashingMapT.index N N Demo.probeT (Demo.probe 1) 17 m1
     = Some (170, m1)).
Proof.
  destruct (@second_insert_is_refused N N N.eqb 0 Demo.HashFuncT N.eqb_eq
              Demo.HashFuncT_range Demo.tableT Demo.table Demo.table_laws)
    as [Hchain Hprobe].
  split.
  - eexists. split; [reflexivity|].
    apply (Hchain Demo.three_key_map _ 17 170 171).
    + exact Demo.three_key_map_WF.
    + apply (MapFacts.fits_room_for Demo.HashFuncT). vm_compute. discriminate.
    + vm_compute. discriminate.
    + reflexivity.
  - eexists. split; [reflexivity|].
    apply (Hprobe 0%nat (Demo.three_key_probe_map 1) _ 17 170 171).
    + exact (Demo.three_key_probe_map_WF 0).
    + apply (MapFacts.fits_room_for Demo.HashFuncT). vm_compute. lia.
    + vm_compute. discriminate.
    + reflexivity.
Defined.

Section chain_vivification.
Import _chainHashingMapT.
Context {KeyT ItemT : Type}.
Variable _comp : KeyT -> KeyT -> bool.
Variable ItemT_default : ItemT.
Variable HashFuncT : N -> KeyT -> N.
Hypothesis _comp_equal_to : forall a b, _comp a b = true <-> a = b.

Local Abbreviation chainT := (LinkedListBucketT.t KeyT ItemT).
Local Abbreviation chainB := (LinkedListBucketT.bucket _comp ItemT_default).
Local Abbreviation entries := (@LinkedListBucketT_laws.entries KeyT ItemT).

(** What [get] and [safeGet] of a chain bucket do with a key that the
    bucket does not hold. *)
Lemma chain_vivify (b : chainT) (key : KeyT) :
  key ∉ (entries b).*1 ->
  exists b',
    LinkedListBucketT.get _comp ItemT_default key b = (ItemT_default, b') /\
    LinkedListBucketT.safeGet _comp ItemT_default key b
    = (ItemT_default, b') /\
    LinkedListBucketT._root b'
    = LinkedListBucketT.Node ItemT_default key :: LinkedListBucketT._root b /\
    LinkedListBucketT.size b' = size_t.incr (LinkedListBucketT.size b) /\
    entries b' = (key, ItemT_default) :: entries b /\
    LinkedListBucketT.get _comp ItemT_default key b' = (ItemT_default, b') /\
    LinkedListBucketT.safeGet _comp ItemT_default key b'
    = (ItemT_default, b') /\
    forall item,
      LinkedListBucketT.insert _comp key item b' = (false, b').
Proof.
  intros Hk.
  pose proof (proj2 (LinkedListBucketT_laws.scan_None _comp _comp_equal_to
                       key (LinkedListBucketT._root b)) Hk) as Hscan.
  pose proof (proj2 (_comp_equal_to key key) eq_refl) as Hrefl.
  unfold LinkedListBucketT.get, LinkedListBucketT.safeGet,
    LinkedListBucketT.insert.
  rewrite Hscan. eexists. split; [reflexivity|]. split; [reflexivity|].
  simpl. rewrite Hrefl. by repeat split.
Qed.

(** The same through [operator[]] of the map. *)
Lemma chain_index_vivify (m : _chainHashingMapT.t KeyT chainT) key b :
  _buckets m !! N.to_nat (_hFunc m key) = Some b ->
  key ∉ (entries b).*1 ->
  exists b' m',
    LinkedListBucketT.safeGet _comp ItemT_default key b
    = (ItemT_default, b') /\
    _buckets m' = <[N.to_nat (_hFunc m key) := b']> (_buckets m) /\
    @index KeyT ItemT chainT chainB key m = Some (ItemT_default, m') /\
    @index KeyT ItemT chainT chainB key m' = Some (ItemT_default, m') /\
    size m' = size m /\ getBucketCount m' = getBucketCount m /\
    forall item,
      @insert KeyT ItemT HashFuncT chainT chainB key item m'
      = Some (false, m').
Proof.
  intros Hb Hk.
  destruct (chain_vivify b key Hk)
    as (b' & _ & Hget & _ & _ & _ & _ & Hget' & Hins').
  assert (Hlt : (N.to_nat (_hFunc m key) < length (_buckets m))%nat)
    by (apply lookup_lt_is_Some_1; by eexists).
  assert (Hsettled :
    forall m1 : _chainHashingMapT.t KeyT chainT,
      _buckets m1 !! N.to_nat (_hFunc m1 key) = Some b' ->
      @index KeyT ItemT chainT chainB key m1 = Some (ItemT_default, m1) /\
      forall item,
        @insert KeyT ItemT HashFuncT chainT chainB key item m1
        = Some (false, m1)).
  { intros m1 H1. unfold index, insert. rewrite H1. simpl.
    rewrite Hget'. simpl.
    rewrite (list_insert_id _ _ _ H1), MapFacts.set_buckets_id.
    split; [done|]. intros item. rewrite Hins'. simpl.
    by rewrite (list_insert_id _ _ _ H1), MapFacts.set_buckets_id. }
  destruct (Hsettled
              (set_buckets (<[N.to_nat (_hFunc m key) := b']> (_buckets m)) m))
    as [Hidx' Hins1]; [by apply list_lookup_insert_eq|].
  exists b', (set_buckets (<[N.to_nat (_hFunc m key) := b']> (_buckets m)) m).
  split; [done|]. split; [done|]. split.
  { unfold index. rewrite Hb. simpl. by rewrite Hget. }
  by repeat split.
Qed.


(** C6 (auto-vivification on chain buckets; [search] cannot be called).
    [LinkedListBucketT::search] reads a member [key] that the node does
    not have, and the map's [get] calls a member that [std::vector] does
    not have: neither has an instantiation, so that no search after the
    call returns [true]. What the code does for the rest: for a key that
    a chain bucket does not hold, [get] and [safeGet] of the bucket both
    link a new node with the key and a default item behind the sentinel,
    count it, and return that item; afterwards the key is there: [get]
    and [safeGet] return the same item and change nothing, and [insert]
    of the key is refused. Through the map, [operator[]] does the same in
    the bucket the key hashes to, without touching [size()] or
    [getBucketCount()]. *)
Theorem chain_get_creates_default_entry :
  (forall (b : chainT) key,
     key ∉ (entries b).*1 ->
     exists b',
       LinkedListBucketT.get _comp ItemT_default key b
       = (ItemT_default, b') /\
       LinkedListBucketT.safeGet _comp ItemT_default key b
       = (ItemT_default, b') /\
       LinkedListBucketT._root b'
       = LinkedListBucketT.Node ItemT_default key
           :: LinkedListBucketT._root b /\
       LinkedListBucketT.size b' = size_t.incr (LinkedListBucketT.size b) /\
       entries b' = (key, ItemT_default) :: entries b /\
       LinkedListBucketT.get _comp ItemT_default key b'
       = (ItemT_default, b') /\
       LinkedListBucketT.safeGet _comp ItemT_default key b'
       = (ItemT_default, b') /\
       forall item,
         LinkedListBucketT.insert _comp key item b' = (false, b')) /\
  (forall (m : _chainHashingMapT.t KeyT chainT) key b,
     _buckets m !! N.to_nat (_hFunc m key) = Some b ->
     key ∉ (entries b).*1 ->
     exists b' m',
       LinkedListBucketT.safeGet _comp ItemT_default key b
       = (ItemT_default, b') /\
       _buckets m' = <[N.to_nat (_hFunc m key) := b']> (_buckets m) /\
       @index KeyT ItemT chainT chainB key m = Some (ItemT_default, m') /\
       @index KeyT ItemT chainT chainB key m' = Some (ItemT_default, m') /\
       size m' = size m /\ getBucketCount m' = getBucketCount m /\
       forall item,
         @insert KeyT ItemT HashFuncT chainT chainB key item m'
         = Some (false, m')).
Proof.
  split; [apply chain_vivify|]. intros m key b. apply chain_index_vivify.
Qed.

End chain_vivification.

Lemma chain_get_creates_default_entry_witness :
  (exists b',
     LinkedListBucketT.get N.eqb 0 5 Demo.one_node_bucket = (0, b') /\
     LinkedListBucketT.safeGet N.eqb 0 5 Demo.one_node_bucket = (0, b') /\
     LinkedListBucketT._root b'
     = LinkedListBucketT.Node 0 5
         :: LinkedListBucketT._root Demo.one_node_bucket /\
     LinkedListBucketT.size b'
     = size_t.incr (LinkedListBucketT.size Demo.one_node_bucket) /\
     LinkedListBucketT_laws.entries b'
     = (5, 0) :: LinkedListBucketT_laws.entries Demo.one_node_bucket /\
     LinkedListBucketT.get N.eqb 0 5 b' = (0, b') /\
     LinkedListBucketT.safeGet N.eqb 0 5 b' = (0, b') /\
     forall item, LinkedListBucketT.insert N.eqb 5 item b' = (false, b')) /\
  (exists b' m',
     LinkedListBucketT.safeGet N.eqb 0 17
       (LinkedListBucketT.Build 2
          [LinkedListBucketT.Node 90 9; LinkedListBucketT.Node 10 1])
     = (0, b') /\
     _chainHashingMapT._buckets m'
     = <[N.to_nat (_chainHashingMapT._hFunc Demo.three_key_map 17) := b']>
         (_chainHashingMapT._buckets Demo.three_key_map) /\
     @_chainHashingMapT.index N N Demo.chainT Demo.chain 17
        Demo.three_key_map = Some (0, m') /\
     @_chainHashingMapT.index N N Demo.chainT Demo.chain 17 m'
     = Some (0, m') /\
     _chainHashingMapT.size m' = _chainHashingMapT.size Demo.three_key_map /\
     _chainHashingMapT.getBucketCount m'
     = _chainHashingMapT.getBucketCount Demo.three_key_map /\
     forall item,
       @_chainHashingMapT.insert N N Demo.HashFuncT Demo.chainT Demo.chain
          17 item m' = Some (false, m')).
Proof.
  destruct (@chain_get_creates_default_entry N N N.eqb 0 Demo.HashFuncT
              N.eqb_eq) as [Hbucket Hmap].
  split.
  - apply (Hbucket Demo.one_node_bucket 5).
    apply (bool_decide_unpack _). vm_compute. exact I.
  - apply (Hmap Demo.three_key_map 17).
    + reflexivity.
    + apply (bool_decide_unpack _). vm_compute. exact I.
Defined.

Section both_strategies.
Import _chainHashingMapT.
Context {KeyT ItemT : Type}.
Variable _comp : KeyT -> KeyT -> bool.
Variable ItemT_default : ItemT.
Variable HashFuncT : N -> KeyT -> N.
Hypothesis _comp_equal_to : forall a b, _comp a b = true <-> a = b.
Hypothesis HashFuncT_range : forall n k, 0 < n -> HashFuncT n k < n.
Context {MapT : Type} `{!PlainMap.T KeyT ItemT MapT} `{!PlainMap.Laws MapT}.

Local Abbreviation chainT := (LinkedListBucketT.t KeyT ItemT).
Local Abbreviation chainB := (LinkedListBucketT.bucket _comp ItemT_default).
Local Abbreviation chainL :=
  (LinkedListBucketT_laws.laws _comp ItemT_default _comp_equal_to).
Local Abbreviation probeT := (PlainHashBucketT.t MapT).
Local Abbreviation probeB :=
  (fun fuel => PlainHashBucketT.bucket _comp ItemT_default (S fuel)).
Local Abbreviation probeL :=
  (PlainHashBucketT_laws.laws _comp ItemT_default _comp_equal_to).

(** C3 (a resize keeps every entry; [get] and the chain [search] cannot
    be called). The map's [get] calls a member that [std::vector] does
    not have and [LinkedListBucketT::search] reads a member that the node
    does not have: neither has an instantiation, so that [get(key)]
    returns no value after the resize, and [search(key)] none on chain
    buckets. What the code does for the rest: on a well-formed map whose
    doubled capacity is a [size_t], whose rehash barrier is defined and
    whose new buckets can each hold their share, [_resize] completes, the
    capacity is doubled, [size()] is kept, the new bucket array holds
    exactly the entries of the old one, no key twice, and every stored
    key is read with its item by [operator[]], which changes nothing;
    on chain buckets an [insert] of a stored key is refused, and on probe
    buckets over a table that keeps the table contract [search] finds
    every stored key. *)
Theorem resize_keeps_membership :
  (forall (m : _chainHashingMapT.t KeyT chainT) nextRehash,
     @MapFacts.WF KeyT ItemT chainT chainB chainL m ->
     2 * getMaxBucketSize m <= size_t.SIZE_MAX ->
     @MapFacts.spread KeyT ItemT HashFuncT chainT chainB chainL
                      (2 * getMaxBucketSize m) m ->
     barrier (2 * getMaxBucketSize m) (_rehashPolicy m) = Some nextRehash ->
     exists m',
       @_resize KeyT ItemT HashFuncT chainT chainB m = Some m' /\
       getMaxBucketSize m' = 2 * getMaxBucketSize m /\
       size m' = size m /\
       @MapFacts.stored KeyT ItemT chainT chainB chainL m'
       ≡ₚ @MapFacts.stored KeyT ItemT chainT chainB chainL m /\
       NoDup (@MapFacts.stored KeyT ItemT chainT chainB chainL m').*1 /\
       forall k v,
         (k, v) ∈ @MapFacts.stored KeyT ItemT chainT chainB chainL m ->
         @index KeyT ItemT chainT chainB k m' = Some (v, m') /\
         forall v2,
           @insert KeyT ItemT HashFuncT chainT chainB k v2 m'
           = Some (false, m')) /\
  (forall fuel (m : _chainHashingMapT.t KeyT probeT) nextRehash,
     @MapFacts.WF KeyT ItemT probeT (probeB fuel) (probeL fuel) m ->
     2 * getMaxBucketSize m <= size_t.SIZE_MAX ->
     @MapFacts.spread KeyT ItemT HashFuncT probeT (probeB fuel) (probeL fuel)
                      (2 * getMaxBucketSize m) m ->
     barrier (2 * getMaxBucketSize m) (_rehashPolicy m) = Some nextRehash ->
     exists m',
       @_resize KeyT ItemT HashFuncT probeT (probeB fuel) m = Some m' /\
       getMaxBucketSize m' = 2 * getMaxBucketSize m /\
       size m' = size m /\
       @MapFacts.stored KeyT ItemT probeT (probeB fuel) (probeL fuel) m'
       ≡ₚ @MapFacts.stored KeyT ItemT probeT (probeB fuel) (probeL fuel) m /\
       NoDup (@MapFacts.stored KeyT ItemT probeT (probeB fuel)
                               (probeL fuel) m').*1 /\
       forall k v,
         (k, v)
         ∈ @MapFacts.stored KeyT ItemT probeT (probeB fuel) (probeL fuel) m ->
         @search KeyT ItemT probeT (probeB fuel) k m' = Some true /\
         @index KeyT ItemT probeT (probeB fuel) k m' = Some (v, m')).
Proof.
  split.
  - intros m nr Hwf Hcap Hsp Hbar.
    destruct (@MapFacts._resize_spec KeyT ItemT HashFuncT chainT chainB chainL
                HashFuncT_range m nr)
      as (m' & Hrun & Hwf' & Hst & Hsz & _ & He & _); try done;
      try apply Hwf.
    exists m'. do 4 (split; [done|]).
    split; [apply (MapFacts.WF_NoDup m' Hwf')|].
    intros k v Hin. rewrite <- Hst in Hin. split.
    + by apply (ChainMapFacts.chain_index_stored _comp ItemT_default
                  _comp_equal_to).
    + intros v2.
      apply (@MapFacts.insert_present KeyT ItemT HashFuncT chainT chainB
               chainL m' k v2 Hwf').
      by apply (list_elem_of_fmap_2 fst _ (k, v)).
  - intros fuel m nr Hwf Hcap Hsp Hbar.
    destruct (@MapFacts._resize_spec KeyT ItemT HashFuncT probeT
                (probeB fuel) (probeL fuel) HashFuncT_range m nr)
      as (m' & Hrun & Hwf' & Hst & Hsz & _ & He & _); try done;
      try apply Hwf.
    exists m'. do 4 (split; [done|]).
    split; [apply (MapFacts.WF_NoDup m' Hwf')|].
    intros k v Hin. rewrite <- Hst in Hin. split.
    + apply (MapFacts.search_present m' k Hwf').
      by apply (list_elem_of_fmap_2 fst _ (k, v)).
    + by apply (ProbeMapFacts.probe_index_stored _comp ItemT_default
                  _comp_equal_to).
Qed.

End both_strategies.

Lemma resize_keeps_membership_witness :
  (exists m',
     @_chainHashingMapT._resize N N Demo.HashFuncT Demo.chainT Demo.chain
        Demo.three_key_map = Some m' /\
     _chainHashingMapT.getMaxBucketSize m' = 16 /\
     _chainHashingMapT.size m' = 3 /\
     @MapFacts.stored N N Demo.chainT Demo.chain Demo.chain_laws m'
     ≡ₚ @MapFacts.stored N N Demo.chainT Demo.chain Demo.chain_laws
          Demo.three_key_map /\
     NoDup (@MapFacts.stored N N Demo.chainT Demo.chain Demo.chain_laws
              m').*1 /\
     forall k v,
       (k, v) ∈ @MapFacts.stored N N Demo.chainT Demo.chain Demo.chain_laws
                  Demo.three_key_map ->
       @_chainHashingMapT.index N N Demo.chainT Demo.chain k m'
       = Some (v, m') /\
       forall v2,
         @_chainHashingMapT.insert N N Demo.HashFuncT Demo.chainT Demo.chain
            k v2 m' = Some (false, m')) /\
  (exists m',
     @_chainHashingMapT._resize N N Demo.HashFuncT Demo.probeT (Demo.probe 1)
        (Demo.three_key_probe_map 1) = Some m' /\
     _chainHashingMapT.getMaxBucketSize m' = 16 /\
     _chainHashingMapT.size m' = 3 /\
     @MapFacts.stored N N Demo.probeT (Demo.probe 1) (Demo.probe_laws 0) m'
     ≡ₚ @MapFacts.stored N N Demo.probeT (Demo.probe 1) (Demo.probe_laws 0)
          (Demo.three_key_probe_map 1) /\
     NoDup (@MapFacts.stored N N Demo.probeT (Demo.probe 1)
              (Demo.probe_laws 0) m').*1 /\
     forall k v,
       (k, v) ∈ @MapFacts.stored N N Demo.probeT (Demo.probe 1)
                  (Demo.probe_laws 0) (Demo.three_key_probe_map 1) ->
       @_chainHashingMapT.search N N Demo.probeT (Demo.probe 1) k m'
       = Some true /\
       @_chainHashingMapT.index N N Demo.probeT (Demo.probe 1) k m'
       = Some (v, m')).
Proof.
  destruct (@resize_keeps_membership N N N.eqb 0 Demo.HashFuncT N.eqb_eq
              Demo.HashFuncT_range Demo.tableT Demo.table Demo.table_laws)
    as [Hchain Hprobe].
  split.
  - apply (Hchain Demo.three_key_map 16).
    + exact Demo.three_key_map_WF.
    + vm_compute. discriminate.
    + apply (MapFacts.fits_spread Demo.HashFuncT). vm_compute. discriminate.
    + reflexivity.
  - apply (Hprobe 0%nat (Demo.three_key_probe_map 1) 16).
    + exact (Demo.three_key_probe_map_WF 0).
    + vm_compute. discriminate.
    + apply (MapFacts.fits_spread Demo.HashFuncT). vm_compute. lia.
    + reflexivity.
Defined.






Section growth.
Import _chainHashingMapT.
Context {ItemT : Type}.
Variable HashFuncT : N -> N -> N.
Context {BucketT : Type} `{!Bucket.T N ItemT BucketT} `{!Bucket.Laws BucketT}.
Hypothesis HashFuncT_range : forall n k, 0 < n -> HashFuncT n k < n.


End growth.

Section retry_loop.
Import PlainHashBucketT.
Context {KeyT ItemT : Type}.
Variable _comp : KeyT -> KeyT -> bool.
Hypothesis _comp_equal_to : forall a b, _comp a b = true <-> a = b.
Context {MapT : Type} `{!PlainMap.T KeyT ItemT MapT}.

Lemma attempt_regrow key item (m : MapT) n :
  attempt key item (regrow key item m) n = attempt key item m (S n).
Proof. unfold attempt. by rewrite Nat.iter_succ_r. Qed.

Lemma retry_unfold fuel key item (m : MapT) :
  retry (S fuel) key item m
  = if (attempt key item m 0).1 then Some (attempt key item m 0).2
    else retry fuel key item (regrow key item m).
Proof.
  simpl. unfold attempt, regrow. simpl.
  by destruct (PlainMap.insert key item m) as [[|] m'].
Qed.

Lemma retry_success key item n :
  forall (m : MapT) fuel,
    (forall i, (i < n)%nat -> (attempt key item m i).1 = false) ->
    (attempt key item m n).1 = true ->
    (n < fuel)%nat ->
    retry fuel key item m = Some (attempt key item m n).2.
Proof.
  induction n as [|n IH]; intros m fuel Hfail Hok Hfuel;
    (destruct fuel as [|fuel]; [lia|]); rewrite retry_unfold.
  - by rewrite Hok.
  - rewrite (Hfail 0%nat) by lia. rewrite <- attempt_regrow.
    apply IH; [|by rewrite attempt_regrow|lia].
    intros i Hi. rewrite attempt_regrow. apply Hfail. lia.
Qed.

Lemma retry_failure key item fuel :
  forall m : MapT,
    (forall i, (i < fuel)%nat -> (attempt key item m i).1 = false) ->
    retry fuel key item m = None.
Proof.
  induction fuel as [|fuel IH]; intros m Hfail; [done|].
  rewrite retry_unfold, (Hfail 0%nat) by lia.
  apply IH. intros i Hi. rewrite attempt_regrow. apply Hfail. lia.
Qed.

(** C8, as the code has it. The retry loop of [_insert] returns at the
    first raw insert attempt that succeeds, with the table that attempt
    leaves, after one regrowth at the same logical size per failed
    attempt; it has no bound of its own, so that no number of iterations
    is enough while the attempts keep failing. On a well-formed bucket of
    at most 61 entries over a table that keeps the table contract the
    first attempt succeeds and [insert] returns; on a full table that
    keeps the contract the loop never exits for a key the table does not
    hold. *)
Theorem retry_returns_at_the_first_success :
  (forall key item (m : MapT) n fuel,
     (forall i, (i < n)%nat -> (attempt key item m i).1 = false) ->
     (attempt key item m n).1 = true ->
     (n < fuel)%nat ->
     retry fuel key item m = Some (attempt key item m n).2) /\
  (forall key item (m : MapT) fuel,
     (forall i, (i < fuel)%nat -> (attempt key item m i).1 = false) ->
     retry fuel key item m = None) /\
  (forall (L : PlainMap.Laws MapT) fuel
          (b : PlainHashBucketT.t MapT) key item,
     PlainHashBucketT_laws.wf b ->
     (S (length (PlainHashBucketT_laws.entries b)) <= 62)%nat ->
     is_Some (insert _comp (S fuel) key item b)) /\
  (forall (L : PlainMap.Laws MapT) fuel key item (m : MapT),
     PlainMap.wf m -> key ∉ (PlainMap.entries m).*1 ->
     N.of_nat (length (PlainMap.entries m)) = PlainMap.getSize m ->
     retry fuel key item m = None).
Proof.
  split; [|split; [|split]].
  - intros key item m n fuel. apply retry_success.
  - intros key item m fuel. apply retry_failure.
  - intros L fuel b key item Hwf Hfits.
    destruct (search _comp key b) eqn:Hs.
    + unfold insert. rewrite Hs. by eexists.
    + destruct (PlainHashBucketT_laws.probe_insert_new _comp _comp_equal_to
                  fuel b key item Hwf Hfits) as (b' & -> & _); [|by eexists].
      intros Hin.
      apply (PlainHashBucketT_laws.probe_search_spec _comp _comp_equal_to b key Hwf) in Hin.
      congruence.
  - intros L fuel key item m. apply PlainHashBucketT_laws.retry_full.
Qed.

End retry_loop.

(** C8, as the claim states it, fails: on the probe bucket whose table was
    filled by four calls of [operator[]], no number of iterations lets the
    retry loop of [insert(32, 5)] exit, at the bucket and through the
    map. *)
Lemma insert_never_returns_on_a_full_table :
  (forall fuel,
     @PlainHashBucketT.insert N N N.eqb Demo.tableT Demo.table fuel 32 5
        Demo.full_bucket = None) /\
  (forall fuel,
     (m4 ← (m0 ← Demo.probe_map fuel;
            Demo.index_each fuel [0; 8; 16; 24] m0);
      @_chainHashingMapT.insert N N Demo.HashFuncT Demo.probeT
         (Demo.probe fuel) 32 5 m4) = None).
Proof.
  assert (Hloop : forall fuel,
            @PlainHashBucketT.retry N N Demo.tableT Demo.table fuel 32 5
               (PlainHashBucketT._map Demo.full_bucket) = None).
  { induction fuel as [|fuel IH]; [done|]. exact IH. }
  assert (Hb : forall fuel,
            @PlainHashBucketT.insert N N N.eqb Demo.tableT Demo.table
               fuel 32 5 Demo.full_bucket = None).
  { intros fuel. unfold PlainHashBucketT.insert, PlainHashBucketT._insert.
    change (PlainHashBucketT.search N.eqb 32 Demo.full_bucket) with false.
    cbv iota.
    change (size_t.incr (PlainHashBucketT._elemCount Demo.full_bucket)
            =? PlainHashBucketT._nextResize Demo.full_bucket) with false.
    cbv iota beta. by rewrite Hloop. }
  split; [exact Hb|].
  intros fuel. rewrite Demo.full_probe_map_eq.
  change (Some Demo.full_probe_map ≫= _)
    with (@_chainHashingMapT.insert N N Demo.HashFuncT Demo.probeT
            (Demo.probe fuel) 32 5 Demo.full_probe_map).
  unfold _chainHashingMapT.insert.
  change (_chainHashingMapT._buckets Demo.full_probe_map
            !! N.to_nat (_chainHashingMapT._hFunc Demo.full_probe_map 32))
    with (Some Demo.full_bucket).
  simpl. by rewrite Hb.
Qed.

Section index_frame.
Import _chainHashingMapT.
Context {KeyT ItemT : Type}.
Variable _comp : KeyT -> KeyT -> bool.
Variable ItemT_default : ItemT.
Hypothesis _comp_equal_to : forall a b, _comp a b = true <-> a = b.
Context {MapT : Type} `{!PlainMap.T KeyT ItemT MapT} `{!PlainMap.Laws MapT}.

Local Abbreviation chainT := (LinkedListBucketT.t KeyT ItemT).
Local Abbreviation chainB := (LinkedListBucketT.bucket _comp ItemT_default).
Local Abbreviation probeT := (PlainHashBucketT.t MapT).
Local Abbreviation probeB :=
  (fun fuel => PlainHashBucketT.bucket _comp ItemT_default fuel).

(** X10 (the frame of [operator[]]). It returns what [safeGet] of the
    target bucket returns and replaces that bucket by the one [safeGet]
    leaves; [size()], [getBucketCount()], the capacity, the hash function
    and the rehash barrier are unchanged, for every bucket class, so that
    no resize can follow. On chain buckets a key that the target bucket
    does not hold gets an entry with a default item, which is returned,
    and the bucket's own count goes up by one. On probe buckets over a
    table that keeps the table contract, a key for which the table
    reports no slot is given to one raw insert with a default item; when
    the table has a free slot the entry is created and returned, the key
    is found afterwards, and the bucket's own count stays. *)
Theorem index_changes_only_the_target_bucket :
  (forall (BucketT : Type) (B : Bucket.T KeyT ItemT BucketT)
          (m m' : _chainHashingMapT.t KeyT BucketT) key item,
     index key m = Some (item, m') ->
     size m' = size m /\ getBucketCount m' = getBucketCount m /\
     getMaxBucketSize m' = getMaxBucketSize m /\
     _hFunc m' = _hFunc m /\ _nextRehash m' = _nextRehash m /\
     exists b b',
       _buckets m !! N.to_nat (_hFunc m key) = Some b /\
       Bucket.safeGet key b = Some (item, b') /\
       _buckets m' = <[N.to_nat (_hFunc m key) := b']> (_buckets m)) /\
  (forall (m : _chainHashingMapT.t KeyT chainT) key b,
     _buckets m !! N.to_nat (_hFunc m key) = Some b ->
     key ∉ (LinkedListBucketT_laws.entries b).*1 ->
     exists m' b',
       @index KeyT ItemT chainT chainB key m = Some (ItemT_default, m') /\
       _buckets m' = <[N.to_nat (_hFunc m key) := b']> (_buckets m) /\
       LinkedListBucketT_laws.entries b'
       = (key, ItemT_default) :: LinkedListBucketT_laws.entries b /\
       LinkedListBucketT.size b' = size_t.incr (LinkedListBucketT.size b)) /\
  (forall fuel (m : _chainHashingMapT.t KeyT probeT) key b,
     _buckets m !! N.to_nat (_hFunc m key) = Some b ->
     PlainMap.wf (PlainHashBucketT._map b) ->
     PlainMap.searchAndSave key (PlainHashBucketT._map b) = None ->
     N.of_nat (length (PlainMap.entries (PlainHashBucketT._map b)))
     < PlainMap.getSize (PlainHashBucketT._map b) ->
     exists m' b',
       @index KeyT ItemT probeT (probeB fuel) key m
       = Some (ItemT_default, m') /\
       _buckets m' = <[N.to_nat (_hFunc m key) := b']> (_buckets m) /\
       PlainMap.entries (PlainHashBucketT._map b')
       ≡ₚ (key, ItemT_default) :: PlainMap.entries (PlainHashBucketT._map b) /\
       PlainHashBucketT.size b' = PlainHashBucketT.size b /\
       @search KeyT ItemT probeT (probeB fuel) key m' = Some true).
Proof.
  split; [|split].
  - intros BucketT B m m' key item. unfold index.
    destruct (_buckets m !! N.to_nat (_hFunc m key)) as [b|] eqn:Hb; [|done].
    simpl.
    destruct (Bucket.safeGet key b) as [[item' b']|] eqn:Hget; [|done].
    simpl. intros [= -> <-]. repeat split.
    + unfold getMaxBucketSize. simpl. by rewrite length_insert.
    + by exists b, b'.
  - intros m key b Hb Hk.
    destruct (chain_vivify _comp ItemT_default _comp_equal_to b key Hk)
      as (b' & _ & Hget & _ & Hsz & Hent & _).
    exists (set_buckets (<[N.to_nat (_hFunc m key) := b']> (_buckets m)) m), b'.
    split; [|done].
    unfold index. rewrite Hb. simpl. by rewrite Hget.
  - intros fuel m key b Hb Hwf Hnone Hroom.
    assert (Hk : key ∉ (PlainMap.entries (PlainHashBucketT._map b)).*1).
    { intros ([k v] & -> & Hin)%list_elem_of_fmap. simpl in Hnone.
      by rewrite (PlainMap.search_present _ _ _ Hwf Hin) in Hnone. }
    pose proof (PlainMap.insert_room _ key ItemT_default Hwf Hk Hroom) as Hok.
    destruct (PlainMap.insert key ItemT_default (PlainHashBucketT._map b))
      as [added t1] eqn:Hins.
    simpl in Hok. subst added.
    destruct (PlainMap.insert_true _ _ _ _ Hwf Hk Hins) as (Hwf1 & Hent1 & _).
    assert (Hin1 : (key, ItemT_default) ∈ PlainMap.entries t1)
      by (rewrite Hent1; left).
    set (b' := PlainHashBucketT.Build (PlainHashBucketT._elemCount b)
                 (PlainHashBucketT._nextResize b) t1).
    exists (set_buckets (<[N.to_nat (_hFunc m key) := b']> (_buckets m)) m), b'.
    assert (Hlt : (N.to_nat (_hFunc m key) < length (_buckets m))%nat)
      by (apply lookup_lt_is_Some_1; by eexists).
    unfold index, search. rewrite Hb. simpl.
    unfold PlainHashBucketT.safeGet. rewrite Hnone, Hins.
    unfold PlainHashBucketT.get. simpl.
    rewrite (PlainMap.index_present _ _ _ Hwf1 Hin1). simpl.
    rewrite list_lookup_insert_eq by done. simpl.
    unfold PlainHashBucketT.search. simpl.
    rewrite (PlainMap.search_present _ _ _ Hwf1 Hin1).
    rewrite (proj2 (_comp_equal_to key key) eq_refl).
    repeat split. exact Hent1.
Qed.

End index_frame.

(** C10 ([operator[]] on an absent key of a probe-bucket map). [safeGet]
    of the probe bucket hands the key to one raw insert, without the
    growth, the retry or the count of [insert], and does not look at the
    result. After four calls of [operator[]] have filled the four slots of
    the table of bucket 0, the key 32 is absent, and [operator[]] on it
    neither creates an entry nor returns a reference: its raw insert
    fails and the table is then read at an absent key. *)
Lemma index_on_a_full_table_creates_nothing :
  (m0 ← Demo.probe_map 1; Demo.index_each 1 [0; 8; 16; 24] m0)
  = Some Demo.full_probe_map /\
  @_chainHashingMapT.search N N Demo.probeT (Demo.probe 1) 32
     Demo.full_probe_map = Some false /\
  (PlainTable.insert Demo.HashFuncT 32 0
     (PlainHashBucketT._map Demo.full_bucket)).1 = false /\
  @_chainHashingMapT.index N N Demo.probeT (Demo.probe 1) 32
     Demo.full_probe_map = None.
Proof. repeat split. Qed.


Lemma retry_returns_at_the_first_success_witness :
  @PlainHashBucketT.retry N N Demo.tableT Demo.table 1 1 7
     (PlainTable.make 0 0 4)
  = Some (@PlainHashBucketT.attempt N N Demo.tableT Demo.table 1 7
            (PlainTable.make 0 0 4) 0).2 /\
  @PlainHashBucketT.retry N N Demo.tableT Demo.table 3 32 5
     (PlainHashBucketT._map Demo.full_bucket) = None /\
  is_Some (@PlainHashBucketT.insert N N N.eqb Demo.tableT Demo.table 1 1 7
             (@PlainHashBucketT.new N N Demo.tableT Demo.table)) /\
  @PlainHashBucketT.retry N N Demo.tableT Demo.table 9 32 5
     (PlainHashBucketT._map Demo.full_bucket) = None.
Proof.
  destruct (@retry_returns_at_the_first_success N N N.eqb N.eqb_eq
              Demo.tableT Demo.table) as (Hok & Hfail & Hins & Hfull).
  split; [|split; [|split]].
  - apply (Hok 1 7 (PlainTable.make 0 0 4) 0%nat 1%nat).
    + intros i Hi. lia.
    + reflexivity.
    + lia.
  - apply (Hfail 32 5 (PlainHashBucketT._map Demo.full_bucket) 3%nat).
    intros i Hi.
    destruct i as [|[|[|i]]]; [reflexivity | reflexivity | reflexivity | lia].
  - apply (Hins Demo.table_laws 0%nat
             (@PlainHashBucketT.new N N Demo.tableT Demo.table) 1 7).
    + apply (@PlainHashBucketT_laws.probe_wf_new N N Demo.tableT Demo.table
               Demo.table_laws).
    + vm_compute. lia.
  - apply (Hfull Demo.table_laws 9%nat 32 5
             (PlainHashBucketT._map Demo.full_bucket)).
    + change (NoDup (PlainTable.entries
                       (PlainHashBucketT._map Demo.full_bucket)).*1).
      apply (bool_decide_unpack _). vm_compute. exact I.
    + change (32 ∉ (PlainTable.entries
                      (PlainHashBucketT._map Demo.full_bucket)).*1).
      apply (bool_decide_unpack _). vm_compute. exact I.
    + reflexivity.
Defined.

Lemma index_changes_only_the_target_bucket_witness :
  (_chainHashingMapT.size Demo.vivified_chain_map
   = _chainHashingMapT.size Demo.empty_chain_map /\
   _chainHashingMapT.getBucketCount Demo.vivified_chain_map
   = _chainHashingMapT.getBucketCount Demo.empty_chain_map /\
   _chainHashingMapT.getMaxBucketSize Demo.vivified_chain_map
   = _chainHashingMapT.getMaxBucketSize Demo.empty_chain_map /\
   _chainHashingMapT._hFunc Demo.vivified_chain_map
   = _chainHashingMapT._hFunc Demo.empty_chain_map /\
   _chainHashingMapT._nextRehash Demo.vivified_chain_map
   = _chainHashingMapT._nextRehash Demo.empty_chain_map /\
   exists b b',
     _chainHashingMapT._buckets Demo.empty_chain_map
       !! N.to_nat (_chainHashingMapT._hFunc Demo.empty_chain_map 5)
     = Some b /\
     @Bucket.safeGet N N Demo.chainT Demo.chain 5 b = Some (0, b') /\
     _chainHashingMapT._buckets Demo.vivified_chain_map
     = <[N.to_nat (_chainHashingMapT._hFunc Demo.empty_chain_map 5) := b']>
         (_chainHashingMapT._buckets Demo.empty_chain_map)) /\
  (exists m' b',
     @_chainHashingMapT.index N N Demo.chainT Demo.chain 17
        Demo.three_key_map = Some (0, m') /\
     _chainHashingMapT._buckets m'
     = <[N.to_nat (_chainHashingMapT._hFunc Demo.three_key_map 17) := b']>
         (_chainHashingMapT._buckets Demo.three_key_map) /\
     LinkedListBucketT_laws.entries b' = [(17, 0); (9, 90); (1, 10)] /\
     LinkedListBucketT.size b' = 3) /\
  (exists m' b',
     @_chainHashingMapT.index N N Demo.probeT (Demo.probe 1) 5
        (Demo.empty_probe_map 1) = Some (0, m') /\
     _chainHashingMapT._buckets m'
     = <[N.to_nat (_chainHashingMapT._hFunc (Demo.empty_probe_map 1) 5) := b']>
         (_chainHashingMapT._buckets (Demo.empty_probe_map 1)) /\
     PlainTable.entries (PlainHashBucketT._map b')
     ≡ₚ (5, 0) :: PlainTable.entries
                    (PlainHashBucketT._map
                       (@PlainHashBucketT.new N N Demo.tableT Demo.table)) /\
     PlainHashBucketT.size b'
     = PlainHashBucketT.size (@PlainHashBucketT.new N N Demo.tableT Demo.table) /\
     @_chainHashingMapT.search N N Demo.probeT (Demo.probe 1) 5 m'
     = Some true).
Proof.
  destruct (@index_changes_only_the_target_bucket N N N.eqb 0 N.eqb_eq
              Demo.tableT Demo.table Demo.table_laws)
    as (Hframe & Hchain & Hprobe).
  split; [|split].
  - apply (Hframe Demo.chainT Demo.chain Demo.empty_chain_map
             Demo.vivified_chain_map 5 0).
    reflexivity.
  - apply (Hchain Demo.three_key_map 17
             (LinkedListBucketT.Build 2
                [LinkedListBucketT.Node 90 9; LinkedListBucketT.Node 10 1])).
    + reflexivity.
    + apply (bool_decide_unpack _). vm_compute. exact I.
  - apply (Hprobe 1%nat (Demo.empty_probe_map 1) 5
             (@PlainHashBucketT.new N N Demo.tableT Demo.table)).
    + reflexivity.
    + apply (@PlainMap.wf_make N N Demo.tableT Demo.table Demo.table_laws).
    + reflexivity.
    + vm_compute. reflexivity.
Defined.

(** * Further properties of the code *)

Section map_properties.
Import _chainHashingMapT.
Context {KeyT ItemT : Type}.
Variable HashFuncT : N -> KeyT -> N.
Context {BucketT : Type} `{!Bucket.T KeyT ItemT BucketT}.

Local Abbreviation mapT := (_chainHashingMapT.t KeyT BucketT).

(** X2 (a map constructed with size 0). The constructor accepts the size
    0 and builds a map with no bucket; on that map [insert], [search],
    [get], [operator[]], [remove] and [safeRemove] all index the empty
    bucket vector, for every key, whatever the hash function and the
    bucket class are. *)
Theorem zero_sized_map_is_unusable :
  exists m : mapT,
    make HashFuncT 0 = Some m /\ getMaxBucketSize m = 0 /\
    forall key item,
      insert HashFuncT key item m = None /\ search key m = None /\
      get key m = None /\ index key m = None /\
      remove key m = None /\ safeRemove key m = None.
Proof.
  eexists. split; [apply MapFacts.make_zero|]. split; [done|].
  intros key item. repeat split.
Qed.

(** X11 ([rehash] of an empty map). When [size()] and [getBucketCount()]
    are both 0, as on every freshly constructed map, the load factor is
    the NaN of [0.0f / 0.0f]; both comparisons of [rehash] are then false,
    so that for every desired ratio and every number of tries the loop
    does not run, the map is left as it is, and [false] is returned. *)
Theorem rehash_of_an_empty_map_returns_false
    (m : mapT) (desiredBucketRatio : float.t) (maxTries : Z) :
  size m = 0 -> getBucketCount m = 0 ->
  load_factor m = S754_nan /\
  rehash HashFuncT desiredBucketRatio maxTries m = Some (false, m).
Proof.
  intros He Hb.
  pose proof (MapFacts.load_factor_nan m He Hb) as Hnan.
  split; [done|]. by apply MapFacts.rehash_nan.
Qed.

Context `{!Bucket.Laws BucketT}.
Hypothesis HashFuncT_range : forall n k, 0 < n -> HashFuncT n k < n.

(** X1 (a freshly constructed map). For a size above 0 whose rehash
    barrier [size * 1.0] is a [size_t], the constructor builds a map of
    [size] buckets with that barrier, with [size()] and
    [getBucketCount()] at 0, that stores nothing: [search] answers
    [false] for every key. The default constructor is the one of size
    [InitMapSize = 8], with the barrier 8. *)
Theorem fresh_map_holds_no_key :
  (forall n nextRehash,
     0 < n -> barrier n DefaultRehashPolicy = Some nextRehash ->
     exists m : mapT,
       make HashFuncT n = Some m /\
       getMaxBucketSize m = n /\ size m = 0 /\ getBucketCount m = 0 /\
       _nextRehash m = nextRehash /\ MapFacts.stored m = [] /\
       forall k, search k m = Some false) /\
  (exists m : mapT,
     make_default HashFuncT = Some m /\
     getMaxBucketSize m = 8 /\ size m = 0 /\ getBucketCount m = 0 /\
     _nextRehash m = 8 /\ forall k, search k m = Some false).
Proof.
  split.
  - intros n nextRehash Hn Hbar.
    destruct (MapFacts.make_holds_no_key HashFuncT HashFuncT_range
                n nextRehash Hn Hbar)
      as (m & Hmk & _ & Hst & Hsz & He & Hb & Hnr & Hs).
    by exists m.
  - destruct (MapFacts.make_holds_no_key HashFuncT HashFuncT_range 8 8)
      as (m & Hmk & _ & Hst & Hsz & He & Hb & Hnr & Hs);
      [done | apply MapFacts.barrier_8 |].
    by exists m.
Qed.

(** X3 (what [insert] leaves alone). On a well-formed map in which the
    bucket of the key has room for one more entry and, should the table
    double, each new bucket for its share, [insert(key, item)] leaves a
    well-formed map and returns [true] exactly when the key was not
    stored; whatever it returns, the key is found afterwards; when it
    returns [true], the map holds the new entry and the entries it held,
    no other; when it returns [false] the map is unchanged; every entry
    stored before is still stored, also when the insert doubled the
    table; and [search] answers for every other key as it did before. *)
Theorem insert_keeps_every_other_entry (m m' : mapT) key item (r : bool) :
  MapFacts.WF m ->
  MapFacts.room_for HashFuncT key item m ->
  2 * getMaxBucketSize m <= size_t.SIZE_MAX ->
  insert HashFuncT key item m = Some (r, m') ->
  MapFacts.WF m' /\
  (r = true <-> key ∉ (MapFacts.stored m).*1) /\
  search key m' = Some true /\
  (r = true -> MapFacts.stored m' ≡ₚ (key, item) :: MapFacts.stored m) /\
  (r = false -> m' = m) /\
  (forall e, e ∈ MapFacts.stored m -> e ∈ MapFacts.stored m') /\
  (forall k', k' <> key -> search k' m' = search k' m).
Proof. by apply MapFacts.insert_frame_room. Qed.

(** X4 ([rehash] keeps the entries). On a well-formed map in which each
    bucket can hold the entries that the hash function of the current
    size sends to it, with a number of tries other than [INT_MAX],
    [rehash] returns; the value returned is the comparison of the final
    load factor with the desired ratio; the capacity and [size()] are
    unchanged; the map is well formed and holds the same entries, and
    every stored key is found by [search]. *)
Theorem rehash_keeps_every_entry
    (m : mapT) (desiredBucketRatio : float.t) (maxTries : Z) :
  MapFacts.WF m ->
  MapFacts.spread HashFuncT (getMaxBucketSize m) m ->
  maxTries <> INT_MAX ->
  exists r m',
    rehash HashFuncT desiredBucketRatio maxTries m = Some (r, m') /\
    r = float.ltb (load_factor m') desiredBucketRatio /\
    getMaxBucketSize m' = getMaxBucketSize m /\ size m' = size m /\
    MapFacts.WF m' /\
    MapFacts.stored m' ≡ₚ MapFacts.stored m /\
    forall k, k ∈ (MapFacts.stored m).*1 -> search k m' = Some true.
Proof.
  intros Hwf Hsp Hmax.
  destruct (MapFacts.rehash_loop_spread HashFuncT HashFuncT_range
              desiredBucketRatio maxTries (Z.to_nat maxTries) m Hwf Hsp Hmax)
    as (m' & Hloop & Hwf' & Hcap & Hst).
  assert (Hrun : rehash HashFuncT desiredBucketRatio maxTries m
                 = Some (float.ltb (load_factor m') desiredBucketRatio, m'))
    by (unfold rehash; by rewrite Hloop).
  exists (float.ltb (load_factor m') desiredBucketRatio), m'.
  split; [done|]. split; [done|]. split; [done|].
  split; [by apply (MapFacts.rehash_size HashFuncT _ _ _ _ _ Hrun)|].
  split; [done|]. split; [done|].
  intros k Hk. apply MapFacts.search_present; [done|]. by rewrite Hst.
Qed.

Context `{!BucketCounts.Laws BucketT}.

(** X5 (a redistribution recounts the buckets in use). On a well-formed
    map, whatever its two counters hold, [_rehash(size)] and [_resize()]
    complete, keep the entries and [size()], and leave in
    [getBucketCount()] the number of buckets whose size is at least 1:
    the count returned by [reorganizeBuckets] is exact. *)
Theorem redistribution_recounts_the_buckets_in_use :
  (forall (m : mapT) n,
     MapFacts.WF m -> 0 < n -> n <= size_t.SIZE_MAX ->
     MapFacts.spread HashFuncT n m ->
     exists m',
       _rehash HashFuncT n m = Some m' /\
       getBucketCount m' = MapFacts.active_buckets m' /\
       getMaxBucketSize m' = n /\ size m' = size m /\
       MapFacts.stored m' ≡ₚ MapFacts.stored m) /\
  (forall (m : mapT) nextRehash,
     MapFacts.WF m -> 2 * getMaxBucketSize m <= size_t.SIZE_MAX ->
     MapFacts.spread HashFuncT (2 * getMaxBucketSize m) m ->
     barrier (2 * getMaxBucketSize m) (_rehashPolicy m) = Some nextRehash ->
     exists m',
       _resize HashFuncT m = Some m' /\
       getBucketCount m' = MapFacts.active_buckets m' /\
       getMaxBucketSize m' = 2 * getMaxBucketSize m /\ size m' = size m /\
       _nextRehash m' = nextRehash /\
       MapFacts.stored m' ≡ₚ MapFacts.stored m).
Proof.
  split.
  - intros m n Hwf Hn Hmax Hsp.
    destruct (MapFacts._rehash_recount_spec HashFuncT HashFuncT_range
                m n Hwf Hn Hmax Hsp)
      as (m' & Hrun & _ & Hst & Hsz & He & Hbc).
    by exists m'.
  - intros m nr Hwf Hcap Hsp Hbar.
    destruct (MapFacts._resize_recount_spec HashFuncT HashFuncT_range
                m nr Hwf Hcap Hsp Hbar)
      as (m' & Hrun & _ & Hst & Hsz & He & Hn & Hbc).
    by exists m'.
Qed.

(** X6 (the counters of a map that was only inserted into). On every map
    built from the constructor by [insert] and [rehash] calls that
    return, with room for one more entry and for a doubled table at each
    insert, [size()] is the number of stored keys, [getBucketCount()] is
    the number of buckets whose size is at least 1, and no key is stored
    twice. *)
Theorem counters_agree_after_inserts_only (m : mapT) :
  MapFacts.grown HashFuncT m ->
  size m = N.of_nat (length (MapFacts.stored m)) /\
  getBucketCount m = MapFacts.active_buckets m /\
  NoDup (MapFacts.stored m).*1.
Proof.
  intros Hg.
  destruct (MapFacts.grown_counted HashFuncT HashFuncT_range m Hg)
    as [Hwf [He Hb]].
  split; [done|]. split; [done|]. apply (MapFacts.WF_NoDup m Hwf).
Qed.

End map_properties.

Section map_witnesses.
Import _chainHashingMapT.
Import Demo.

#[local] Existing Instance chain.
#[local] Existing Instance chain_laws.
#[local] Existing Instance chain_counts.

Lemma rehash_of_an_empty_map_returns_false_witness :
  load_factor empty_chain_map = S754_nan /\
  rehash HashFuncT float.one 3 empty_chain_map
  = Some (false, empty_chain_map).
Proof.
  apply (rehash_of_an_empty_map_returns_false HashFuncT empty_chain_map
           float.one 3); reflexivity.
Defined.

Lemma fresh_map_holds_no_key_witness :
  exists m : _chainHashingMapT.t N chainT,
    make HashFuncT 8 = Some m /\
    getMaxBucketSize m = 8 /\ size m = 0 /\ getBucketCount m = 0 /\
    _nextRehash m = 8 /\ MapFacts.stored m = [] /\
    forall k, search k m = Some false.
Proof.
  apply (proj1 (fresh_map_holds_no_key HashFuncT HashFuncT_range) 8 8);
    reflexivity.
Defined.

Lemma insert_keeps_every_other_entry_witness :
  exists m',
    @insert N N HashFuncT probeT (probe 1) 17 170 (crowded_probe_map 1)
    = Some (true, m') /\
    getMaxBucketSize m' = 16 /\
    @MapFacts.WF N N probeT (probe 1) (probe_laws 0) m' /\
    (true = true <->
     17 ∉ (@MapFacts.stored N N probeT (probe 1) (probe_laws 0)
             (crowded_probe_map 1)).*1) /\
    @search N N probeT (probe 1) 17 m' = Some true /\
    (true = true ->
     @MapFacts.stored N N probeT (probe 1) (probe_laws 0) m'
     ≡ₚ (17, 170)
        :: @MapFacts.stored N N probeT (probe 1) (probe_laws 0)
             (crowded_probe_map 1)) /\
    (true = false -> m' = crowded_probe_map 1) /\
    (forall e,
       e ∈ @MapFacts.stored N N probeT (probe 1) (probe_laws 0)
             (crowded_probe_map 1) ->
       e ∈ @MapFacts.stored N N probeT (probe 1) (probe_laws 0) m') /\
    (forall k', k' <> 17 ->
       @search N N probeT (probe 1) k' m'
       = @search N N probeT (probe 1) k' (crowded_probe_map 1)).
Proof.
  eexists. split; [reflexivity|]. split; [reflexivity|].
  apply (@insert_keeps_every_other_entry N N HashFuncT probeT (probe 1)
           (probe_laws 0) HashFuncT_range (crowded_probe_map 1) _ 17 170
           true).
  - exact (crowded_probe_map_WF 0).
  - apply (MapFacts.fits_room_for HashFuncT). vm_compute. lia.
  - vm_compute. discriminate.
  - reflexivity.
Defined.

Lemma rehash_keeps_every_entry_witness :
  float.gtb (load_factor (three_key_probe_map 1)) float.one = true /\
  exists r m',
    @rehash N N HashFuncT probeT (probe 1) float.one 3
       (three_key_probe_map 1) = Some (r, m') /\
    r = float.ltb (load_factor m') float.one /\
    getMaxBucketSize m' = getMaxBucketSize (three_key_probe_map 1) /\
    size m' = size (three_key_probe_map 1) /\
    @MapFacts.WF N N probeT (probe 1) (probe_laws 0) m' /\
    @MapFacts.stored N N probeT (probe 1) (probe_laws 0) m'
    ≡ₚ @MapFacts.stored N N probeT (probe 1) (probe_laws 0)
         (three_key_probe_map 1) /\
    forall k,
      k ∈ (@MapFacts.stored N N probeT (probe 1) (probe_laws 0)
             (three_key_probe_map 1)).*1 ->
      @search N N probeT (probe 1) k m' = Some true.
Proof.
  split; [reflexivity|].
  apply (@rehash_keeps_every_entry N N HashFuncT probeT (probe 1)
           (probe_laws 0) HashFuncT_range (three_key_probe_map 1)
           float.one 3).
  - exact (three_key_probe_map_WF 0).
  - apply (MapFacts.fits_spread HashFuncT). vm_compute. lia.
  - discriminate.
Defined.

Lemma redistribution_recounts_the_buckets_in_use_witness :
  getBucketCount vivified_chain_map = 0 /\
  MapFacts.active_buckets vivified_chain_map = 1 /\
  (exists m',
     _rehash HashFuncT 8 vivified_chain_map = Some m' /\
     getBucketCount m' = MapFacts.active_buckets m' /\
     getMaxBucketSize m' = 8 /\ size m' = size vivified_chain_map /\
     MapFacts.stored m' ≡ₚ MapFacts.stored vivified_chain_map) /\
  (exists m',
     _resize HashFuncT vivified_chain_map = Some m' /\
     getBucketCount m' = MapFacts.active_buckets m' /\
     getMaxBucketSize m' = 2 * getMaxBucketSize vivified_chain_map /\
     size m' = size vivified_chain_map /\
     _nextRehash m' = 16 /\
     MapFacts.stored m' ≡ₚ MapFacts.stored vivified_chain_map).
Proof.
  destruct (redistribution_recounts_the_buckets_in_use HashFuncT
              HashFuncT_range) as [Hrehash Hresize].
  split; [reflexivity|]. split; [reflexivity|]. split.
  - apply (Hrehash vivified_chain_map 8).
    + exact vivified_chain_map_WF.
    + reflexivity.
    + vm_compute. discriminate.
    + apply (MapFacts.fits_spread HashFuncT). vm_compute. discriminate.
  - apply (Hresize vivified_chain_map 16).
    + exact vivified_chain_map_WF.
    + vm_compute. discriminate.
    + apply (MapFacts.fits_spread HashFuncT). vm_compute. discriminate.
    + reflexivity.
Defined.

Lemma counters_agree_after_inserts_only_witness :
  size one_key_map = N.of_nat (length (MapFacts.stored one_key_map)) /\
  getBucketCount one_key_map = MapFacts.active_buckets one_key_map /\
  NoDup (MapFacts.stored one_key_map).*1.
Proof.
  apply (counters_agree_after_inserts_only HashFuncT HashFuncT_range
           one_key_map).
  apply (MapFacts.grown_insert HashFuncT empty_chain_map 1 7 true).
  - apply (MapFacts.grown_make HashFuncT 8); reflexivity.
  - vm_compute. discriminate.
  - vm_compute. discriminate.
  - reflexivity.
Defined.

End map_witnesses.

Section chain_properties.
Import _chainHashingMapT.
Context {KeyT ItemT : Type}.
Variable _comp : KeyT -> KeyT -> bool.
Variable ItemT_default : ItemT.
Variable HashFuncT : N -> KeyT -> N.
Hypothesis _comp_equal_to : forall a b, _comp a b = true <-> a = b.

Local Abbreviation chainT := (LinkedListBucketT.t KeyT ItemT).
Local Abbreviation chainB := (LinkedListBucketT.bucket _comp ItemT_default).
Local Abbreviation chainL :=
  (LinkedListBucketT_laws.laws _comp ItemT_default _comp_equal_to).
Local Abbreviation mapT := (_chainHashingMapT.t KeyT chainT).
Local Abbreviation WF := (@MapFacts.WF KeyT ItemT chainT chainB chainL).
Local Abbreviation stored :=
  (@MapFacts.stored KeyT ItemT chainT chainB chainL).

(** X8 (removal of a key that is not stored, on chain buckets). On a
    well-formed chain-bucket map, neither [safeRemove] nor [remove] of a
    key that is not stored returns: whatever the map holds, the scan of
    the bucket's [safeRemove] has no exit for a key that is missing. *)
Theorem removal_on_chain_maps (m : mapT) key :
  WF m -> key ∉ (stored m).*1 ->
  @safeRemove KeyT ItemT chainT chainB key m = None /\
  @remove KeyT ItemT chainT chainB key m = None.
Proof.
  intros Hwf Hk.
  destruct (MapFacts.home_bucket m key Hwf) as (b & Hb & Hwfb).
  assert (Hrun : @safeRemove KeyT ItemT chainT chainB key m = None).
  { unfold safeRemove. rewrite Hb. simpl.
    rewrite (LinkedListBucketT_laws.chain_safeRemove_absent
               _comp _comp_equal_to b key); [done|].
    by rewrite <- (MapFacts.key_stored_home m key b Hwf Hb). }
  split; [done|].
  by rewrite (ChainMapFacts.chain_remove_safeRemove _comp ItemT_default),
       Hrun.
Qed.

Local Abbreviation bucketT := (LinkedListBucketT.t KeyT ItemT).
Local Abbreviation wf := (@LinkedListBucketT_laws.wf KeyT ItemT).
Local Abbreviation entries := (@LinkedListBucketT_laws.entries KeyT ItemT).
Local Abbreviation fits := LinkedListBucketT_laws.fits.

(** X12 (the invariant of [LinkedListBucketT]). A bucket is well formed
    when [size()] is the number of nodes of its chain and no two nodes
    have the same key. The new bucket is well formed and empty. On a
    well-formed bucket with room for one more node: [insert] leaves a
    well-formed bucket that holds the key; it returns [true] exactly for
    a key that was not stored, whose entry is then the first of the
    chain, with [size()] up by one; and it returns [false] and changes
    nothing for a stored key. [safeGet] leaves a well-formed bucket that
    stores the key with the item it returns; it changes nothing for a
    stored key, and for another key it returns a default item, whose
    entry is then the first of the chain, with [size()] up by one. [get]
    is [safeGet]. *)
Theorem chain_bucket_keeps_its_invariant :
  (wf LinkedListBucketT.new /\
   LinkedListBucketT.size (KeyT := KeyT) (ItemT := ItemT)
     LinkedListBucketT.new = 0) /\
  (forall (b : bucketT) key item,
     wf b -> fits (S (length (entries b))) ->
     let r := LinkedListBucketT.insert _comp key item b in
     wf r.2 /\ key ∈ (entries r.2).*1 /\
     (r.1 = true ->
      (key ∉ (entries b).*1) /\ entries r.2 = (key, item) :: entries b /\
      LinkedListBucketT.size r.2 = LinkedListBucketT.size b + 1) /\
     (r.1 = false -> key ∈ (entries b).*1 /\ r.2 = b)) /\
  (forall (b : bucketT) key,
     wf b -> fits (S (length (entries b))) ->
     let r := LinkedListBucketT.safeGet _comp ItemT_default key b in
     wf r.2 /\ (key, r.1) ∈ entries r.2 /\
     (key ∈ (entries b).*1 -> r.2 = b) /\
     (key ∉ (entries b).*1 ->
      r.1 = ItemT_default /\
      entries r.2 = (key, ItemT_default) :: entries b /\
      LinkedListBucketT.size r.2 = LinkedListBucketT.size b + 1)) /\
  (forall (b : bucketT) key,
     LinkedListBucketT.get _comp ItemT_default key b
     = LinkedListBucketT.safeGet _comp ItemT_default key b).
Proof.
  pose proof (@LinkedListBucketT_laws.chain_size_entries KeyT ItemT) as Hsize.
  assert (Hdec : forall (b : bucketT) key,
            key ∈ (entries b).*1 \/ key ∉ (entries b).*1).
  { intros b key.
    destruct (LinkedListBucketT.scan _comp key (LinkedListBucketT._root b))
      as [n|] eqn:E.
    - left.
      apply (LinkedListBucketT_laws.scan_Some _comp _comp_equal_to) in E
        as [Hin <-].
      apply (list_elem_of_fmap_2 fst _ (LinkedListBucketT_laws.pair_of n)).
      by apply list_elem_of_fmap_2.
    - right.
      by apply (LinkedListBucketT_laws.scan_None _comp _comp_equal_to). }
  split; [|split; [|split]].
  - split; [apply LinkedListBucketT_laws.chain_wf_new | done].
  - intros b key item Hwf Hfits r. subst r.
    destruct (Hdec b key) as [Hs|Hk].
    + rewrite (LinkedListBucketT_laws.chain_insert_old
                 _comp _comp_equal_to b key item Hs).
      simpl. split; [done|]. split; [done|]. by split.
    + destruct (LinkedListBucketT_laws.chain_insert_new
                  _comp _comp_equal_to b key item Hwf Hfits Hk)
        as (b' & -> & Hwf' & Hent).
      simpl. split; [done|]. split; [rewrite Hent; left|].
      split; [|done]. intros _. split; [done|]. split; [done|].
      rewrite (Hsize b' Hwf'), (Hsize b Hwf), Hent. simpl. lia.
  - intros b key Hwf Hfits r. subst r.
    destruct (Hdec b key) as [Hs|Hk].
    + pose proof Hs as Hin.
      apply list_elem_of_fmap in Hin as ([k v] & -> & Hin). simpl in *.
      pose proof (LinkedListBucketT_laws.chain_get_spec
                    _comp ItemT_default _comp_equal_to b k v Hwf Hin)
        as Hget.
      unfold LinkedListBucketT.get in Hget. rewrite Hget. simpl.
      split; [done|]. split; [done|]. by split.
    + destruct (LinkedListBucketT_laws.chain_safeGet_new
                  _comp ItemT_default _comp_equal_to b key Hwf Hfits Hk)
        as (b' & -> & Hwf' & Hent).
      simpl. split; [done|]. split; [rewrite Hent; left|].
      split; [done|]. intros _. split; [done|]. split; [done|].
      rewrite (Hsize b' Hwf'), (Hsize b Hwf), Hent. simpl. lia.
  - done.
Qed.

End chain_properties.

Section probe_properties.
Import _chainHashingMapT.
Context {KeyT ItemT : Type}.
Variable _comp : KeyT -> KeyT -> bool.
Variable ItemT_default : ItemT.
Hypothesis _comp_equal_to : forall a b, _comp a b = true <-> a = b.
Context {MapT : Type} `{!PlainMap.T KeyT ItemT MapT} `{!PlainMap.Laws MapT}.

Local Abbreviation probeT := (PlainHashBucketT.t MapT).
Local Abbreviation probeB :=
  (fun fuel => PlainHashBucketT.bucket _comp ItemT_default (S fuel)).
Local Abbreviation probeL :=
  (PlainHashBucketT_laws.laws _comp ItemT_default _comp_equal_to).

(** X13 (the table of [PlainHashBucketT] doubles at every insert). Over a
    table that keeps the table contract, inserting the pairs of a list of
    at most 62 pairwise distinct keys into a new bucket succeeds at the
    first raw attempt of each insert; the bucket then holds exactly those
    pairs, [size()] is their number [n], the threshold [_nextResize] is
    [max(2, n + 1)] and the table has [2 ^ max(2, n + 1)] slots: from the
    second insert on, every insert doubles the table. *)
Theorem probe_table_doubles_at_every_insert
    fuel (kvs : list (KeyT * ItemT)) :
  NoDup kvs.*1 -> (length kvs <= 62)%nat ->
  exists b : probeT,
    PlainHashBucketT_laws.insert_all _comp (S fuel) kvs PlainHashBucketT.new
    = Some b /\
    PlainHashBucketT.size b = N.of_nat (length kvs) /\
    PlainHashBucketT._nextResize b = N.max 2 (N.of_nat (length kvs) + 1) /\
    PlainMap.getSize (PlainHashBucketT._map b)
    = 2 ^ N.max 2 (N.of_nat (length kvs) + 1) /\
    PlainHashBucketT_laws.entries b ≡ₚ kvs.
Proof.
  intros Hnd Hlen.
  destruct (PlainHashBucketT_laws.insert_all_growth
              _comp _comp_equal_to fuel kvs PlainHashBucketT.new)
    as (b & Hrun & Hwf & Hc & Hn & Hent).
  - apply PlainHashBucketT_laws.probe_wf_new.
  - reflexivity.
  - done.
  - intros e _. rewrite PlainHashBucketT_laws.probe_entries_new.
    apply not_elem_of_nil.
  - rewrite PlainHashBucketT_laws.probe_entries_new. simpl. lia.
  - exists b. split; [done|]. simpl in Hc.
    unfold PlainHashBucketT_laws.threshold_after in Hn.
    unfold PlainHashBucketT.size. rewrite Hc in *.
    split; [done|]. split; [done|]. split.
    + by rewrite (PlainHashBucketT_laws.wf_size b Hwf), Hn.
    + rewrite Hent, PlainHashBucketT_laws.probe_entries_new.
      by rewrite app_nil_r.
Qed.

(** X14 ([safeRemove] of a key that is not stored, on probe buckets). On
    a well-formed map over probe buckets, [safeRemove] of a key that is
    not stored returns [false] and leaves the bucket vector and [size()]
    as they are; the active-bucket counter is still decremented, with
    the wrap-around of [size_t], whenever the bucket the key hashes to is
    empty. *)
Theorem safeRemove_of_a_missing_key_on_probe_buckets
    fuel (m : _chainHashingMapT.t KeyT probeT) key b :
  @MapFacts.WF KeyT ItemT probeT (probeB fuel) (probeL fuel) m ->
  key ∉ (@MapFacts.stored KeyT ItemT probeT (probeB fuel) (probeL fuel) m).*1 ->
  _buckets m !! N.to_nat (_hFunc m key) = Some b ->
  @safeRemove KeyT ItemT probeT (probeB fuel) key m
  = Some (false,
          set_bucketCount
            (size_t.sub (getBucketCount m)
               (size_t.of_bool (PlainHashBucketT.size b =? 0))) m) /\
  (PlainHashBucketT.size b = 0 <-> PlainHashBucketT_laws.entries b = []).
Proof.
  intros Hwf Hk Hb.
  pose proof (Forall_lookup_1 _ _ _ _ (MapFacts.WF_buckets m Hwf) Hb) as Hwfb.
  split.
  - unfold safeRemove. rewrite Hb. simpl.
    rewrite (PlainHashBucketT_laws.probe_safeRemove_absent
               _comp _comp_equal_to b key Hwfb).
    + simpl. by rewrite list_insert_id, MapFacts.set_buckets_id.
    + by rewrite <- (MapFacts.key_stored_home m key b Hwf Hb).
  - unfold PlainHashBucketT.size.
    rewrite (PlainHashBucketT_laws.wf_count b Hwfb).
    destruct (PlainHashBucketT_laws.entries b); simpl; split; try done; lia.
Qed.

End probe_properties.

Section more_witnesses.
Import _chainHashingMapT.
Import Demo.

Lemma built_WF_witness :
  @MapFacts.WF N N chainT chain chain_laws vivified_chain_map.
Proof.
  apply (ChainMapFacts.built_WF N.eqb 0 HashFuncT N.eqb_eq HashFuncT_range).
  apply (ChainMapFacts.built_index N.eqb 0 HashFuncT N.eqb_eq
           empty_chain_map 5 0 vivified_chain_map).
  - apply (ChainMapFacts.built_make N.eqb 0 HashFuncT N.eqb_eq 8);
      reflexivity.
  - split; vm_compute; discriminate.
  - reflexivity.
Defined.

Lemma removal_on_chain_maps_witness :
  @safeRemove N N chainT chain 17 three_key_map = None /\
  @remove N N chainT chain 17 three_key_map = None.
Proof.
  apply (@removal_on_chain_maps N N N.eqb 0 N.eqb_eq three_key_map 17).
  - exact three_key_map_WF.
  - apply (bool_decide_unpack _). vm_compute. exact I.
Defined.

Lemma chain_bucket_keeps_its_invariant_witness :
  (let r := LinkedListBucketT.insert N.eqb 2 9 one_node_bucket in
   LinkedListBucketT_laws.wf r.2 /\
   2 ∈ (LinkedListBucketT_laws.entries r.2).*1 /\
   (r.1 = true ->
    (2 ∉ (LinkedListBucketT_laws.entries one_node_bucket).*1) /\
    LinkedListBucketT_laws.entries r.2
    = (2, 9) :: LinkedListBucketT_laws.entries one_node_bucket /\
    LinkedListBucketT.size r.2 = LinkedListBucketT.size one_node_bucket + 1) /\
   (r.1 = false ->
    2 ∈ (LinkedListBucketT_laws.entries one_node_bucket).*1 /\
    r.2 = one_node_bucket)) /\
  (let r := LinkedListBucketT.safeGet N.eqb 0 2 one_node_bucket in
   LinkedListBucketT_laws.wf r.2 /\
   (2, r.1) ∈ LinkedListBucketT_laws.entries r.2 /\
   (2 ∈ (LinkedListBucketT_laws.entries one_node_bucket).*1 ->
    r.2 = one_node_bucket) /\
   (2 ∉ (LinkedListBucketT_laws.entries one_node_bucket).*1 ->
    r.1 = 0 /\
    LinkedListBucketT_laws.entries r.2
    = (2, 0) :: LinkedListBucketT_laws.entries one_node_bucket /\
    LinkedListBucketT.size r.2 = LinkedListBucketT.size one_node_bucket + 1)).
Proof.
  destruct (@chain_bucket_keeps_its_invariant N N N.eqb 0 N.eqb_eq)
    as (_ & Hinsert & Hget & _).
  split.
  - apply (Hinsert one_node_bucket 2 9).
    + exact one_node_bucket_wf.
    + vm_compute. discriminate.
  - apply (Hget one_node_bucket 2).
    + exact one_node_bucket_wf.
    + vm_compute. discriminate.
Defined.

Lemma probe_table_doubles_at_every_insert_witness :
  exists b : probeT,
    @PlainHashBucketT_laws.insert_all N N N.eqb tableT table 1
       [(1, 10); (2, 20); (3, 30)]
       (@PlainHashBucketT.new N N tableT table)
    = Some b /\
    PlainHashBucketT.size b = 3 /\
    PlainHashBucketT._nextResize b = 4 /\
    @PlainMap.getSize N N tableT table (PlainHashBucketT._map b) = 16 /\
    @PlainHashBucketT_laws.entries N N tableT table table_laws b
    ≡ₚ [(1, 10); (2, 20); (3, 30)].
Proof.
  apply (@probe_table_doubles_at_every_insert N N N.eqb N.eqb_eq
           tableT table table_laws 0%nat [(1, 10); (2, 20); (3, 30)]).
  - apply (bool_decide_unpack _). vm_compute. exact I.
  - simpl. lia.
Defined.

Lemma safeRemove_of_a_missing_key_on_probe_buckets_witness :
  @safeRemove N N probeT (probe 1) 999 (empty_probe_map 1)
  = Some (false,
          set_bucketCount
            (size_t.sub (getBucketCount (empty_probe_map 1))
               (size_t.of_bool
                  (PlainHashBucketT.size
                     (@PlainHashBucketT.new N N tableT table) =? 0)))
            (empty_probe_map 1)) /\
  (PlainHashBucketT.size (@PlainHashBucketT.new N N tableT table) = 0 <->
   @PlainHashBucketT_laws.entries N N tableT table table_laws
     (@PlainHashBucketT.new N N tableT table) = []).
Proof.
  apply (@safeRemove_of_a_missing_key_on_probe_buckets N N N.eqb 0 N.eqb_eq
           tableT table table_laws 0%nat (empty_probe_map 1) 999
           (@PlainHashBucketT.new N N tableT table)).
  - exact (empty_probe_map_WF 0).
  - vm_compute. apply not_elem_of_nil.
  - reflexivity.
Defined.

End more_witnesses.

Section policy_and_index.
Import _chainHashingMapT.
Context {KeyT ItemT : Type}.
Variable HashFuncT : N -> KeyT -> N.
Hypothesis HashFuncT_range : forall n k, 0 < n -> HashFuncT n k < n.

Section any_lawful_bucket.
Context {BucketT : Type} `{!Bucket.T KeyT ItemT BucketT}
        `{!Bucket.Laws BucketT}.

(** X15 (a policy written through [accessRehashPolicy]). Writing a new
    policy through the reference does not move the current barrier: as
    long as the element count stays below it, [insert] returns what it
    would have returned and leaves the same map, policy apart. The new
    policy is read at the next doubling: on a well-formed map, the insert
    of a new key that exceeds the barrier doubles the table and sets the
    barrier to the doubled capacity times the new policy, truncated. *)
Theorem policy_takes_effect_at_the_next_resize
    (m : _chainHashingMapT.t KeyT BucketT) (p : float.t) key item :
  accessRehashPolicy (set_rehashPolicy p m) = p /\
  _nextRehash (set_rehashPolicy p m) = _nextRehash m /\
  (size_t.incr (size m) <= _nextRehash m ->
   insert HashFuncT key item (set_rehashPolicy p m)
   = prod_map id (set_rehashPolicy p) <$> insert HashFuncT key item m) /\
  (MapFacts.WF m -> key ∉ (MapFacts.stored m).*1 ->
   Bucket.fits (S (length (MapFacts.stored m))) ->
   2 * getMaxBucketSize m <= size_t.SIZE_MAX ->
   _nextRehash m < size_t.incr (size m) ->
   forall nextRehash,
     barrier (2 * getMaxBucketSize m) p = Some nextRehash ->
     exists m',
       insert HashFuncT key item (set_rehashPolicy p m) = Some (true, m') /\
       getMaxBucketSize m' = 2 * getMaxBucketSize m /\
       _nextRehash m' = nextRehash /\ accessRehashPolicy m' = p).
Proof.
  split; [done|]. split; [done|]. split.
  - apply MapFacts.insert_under_policy.
  - intros Hwf Hk Hfits Hcap Hgt nr Hbar.
    destruct (MapFacts.insert_growth HashFuncT HashFuncT_range
                (set_rehashPolicy p m) key item) as [Hgrow _]; try done.
    { by apply MapFacts.WF_set_rehashPolicy. }
    destruct (Hgrow Hgt nr Hbar)
      as (m' & bs & Hins & _ & _ & Hsz & Hn & _ & _ & Hp & _).
    by exists m'.
Qed.

End any_lawful_bucket.

Variable _comp : KeyT -> KeyT -> bool.
Variable ItemT_default : ItemT.
Hypothesis _comp_equal_to : forall a b, _comp a b = true <-> a = b.

Local Abbreviation chainT := (LinkedListBucketT.t KeyT ItemT).
Local Abbreviation chainB := (LinkedListBucketT.bucket _comp ItemT_default).
Local Abbreviation chainL :=
  (LinkedListBucketT_laws.laws _comp ItemT_default _comp_equal_to).

(** X16 ([operator[]] twice, and [insert] after [operator[]], on chain
    buckets). On a well-formed chain-bucket map with room for one more
    entry, after [operator[]] has returned an item for a key, the map is
    well formed and stores the key with that item, a second [operator[]]
    on that key returns the same item and changes nothing, and [insert]
    of that key with any item returns [false] and changes nothing: an
    entry created by [operator[]] keeps its default item. *)
Theorem index_settles_the_key_on_chain_maps
    (m m' : _chainHashingMapT.t KeyT chainT) key item :
  @MapFacts.WF KeyT ItemT chainT chainB chainL m ->
  Bucket.fits (Laws := chainL)
    (S (length (@MapFacts.stored KeyT ItemT chainT chainB chainL m))) ->
  @index KeyT ItemT chainT chainB key m = Some (item, m') ->
  @MapFacts.WF KeyT ItemT chainT chainB chainL m' /\
  (key, item) ∈ @MapFacts.stored KeyT ItemT chainT chainB chainL m' /\
  @index KeyT ItemT chainT chainB key m' = Some (item, m') /\
  forall v,
    @insert KeyT ItemT HashFuncT chainT chainB key v m' = Some (false, m').
Proof.
  intros Hwf Hfits Hidx.
  destruct (ChainMapFacts.chain_index_WF _comp ItemT_default _comp_equal_to
              m m' key item Hwf Hfits Hidx) as [Hwf' Hcases].
  assert (Hin : (key, item)
                ∈ @MapFacts.stored KeyT ItemT chainT chainB chainL m').
  { destruct Hcases as [[Hin ->] | (_ & -> & Hst)]; [done|].
    rewrite Hst. left. }
  assert (Hk : key ∈ (@MapFacts.stored KeyT ItemT chainT chainB chainL m').*1)
    by (by apply (list_elem_of_fmap_2 fst _ (key, item))).
  split; [done|]. split; [done|]. split.
  - by apply (ChainMapFacts.chain_index_stored _comp ItemT_default
                _comp_equal_to).
  - intros v.
    exact (@MapFacts.insert_present KeyT ItemT HashFuncT chainT chainB chainL
             m' key v Hwf' Hk).
Qed.

End policy_and_index.

Section policy_and_index_witnesses.
Import _chainHashingMapT.
Import Demo.

Lemma policy_takes_effect_at_the_next_resize_witness :
  (@insert N N HashFuncT chainT chain 1 7
      (set_rehashPolicy half empty_chain_map)
   = prod_map id (set_rehashPolicy half)
       <$> @insert N N HashFuncT chainT chain 1 7 empty_chain_map) /\
  (exists m',
     @insert N N HashFuncT chainT chain 1 7
        (set_rehashPolicy half eager_chain_map) = Some (true, m') /\
     getMaxBucketSize m' = 2 * getMaxBucketSize eager_chain_map /\
     _nextRehash m' = 8 /\ accessRehashPolicy m' = half).
Proof.
  split.
  - apply (@policy_takes_effect_at_the_next_resize N N HashFuncT
             HashFuncT_range chainT chain chain_laws empty_chain_map
             half 1 7).
    vm_compute. discriminate.
  - apply (@policy_takes_effect_at_the_next_resize N N HashFuncT
             HashFuncT_range chainT chain chain_laws eager_chain_map
             half 1 7).
    + exact eager_chain_map_WF.
    + vm_compute. apply not_elem_of_nil.
    + vm_compute. discriminate.
    + vm_compute. discriminate.
    + reflexivity.
    + reflexivity.
Defined.

Lemma index_settles_the_key_on_chain_maps_witness :
  exists m',
    @index N N chainT chain 17 three_key_map = Some (0, m') /\
    @MapFacts.WF N N chainT chain chain_laws m' /\
    (17, 0) ∈ @MapFacts.stored N N chainT chain chain_laws m' /\
    @index N N chainT chain 17 m' = Some (0, m') /\
    forall v,
      @insert N N HashFuncT chainT chain 17 v m' = Some (false, m').
Proof.
  eexists. split; [reflexivity|].
  apply (@index_settles_the_key_on_chain_maps N N HashFuncT N.eqb 0
           N.eqb_eq three_key_map _ 17 0).
  - exact three_key_map_WF.
  - vm_compute. discriminate.
  - reflexivity.
Defined.

End policy_and_index_witnesses.

Section probe_removal.
Import _chainHashingMapT.
Context {KeyT ItemT : Type}.
Variable _comp : KeyT -> KeyT -> bool.
Variable ItemT_default : ItemT.
Hypothesis _comp_equal_to : forall a b, _comp a b = true <-> a = b.
Context {MapT : Type} `{!PlainMap.T KeyT ItemT MapT} `{!PlainMap.Laws MapT}
        `{!PlainMapRemoval.Laws MapT}.

Local Abbreviation probeT := (PlainHashBucketT.t MapT).
Local Abbreviation probeB :=
  (fun fuel => PlainHashBucketT.bucket _comp ItemT_default (S fuel)).
Local Abbreviation probeL :=
  (PlainHashBucketT_laws.laws _comp ItemT_default _comp_equal_to).

(** X17 (removal of a stored key on a probe-bucket map). Over a table
    that keeps the table contract and whose [remove] takes out exactly
    the entry of a stored key, on a well-formed map, [safeRemove] of a
    stored key returns [true] and [remove] leaves the same map: the entry
    of that key is gone and no other, the key is no longer found, every
    other entry is still read by [operator[]], which changes nothing, the
    map is well formed, and [size()] is what it was. *)
Theorem removal_on_probe_maps
    fuel (m : _chainHashingMapT.t KeyT probeT) key item :
  @MapFacts.WF KeyT ItemT probeT (probeB fuel) (probeL fuel) m ->
  (key, item)
  ∈ @MapFacts.stored KeyT ItemT probeT (probeB fuel) (probeL fuel) m ->
  exists m',
    @safeRemove KeyT ItemT probeT (probeB fuel) key m = Some (true, m') /\
    @remove KeyT ItemT probeT (probeB fuel) key m = Some m' /\
    @MapFacts.WF KeyT ItemT probeT (probeB fuel) (probeL fuel) m' /\
    @MapFacts.stored KeyT ItemT probeT (probeB fuel) (probeL fuel) m
    ≡ₚ (key, item)
       :: @MapFacts.stored KeyT ItemT probeT (probeB fuel) (probeL fuel) m' /\
    @search KeyT ItemT probeT (probeB fuel) key m' = Some false /\
    (forall k' v',
       (k', v')
       ∈ @MapFacts.stored KeyT ItemT probeT (probeB fuel) (probeL fuel) m ->
       k' <> key ->
       @index KeyT ItemT probeT (probeB fuel) k' m' = Some (v', m')) /\
    size m' = size m.
Proof.
  intros Hwf Hin.
  destruct (MapFacts.stored_home m _ Hwf Hin) as (b & Hb & Heb).
  simpl in Hb.
  pose proof (Forall_lookup_1 _ _ _ _ (MapFacts.WF_buckets m Hwf) Hb) as Hwfb.
  destruct (PlainHashBucketT_laws.probe_safeRemove_present
              _comp _comp_equal_to b key item Hwfb Heb)
    as (b' & Hsrem & Hrem & Hwfb' & Hent & _).
  destruct (MapFacts.WF_remove m _ b b' (key, item) Hwf Hb Hwfb' Hent)
    as [Hwf1 Hk1].
  pose proof (@MapFacts.stored_remove KeyT ItemT probeT (probeB fuel)
                (probeL fuel) m _ b b' (key, item) Hb Hent) as Hst.
  set (m1 := set_buckets (<[N.to_nat (_hFunc m key):=b']> (_buckets m)) m)
    in *.
  set (m' := set_bucketCount
               (size_t.sub (_bucketCount m1)
                  (size_t.of_bool (PlainHashBucketT.size b' =? 0))) m1).
  assert (Hwf' : @MapFacts.WF KeyT ItemT probeT (probeB fuel) (probeL fuel) m')
    by (by apply MapFacts.WF_set_bucketCount).
  exists m'. split.
  { unfold safeRemove. rewrite Hb. simpl. by rewrite Hsrem. }
  split.
  { unfold remove. rewrite Hb. simpl. by rewrite Hrem. }
  split; [done|]. split; [exact Hst|]. split.
  { destruct (MapFacts.search_stored m' key Hwf') as ([|] & Hs & Hiff);
      [|exact Hs].
    exfalso. apply Hk1. by apply Hiff. }
  split; [|done].
  intros k' v' Hin' Hne.
  apply (ProbeMapFacts.probe_index_stored _comp ItemT_default _comp_equal_to
           fuel m' k' v' Hwf').
  rewrite Hst in Hin'. apply elem_of_cons in Hin' as [[= -> ->]|Hin'];
    [done | exact Hin'].
Qed.

End probe_removal.

Lemma removal_on_probe_maps_witness :
  exists m',
    @_chainHashingMapT.safeRemove N N Demo.probeT (Demo.probe 1) 9
       (Demo.three_key_probe_map 1) = Some (true, m') /\
    @_chainHashingMapT.remove N N Demo.probeT (Demo.probe 1) 9
       (Demo.three_key_probe_map 1) = Some m' /\
    @MapFacts.WF N N Demo.probeT (Demo.probe 1) (Demo.probe_laws 0) m' /\
    @MapFacts.stored N N Demo.probeT (Demo.probe 1) (Demo.probe_laws 0)
       (Demo.three_key_probe_map 1)
    ≡ₚ (9, 90)
       :: @MapFacts.stored N N Demo.probeT (Demo.probe 1) (Demo.probe_laws 0)
            m' /\
    @_chainHashingMapT.search N N Demo.probeT (Demo.probe 1) 9 m'
    = Some false /\
    (forall k' v',
       (k', v')
       ∈ @MapFacts.stored N N Demo.probeT (Demo.probe 1) (Demo.probe_laws 0)
           (Demo.three_key_probe_map 1) ->
       k' <> 9 ->
       @_chainHashingMapT.index N N Demo.probeT (Demo.probe 1) k' m'
       = Some (v', m')) /\
    _chainHashingMapT.size m'
    = _chainHashingMapT.size (Demo.three_key_probe_map 1).
Proof.
  apply (@removal_on_probe_maps N N N.eqb 0 N.eqb_eq Demo.tableT Demo.table
           Demo.table_laws Demo.table_removal 0%nat
           (Demo.three_key_probe_map 1) 9 90).
  - exact (Demo.three_key_probe_map_WF 0).
  - vm_compute. right. left.
Defined.

Section default_policy.
Import _chainHashingMapT.
Context {KeyT ItemT : Type}.
Variable HashFuncT : N -> KeyT -> N.
Hypothesis HashFuncT_range : forall n k, 0 < n -> HashFuncT n k < n.
Context {BucketT : Type} `{!Bucket.T KeyT ItemT BucketT}
        `{!Bucket.Laws BucketT}.

Local Abbreviation mapT := (_chainHashingMapT.t KeyT BucketT).

(** X18 (the default policy on a table of a power-of-two size). For a
    size [2 ^ j] up to [2 ^ 62] the constructor succeeds and sets the
    barrier to the size; the default constructor is the case [j = 3]. On
    every map built from such a constructor by [insert] calls that
    return (with room for one more entry, below [2 ^ 62] elements), the
    capacity is a power of two, the rehash barrier is the capacity, the
    policy is still the default one, and [size()] does not exceed the
    capacity: an insert doubles the table exactly when the element count
    would exceed the number of buckets. *)
Theorem default_policy_keeps_size_within_capacity :
  (forall j, j <= 62 ->
     exists m : mapT,
       make HashFuncT (2 ^ j) = Some m /\ _nextRehash m = 2 ^ j /\
       MapFacts.filled HashFuncT m) /\
  (exists m : mapT,
     make_default HashFuncT = Some m /\ MapFacts.filled HashFuncT m) /\
  (forall m : mapT,
     MapFacts.filled HashFuncT m ->
     (exists j, j <= 62 /\ getMaxBucketSize m = 2 ^ j) /\
     _nextRehash m = getMaxBucketSize m /\
     size m <= getMaxBucketSize m /\
     accessRehashPolicy m = DefaultRehashPolicy).
Proof.
  assert (Hmake : forall j, j <= 62 ->
            exists m : mapT,
              make HashFuncT (2 ^ j) = Some m /\ _nextRehash m = 2 ^ j /\
              MapFacts.filled HashFuncT m).
  { intros j Hj.
    assert (Hpos : 0 < 2 ^ j) by (apply N.neq_0_lt_0, N.pow_nonzero; lia).
    destruct (MapFacts.make_spec HashFuncT HashFuncT_range (2 ^ j) (2 ^ j)
                Hpos)
      as (m & Hmk & _ & _ & _ & _ & _ & Hn & _).
    { apply MapFacts.barrier_pow2. lia. }
    exists m. split; [done|]. split; [done|].
    by apply (MapFacts.filled_make HashFuncT j). }
  split; [exact Hmake|]. split.
  - destruct (Hmake 3) as (m & Hmk & _ & Hf); [lia|]. by exists m.
  - intros m Hf.
    destruct (MapFacts.filled_doubling HashFuncT HashFuncT_range m Hf)
      as [_ Hp Hcap Hn He].
    done.
Qed.

End default_policy.

Lemma default_policy_keeps_size_within_capacity_witness :
  (exists j, j <= 62 /\
     _chainHashingMapT.getMaxBucketSize Demo.one_key_map = 2 ^ j) /\
  _chainHashingMapT._nextRehash Demo.one_key_map
  = _chainHashingMapT.getMaxBucketSize Demo.one_key_map /\
  _chainHashingMapT.size Demo.one_key_map
  <= _chainHashingMapT.getMaxBucketSize Demo.one_key_map /\
  _chainHashingMapT.accessRehashPolicy Demo.one_key_map
  = _chainHashingMapT.DefaultRehashPolicy.
Proof.
  apply (@default_policy_keeps_size_within_capacity N N Demo.HashFuncT
           Demo.HashFuncT_range Demo.chainT Demo.chain Demo.chain_laws).
  apply (@MapFacts.filled_insert N N Demo.HashFuncT Demo.chainT Demo.chain
           Demo.chain_laws Demo.empty_chain_map 1 7 true).
  - apply (@MapFacts.filled_make N N Demo.HashFuncT Demo.chainT Demo.chain
             Demo.chain_laws 3).
    + vm_compute. discriminate.
    + reflexivity.
  - vm_compute. discriminate.
  - reflexivity.
  - reflexivity.
Defined.

Section index_of_a_stored_key.
Import _chainHashingMapT.
Context {KeyT ItemT : Type}.
Variable _comp : KeyT -> KeyT -> bool.
Variable ItemT_default : ItemT.
Hypothesis _comp_equal_to : forall a b, _comp a b = true <-> a = b.
Context {MapT : Type} `{!PlainMap.T KeyT ItemT MapT} `{!PlainMap.Laws MapT}.

Local Abbreviation chainT := (LinkedListBucketT.t KeyT ItemT).
Local Abbreviation chainB := (LinkedListBucketT.bucket _comp ItemT_default).
Local Abbreviation chainL :=
  (LinkedListBucketT_laws.laws _comp ItemT_default _comp_equal_to).
Local Abbreviation probeT := (PlainHashBucketT.t MapT).
Local Abbreviation probeB :=
  (fun fuel => PlainHashBucketT.bucket _comp ItemT_default (S fuel)).
Local Abbreviation probeL :=
  (PlainHashBucketT_laws.laws _comp ItemT_default _comp_equal_to).

(** X19 ([operator[]] on a stored key). On a well-formed map, for both
    bucket classes, [operator[]] on a stored key returns the item stored
    with it and leaves the map as it is; nothing is created. *)
Theorem index_reads_a_stored_key :
  (forall (m : _chainHashingMapT.t KeyT chainT) key item,
     @MapFacts.WF KeyT ItemT chainT chainB chainL m ->
     (key, item) ∈ @MapFacts.stored KeyT ItemT chainT chainB chainL m ->
     @index KeyT ItemT chainT chainB key m = Some (item, m)) /\
  (forall fuel (m : _chainHashingMapT.t KeyT probeT) key item,
     @MapFacts.WF KeyT ItemT probeT (probeB fuel) (probeL fuel) m ->
     (key, item)
     ∈ @MapFacts.stored KeyT ItemT probeT (probeB fuel) (probeL fuel) m ->
     @index KeyT ItemT probeT (probeB fuel) key m = Some (item, m)).
Proof.
  split.
  - intros m key item Hwf Hin.
    rewrite <- (ChainMapFacts.chain_get_is_index _comp ItemT_default).
    by apply (MapFacts.get_stored m key item Hwf).
  - intros fuel m key item Hwf Hin.
    destruct (MapFacts.stored_home m _ Hwf Hin) as (b & Hb & Heb).
    simpl in Hb.
    pose proof (Forall_lookup_1 _ _ _ _ (MapFacts.WF_buckets m Hwf) Hb)
      as Hwfb.
    unfold index. rewrite Hb. simpl. unfold PlainHashBucketT.safeGet.
    rewrite (PlainMap.search_present _ key item
               (PlainHashBucketT_laws.wf_map b Hwfb) Heb).
    simpl. by rewrite list_insert_id, MapFacts.set_buckets_id.
Qed.

End index_of_a_stored_key.

Lemma index_reads_a_stored_key_witness :
  @_chainHashingMapT.index N N Demo.chainT Demo.chain 1 Demo.one_key_map
  = Some (7, Demo.one_key_map) /\
  @_chainHashingMapT.index N N Demo.probeT (Demo.probe 1) 1
     (Demo.one_key_probe_map 1)
  = Some (7, Demo.one_key_probe_map 1).
Proof.
  destruct (@index_reads_a_stored_key N N N.eqb 0 N.eqb_eq Demo.tableT
              Demo.table Demo.table_laws) as [Hchain Hprobe].
  split.
  - apply (Hchain Demo.one_key_map 1 7).
    + exact Demo.one_key_map_WF.
    + vm_compute. left.
  - apply (Hprobe 0%nat (Demo.one_key_probe_map 1) 1 7).
    + exact (Demo.one_key_probe_map_WF 0).
    + vm_compute. left.
Defined.
